(** * whooshy.analysis: tokenizers, filters and composite analyzers

    A shallow embedding of the analysis package of whooshy
    ([whooshy/core.py], [whooshy/analysis/tokenizers.py],
    [whooshy/analysis/filters.py], [whooshy/analysis/morph.py],
    [whooshy/analysis/analyzers.py]) and the properties of its
    composition operator, token streams and preset analyzers.

    Conventions of the embedding:
    - a Python [str] is a [string]; its characters are read as the code
      points U+0000..U+00FF, [len] is [String.length];
    - a Python [int] is a [Z];
    - [Token] objects live in a store and are handled through references,
      because a tokenizer creates ONE token and yields it over and over;
    - a generator is a finite resumption [iter]: asked for its next item in
      a given store it yields a reference and the rest of itself, finishes,
      or raises;
    - an exception is a value of [exn] carried by [result] / [outcome]. *)

From stdpp Require Import gmap strings list.
From Stdlib Require Import ZArith QArith Ascii.

#[local] Set Warnings "-register-all".

#[local] Open Scope list_scope.
#[local] Open Scope Z_scope.

(** ** Python preliminaries *)

(** The exceptions the modelled code can raise.  [DanglingReference] has no
    Python counterpart: it is what the embedding answers when a stream hands
    out a reference that is not in the store, which no stream built from a
    tokenizer does.  [NotATokenStream] stands for the failures of a chain
    whose first item is a filter and therefore receives the raw text where
    it expects tokens; such chains are outside this development. *)
Inductive exn : Type :=
| TypeError
| CompositionError
| StopIteration
| KeyError
| AssertionError
| IndexError
| DanglingReference
| NotATokenStream.

Inductive result (A : Type) : Type :=
| Ok (a : A)
| Err (e : exn).
Arguments Ok {A} a.
Arguments Err {A} e.

Definition bind {A B : Type} (r : result A) (k : A -> result B) : result B :=
  match r with
  | Ok a => k a
  | Err e => Err e
  end.

Definition len (s : string) : Z := Z.of_nat (String.length s).

(** [bool(s)] of a [str]: the empty string is falsy. *)
Definition truthy (s : string) : bool :=
  match s with
  | EmptyString => false
  | String _ _ => true
  end.

Fixpoint str_drop (n : nat) (s : string) : string :=
  match n, s with
  | O, _ => s
  | S n', EmptyString => EmptyString
  | S n', String _ s' => str_drop n' s'
  end.

Fixpoint str_take (n : nat) (s : string) : string :=
  match n, s with
  | O, _ => EmptyString
  | S n', EmptyString => EmptyString
  | S n', String c s' => String c (str_take n' s')
  end.

(** Normalisation of one slice bound, as [PySlice_AdjustIndices] does it
    for a step of 1: a negative bound counts from the end, and the result
    is clamped to [0, len]. *)
Definition adjust_index (i length : Z) : Z :=
  if i <? 0 then Z.max 0 (i + length) else Z.min i length.

(** [s[i:j]] *)
Definition slice (s : string) (i j : Z) : string :=
  let i' := adjust_index i (len s) in
  let j' := adjust_index j (len s) in
  str_take (Z.to_nat (j' - i')) (str_drop (Z.to_nat i') s).

(** [s[i:]] *)
Definition slice_from (s : string) (i : Z) : string :=
  str_drop (Z.to_nat (adjust_index i (len s))) s.

(** [s[:j]] *)
Definition slice_to (s : string) (j : Z) : string :=
  str_take (Z.to_nat (adjust_index j (len s))) s.

Definition ord (c : ascii) : N := N_of_ascii c.

Definition code_in (lo hi : N) (c : ascii) : bool :=
  ((lo <=? ord c) && (ord c <=? hi))%N.

(** [str.lower()] on U+0000..U+00FF: the upper-case letters are A-Z,
    U+00C0..U+00D6 and U+00D8..U+00DE, each 32 below its lower-case form. *)
Definition chr_lower (c : ascii) : ascii :=
  if code_in 65 90 c || code_in 192 214 c || code_in 216 222 c
  then ascii_of_N (ord c + 32)
  else c.

Fixpoint str_lower (s : string) : string :=
  match s with
  | EmptyString => EmptyString
  | String c s' => String (chr_lower c) (str_lower s')
  end.

(** [str.isspace()] on U+0000..U+00FF. *)
Definition chr_isspace (c : ascii) : bool :=
  code_in 9 13 c || code_in 28 32 c || (ord c =? 133)%N || (ord c =? 160)%N.

Fixpoint str_lstrip (s : string) : string :=
  match s with
  | EmptyString => EmptyString
  | String c s' => if chr_isspace c then str_lstrip s' else s
  end.

Fixpoint str_rstrip (s : string) : string :=
  match s with
  | EmptyString => EmptyString
  | String c s' =>
      match str_rstrip s' with
      | EmptyString => if chr_isspace c then EmptyString else String c EmptyString
      | r => String c r
      end
  end.

(** [str.strip()] *)
Definition str_strip (s : string) : string := str_rstrip (str_lstrip s).

(** ** whooshy.core *)

Module Token.

(** [class Token].  The keyword bag [**kwargs] of the constructor, which
    only adds attributes no stage of the package reads, is left out. *)
Record t : Type := mk {
  positions : bool;
  chars : bool;
  remove_stopwords : bool;
  mode : string;
  boost : Q;
  stopped : bool;
  text : string;
  original_text : string;
  pos : Z;
  start_char : Z;
  end_char : Z
}.

(** [Token.__init__] *)
Definition __init__ (positions chars remove_stopwords : bool) (mode : string) : t :=
  {| positions := positions; chars := chars;
     remove_stopwords := remove_stopwords; mode := mode;
     boost := 1; stopped := false; text := ""; original_text := "";
     pos := 0; start_char := 0; end_char := 0 |}.

(** Attribute assignments [t.x = v]. *)
Definition set_boost (v : Q) (x : t) : t :=
  mk (positions x) (chars x) (remove_stopwords x) (mode x)
     v (stopped x) (text x) (original_text x) (pos x) (start_char x) (end_char x).
Definition set_stopped (v : bool) (x : t) : t :=
  mk (positions x) (chars x) (remove_stopwords x) (mode x)
     (boost x) v (text x) (original_text x) (pos x) (start_char x) (end_char x).
Definition set_text (v : string) (x : t) : t :=
  mk (positions x) (chars x) (remove_stopwords x) (mode x)
     (boost x) (stopped x) v (original_text x) (pos x) (start_char x) (end_char x).
Definition set_original_text (v : string) (x : t) : t :=
  mk (positions x) (chars x) (remove_stopwords x) (mode x)
     (boost x) (stopped x) (text x) v (pos x) (start_char x) (end_char x).
Definition set_pos (v : Z) (x : t) : t :=
  mk (positions x) (chars x) (remove_stopwords x) (mode x)
     (boost x) (stopped x) (text x) (original_text x) v (start_char x) (end_char x).
Definition set_start_char (v : Z) (x : t) : t :=
  mk (positions x) (chars x) (remove_stopwords x) (mode x)
     (boost x) (stopped x) (text x) (original_text x) (pos x) v (end_char x).
Definition set_end_char (v : Z) (x : t) : t :=
  mk (positions x) (chars x) (remove_stopwords x) (mode x)
     (boost x) (stopped x) (text x) (original_text x) (pos x) (start_char x) v.

End Token.

Abbreviation Token := Token.t.

(** A reference to a [Token] object. *)
Abbreviation ref := nat.

(** The store: the token objects allocated so far, and what the logging
    filters have reported (logger name and the token as it was then, which
    is what [repr(t)] prints). *)
Record world : Type := World {
  heap : list Token;
  log : list (string * Token)
}.

Definition empty_world : world := World [] [].

Definition alloc (t : Token) (w : world) : ref * world :=
  (List.length (heap w), World (heap w ++ [t]) (log w)).

(** The assignments of one loop body, applied to the object behind [r]. *)
Definition update (f : Token -> Token) (r : ref) (w : world) : world :=
  World (alter f r (heap w)) (log w).

(** What asking a generator for its next item gives. *)
Inductive iter : Type :=
| Iter (next : world -> outcome)
with outcome : Type :=
| Yield (r : ref) (rest : iter) (w : world)
| Done (w : world)
| Raise (e : exn).

(** [next(it)], with the store made explicit. *)
Definition next (it : iter) (w : world) : outcome :=
  match it with
  | Iter n => n w
  end.

(** ** Generators *)

(** The body of a tokenizer creates its token and then, once per item,
    assigns attributes and yields that same token.  None of the tokenizers
    reads the token back, so the assignments of the successive rounds are
    known from the input alone: [steps], and [fin] when the loop ends in an
    exception rather than by returning. *)
Fixpoint resume (r : ref) (steps : list (Token -> Token)) (fin : option exn) : iter :=
  Iter (fun w =>
    match steps with
    | [] => match fin with
            | Some e => Raise e
            | None => Done w
            end
    | f :: steps' => Yield r (resume r steps' fin) (update f r w)
    end).

(** A generator that has not started: nothing runs, and no token exists,
    before the first item is asked for. *)
Definition generator (t : Token) (steps : list (Token -> Token)) (fin : option exn) : iter :=
  Iter (fun w => let (r, w') := alloc t w in next (resume r steps fin) w').

(** A generator whose body raises before its first [yield]. *)
Definition raising (e : exn) : iter := Iter (fun _ => Raise e).

(** [itertools.chain(first, tokens)] for a list [first]. *)
Fixpoint chain (first : list ref) (tokens : iter) : iter :=
  Iter (fun w =>
    match first with
    | r :: first' => Yield r (chain first' tokens) w
    | [] => next tokens w
    end).

(** [for t in tokens: <body>], where the body assigns to [t], updates the
    local variables [s] of the generator and either ends in [yield t] or
    falls through to the next round.  [body s t] gives the new locals, the
    token after the assignments, and whether it is yielded. *)
Fixpoint for_in {S : Type} (body : S -> Token -> S * Token * bool)
    (s : S) (tokens : iter) : iter :=
  Iter (fun w =>
    match next tokens w with
    | Raise e => Raise e
    | Done w' => Done w'
    | Yield r tokens' w' =>
        match heap w' !! r with
        | None => Raise DanglingReference
        | Some t =>
            let '(s', t', yielded) := body s t in
            let w'' := update (fun _ => t') r w' in
            if yielded then Yield r (for_in body s' tokens') w''
            else next (for_in body s' tokens') w''
        end
    end).

(** What a consumer sees that reads every token the moment it is yielded,
    as [[t.copy() for t in tokens]] does. *)
Fixpoint drain (it : iter) (w : world) : result (list Token * world) :=
  match next it w with
  | Raise e => Err e
  | Done w' => Ok ([], w')
  | Yield r it' w' =>
      match heap w' !! r with
      | None => Err DanglingReference
      | Some t =>
          match drain it' w' with
          | Ok (ts, w'') => Ok (t :: ts, w'')
          | Err e => Err e
          end
      end
  end.

(** ** The pattern engine

    [whooshy.util.text.rcompile] and the compiled patterns of Python's [re]
    behind it are not part of the sources at hand.  A compiled pattern is
    any value of [Pattern], and the statements about tokenizers hold for
    every such value; the concrete engine, a backtracking matcher for the
    operators the package's own patterns use, is only needed to run them. *)
Module re.

(** A match object, reduced to [match.start()] and [match.end()], which
    are never negative; [match.group(0)] is the slice of the subject
    between them. *)
Record Match : Type := { m_start : nat; m_end : nat }.

Definition start (m : Match) : Z := Z.of_nat (m_start m).
Definition end_ (m : Match) : Z := Z.of_nat (m_end m).

Definition group0 (value : string) (m : Match) : string :=
  slice value (start m) (end_ m).

(** Modelled from the spec: the compiled pattern that [rcompile] returns,
    missing from the sources.  The spec asks of it "find all non-overlapping
    matches", ordered left to right: [finditer]; [pattern] is its source
    text. *)
Record Pattern : Type := {
  pattern : string;
  finditer : string -> list Match
}.

Inductive regex : Type :=
| Eps
| Class (p : ascii -> bool)
| Seq (a b : regex)
| Alt (a b : regex)
| Star (a : regex).

Definition Lit (c : ascii) : regex := Class (fun x => (ord x =? ord c)%N).
Definition Plus (a : regex) : regex := Seq a (Star a).
Definition Opt (a : regex) : regex := Alt a Eps.

(** Modelled from the spec: the matching of the pattern engine, missing
    from the sources.  Greedy backtracking match of [r] at the head of [s];
    [k] is what has to match after it and answers with the unread rest of
    the subject.  A round of [Star] that reads nothing ends the
    repetition. *)
Fixpoint exec (r : regex) (s : string) (k : string -> option string) : option string :=
  match r with
  | Eps => k s
  | Class p =>
      match s with
      | String c s' => if p c then k s' else None
      | EmptyString => None
      end
  | Seq a b => exec a s (fun s' => exec b s' k)
  | Alt a b =>
      match exec a s k with
      | Some rest => Some rest
      | None => exec b s k
      end
  | Star a =>
      (fix rounds (n : nat) (s : string) : option string :=
         match n with
         | O => k s
         | S n' =>
             match exec a s (fun s' =>
                     if (String.length s' <? String.length s)%nat
                     then rounds n' s' else None) with
             | Some rest => Some rest
             | None => k s
             end
         end) (String.length s) s
  end.

(** One search attempt at the head of [s].  With [must_advance], set after
    an empty match, an empty match here is refused. *)
Definition match_here (r : regex) (must_advance : bool) (s : string) : option string :=
  exec r s (fun rest =>
    if must_advance && (String.length rest =? String.length s)%nat
    then None else Some rest).

(** Modelled from the spec: the scan of [finditer], missing from the
    sources, giving the non-overlapping matches from left to right.  [at_]
    is the offset of [s] in the subject.  A match is followed by a search
    from its end; a failed attempt moves one character on.  [fuel] bounds
    the number of attempts. *)
Fixpoint scan (r : regex) (fuel : nat) (at_ : nat) (must_advance : bool) (s : string)
    : list Match :=
  match fuel with
  | O => []
  | S fuel' =>
      match match_here r must_advance s with
      | Some rest =>
          let e := (at_ + (String.length s - String.length rest))%nat in
          {| m_start := at_; m_end := e |}
            :: scan r fuel' e (e =? at_)%nat rest
      | None =>
          match s with
          | EmptyString => []
          | String _ s' => scan r fuel' (S at_) false s'
          end
      end
  end.

(** Modelled from the spec: [rcompile], missing from the sources, for a
    pattern given with its syntax tree.  At most two attempts are made at
    each offset, which the fuel allows for. *)
Definition compile (source : string) (r : regex) : Pattern :=
  {| pattern := source;
     finditer := fun value => scan r (2 * String.length value + 2) 0 false value |}.

(** [\w] on U+0000..U+00FF: the alphanumeric characters and the underscore. *)
Definition word_char (c : ascii) : bool :=
  code_in 48 57 c || code_in 65 90 c || code_in 97 122 c || (ord c =? 95)%N
  || (ord c =? 170)%N || code_in 178 179 c || (ord c =? 181)%N
  || code_in 185 186 c || code_in 188 190 c
  || code_in 192 214 c || code_in 216 246 c || code_in 248 255 c.

Definition none_of (cs : list ascii) (c : ascii) : bool :=
  negb (existsb (fun x => (ord x =? ord c)%N) cs).

End re.

(** ** whooshy.analysis.tokenizers *)

(** The keyword arguments of a call, each with the default the tokenizers
    declare for it. *)
Record kwargs : Type := {
  kw_positions : bool;
  kw_chars : bool;
  kw_keep_original : bool;
  kw_remove_stopwords : bool;
  kw_start_pos : Z;
  kw_start_char : Z;
  kw_tokenize : bool;
  kw_mode : string
}.

Definition no_kwargs : kwargs :=
  {| kw_positions := false; kw_chars := false; kw_keep_original := false;
     kw_remove_stopwords := true; kw_start_pos := 0; kw_start_char := 0;
     kw_tokenize := true; kw_mode := "" |}.

(** [default_pattern = rcompile(r"\w+(\.?\w+)*")] *)
Definition default_pattern : re.Pattern :=
  re.compile "\w+(\.?\w+)*"
    (re.Seq (re.Plus (re.Class re.word_char))
            (re.Star (re.Seq (re.Opt (re.Lit ".")) (re.Plus (re.Class re.word_char))))).

(** [if cond: <assignments>] *)
Definition when (cond : bool) (f : Token -> Token) (t : Token) : Token :=
  if cond then f t else t.

(** An NLTK stemmer object: compared by identity, used through [stem]. *)
Record Stemmer : Type := { stemmer_id : nat; stem : string -> string }.

(** The stage classes of the package: the four [Tokenizer] subclasses, then
    the [Filter] subclasses, each with its instance attributes.  The
    keyword arguments of [MultiFilter] are kept in the order given. *)
Inductive stage : Type :=
| IDTokenizer
| RegexTokenizer (expression : re.Pattern) (gaps : bool)
| CharsetTokenizer (char_map : gmap N (option string))
| PathTokenizer (expr : re.Pattern)
| PassFilter
| LoggingFilter (logger : string)
| MultiFilter (filters : list (string * stage))
| LowercaseFilter
| StripFilter
| StopFilter (stops : gset string) (min : Z) (max : option Z) (renumber : bool)
| CharsetFilter (char_map : gmap N (option string))
| StemFilter (stemmer : Stemmer) (lang : string) (ignore : gset string).

(** [isinstance(item, Tokenizer)] *)
Definition is_tokenizer (s : stage) : bool :=
  match s with
  | IDTokenizer | RegexTokenizer _ _ | CharsetTokenizer _ | PathTokenizer _ => true
  | _ => false
  end.

(** [Token(positions, chars, remove_stopwords=remove_stopwords, mode=mode)] *)
Definition new_token (kw : kwargs) : Token :=
  Token.__init__ (kw_positions kw) (kw_chars kw) (kw_remove_stopwords kw) (kw_mode kw).

Module IDTokenizer.

Definition __call__ (value : string) (kw : kwargs) : iter :=
  generator (new_token kw)
    [fun t =>
       let t := Token.set_text value t in
       let t := Token.set_boost 1 t in
       let t := when (kw_keep_original kw) (Token.set_original_text value) t in
       let t := when (kw_positions kw) (Token.set_pos (kw_start_pos kw + 1)) t in
       let t := when (kw_chars kw) (Token.set_start_char (kw_start_char kw)) t in
       let t := when (kw_chars kw) (Token.set_end_char (kw_start_char kw + len value)) t in
       t]
    None.

End IDTokenizer.

Module RegexTokenizer.

(** The branch [if not tokenize]. *)
Definition whole (value : string) (kw : kwargs) : Token -> Token :=
  fun t =>
    let t := Token.set_original_text value t in
    let t := Token.set_text value t in
    let t := Token.set_boost 1 t in
    let t := when (kw_positions kw) (Token.set_pos (kw_start_pos kw)) t in
    let t := when (kw_chars kw) (Token.set_start_char (kw_start_char kw)) t in
    let t := when (kw_chars kw) (Token.set_end_char (kw_start_char kw + len value)) t in
    t.

(** The body of [for pos, match in enumerate(...)] in the branch
    [elif not self.gaps].  Both assignments under [if chars] go to
    [start_char], as in the source. *)
Definition on_match (value : string) (kw : kwargs) (pos : nat) (m : re.Match)
    : Token -> Token :=
  fun t =>
    let t := Token.set_text (re.group0 value m) t in
    let t := Token.set_boost 1 t in
    let t := when (kw_keep_original kw) (fun t => Token.set_original_text (Token.text t) t) t in
    let t := Token.set_stopped false t in
    let t := when (kw_positions kw) (Token.set_pos (kw_start_pos kw + Z.of_nat pos)) t in
    let t := when (kw_chars kw) (Token.set_start_char (kw_start_char kw + re.start m)) t in
    let t := when (kw_chars kw) (Token.set_start_char (kw_start_char kw + re.end_ m)) t in
    t.

(** The token for the text between two separators, [gaps=True]. *)
Definition on_gap (kw : kwargs) (text : string) (pos start end_ : Z) : Token -> Token :=
  fun t =>
    let t := Token.set_text text t in
    let t := Token.set_boost 1 t in
    let t := when (kw_keep_original kw) (fun t => Token.set_original_text (Token.text t) t) t in
    let t := Token.set_stopped false t in
    let t := when (kw_positions kw) (Token.set_pos pos) t in
    let t := when (kw_chars kw) (Token.set_start_char (kw_start_char kw + start)) t in
    let t := when (kw_chars kw) (Token.set_end_char (kw_start_char kw + end_)) t in
    t.

(** The token for the text after the last separator. *)
Definition on_tail (value : string) (kw : kwargs) (pos prevend : Z) : Token -> Token :=
  fun t =>
    let t := Token.set_text (slice_from value prevend) t in
    let t := Token.set_boost 1 t in
    let t := when (kw_keep_original kw) (fun t => Token.set_original_text (Token.text t) t) t in
    let t := Token.set_stopped false t in
    let t := when (kw_positions kw) (Token.set_pos pos) t in
    let t := when (kw_chars kw) (Token.set_start_char prevend) t in
    let t := when (kw_chars kw) (Token.set_end_char (len value)) t in
    t.

(** The loop of the branch [gaps=True] with its locals [prevend] and [pos],
    and the test after it. *)
Fixpoint split (value : string) (kw : kwargs) (matches : list re.Match)
    (prevend pos : Z) : list (Token -> Token) :=
  match matches with
  | [] =>
      if prevend <? len value then [on_tail value kw pos prevend] else []
  | m :: matches' =>
      let start := prevend in
      let end_ := re.start m in
      let text := slice value start end_ in
      if truthy text
      then on_gap kw text pos start end_
             :: split value kw matches' (re.end_ m)
                  (if kw_positions kw then pos + 1 else pos)
      else split value kw matches' (re.end_ m) pos
  end.

Definition __call__ (expression : re.Pattern) (gaps : bool)
    (value : string) (kw : kwargs) : iter :=
  generator (new_token kw)
    (if negb (kw_tokenize kw) then [whole value kw]
     else if negb gaps then imap (on_match value kw) (re.finditer expression value)
     else split value kw (re.finditer expression value) 0 (kw_start_pos kw))
    None.

End RegexTokenizer.

Module CharsetTokenizer.

(** [bool(tchar)] for a value of the map: [None] and the empty string are
    the break characters. *)
Definition is_kept (tchar : option string) : bool :=
  match tchar with
  | Some s => truthy s
  | None => false
  end.

Definition whole (value : string) (kw : kwargs) : Token -> Token :=
  RegexTokenizer.whole value kw.

(** The token yielded inside the loop, at a break character. *)
Definition on_break (kw : kwargs) (text : string) (pos start current : Z)
    : Token -> Token :=
  fun t =>
    let t := Token.set_text text t in
    let t := Token.set_boost 1 t in
    let t := when (kw_keep_original kw) (fun t => Token.set_original_text (Token.text t) t) t in
    let t := when (kw_positions kw) (Token.set_pos pos) t in
    let t := when (kw_chars kw) (Token.set_start_char start) t in
    let t := when (kw_chars kw) (Token.set_end_char current) t in
    t.

(** The token yielded after the loop; its text is [value[start:current]]. *)
Definition on_end (value : string) (kw : kwargs) (pos start current : Z)
    : Token -> Token :=
  fun t =>
    let t := Token.set_text (slice value start current) t in
    let t := Token.set_boost 1 t in
    let t := when (kw_keep_original kw) (fun t => Token.set_original_text (Token.text t) t) t in
    let t := when (kw_positions kw) (Token.set_pos pos) t in
    let t := when (kw_chars kw) (Token.set_start_char start) t in
    let t := when (kw_chars kw) (Token.set_end_char current) t in
    t.

(** [for char in value] over the characters [rest] still to read, with the
    locals [text], [pos], [start] and [current]; a character missing from
    the map ends the generator with [KeyError]. *)
Fixpoint walk (char_map : gmap N (option string)) (value : string) (kw : kwargs)
    (rest : string) (text : string) (pos start current : Z)
    : list (Token -> Token) * option exn :=
  match rest with
  | EmptyString =>
      (if start <? current then [on_end value kw pos start current] else [], None)
  | String char rest' =>
      match char_map !! ord char with
      | None => ([], Some KeyError)
      | Some tchar =>
          if is_kept tchar
          then walk char_map value kw rest' (text +:+ default "" tchar)
                 pos start (current + 1)
          else
            let pos' := if (start <? current) && kw_positions kw then pos + 1 else pos in
            let '(steps, fin) :=
              walk char_map value kw rest' "" pos' (current + 1) (current + 1) in
            (if start <? current
             then on_break kw text pos start current :: steps
             else steps, fin)
      end
  end.

Definition __call__ (char_map : gmap N (option string))
    (value : string) (kw : kwargs) : iter :=
  if negb (kw_tokenize kw)
  then generator (new_token kw) [whole value kw] None
  else
    let '(steps, fin) :=
      walk char_map value kw value "" (kw_start_pos kw)
        (kw_start_char kw) (kw_start_char kw) in
    generator (new_token kw) steps fin.

End CharsetTokenizer.

Module PathTokenizer.

(** The default of [expression] in [__init__]. *)
Definition default_expression : re.Pattern :=
  re.compile "[^/]+" (re.Plus (re.Class (re.none_of ["/"%char]))).

Fixpoint prefixes (value : string) (kw : kwargs) (matches : list re.Match) (pos : Z)
    : list (Token -> Token) :=
  match matches with
  | [] => []
  | m :: matches' =>
      (fun t =>
         let t := Token.set_text (slice_to value (re.end_ m)) t in
         let t := when (kw_positions kw) (Token.set_pos pos) t in
         t)
        :: prefixes value kw matches' (if kw_positions kw then pos + 1 else pos)
  end.

(** [Token(positions, **kwargs)]: of the keyword arguments left in
    [kwargs], [chars], [remove_stopwords] and [mode] are parameters of
    [Token.__init__]; [start_char] is not, and is not a parameter of this
    [__call__] either, so it ends as the attribute [start_char] of the new
    token through [self.__dict__.update(kwargs)].  A call without
    [start_char] leaves the attribute at 0, the default of the keyword
    elsewhere.  [keep_original] and [tokenize] end the same way, as
    attributes that no stage reads and [Token.t] has no field for. *)
Definition token (kw : kwargs) : Token :=
  Token.set_start_char (kw_start_char kw) (new_token kw).

Definition __call__ (expr : re.Pattern) (value : string) (kw : kwargs) : iter :=
  generator (token kw)
    (prefixes value kw (re.finditer expr value) (kw_start_pos kw)) None.

End PathTokenizer.

(** [tokenizer(value, **kwargs)]; [None] when the stage is not a tokenizer. *)
Definition tokenize (s : stage) (value : string) (kw : kwargs) : option iter :=
  match s with
  | IDTokenizer => Some (IDTokenizer.__call__ value kw)
  | RegexTokenizer expression gaps =>
      Some (RegexTokenizer.__call__ expression gaps value kw)
  | CharsetTokenizer char_map => Some (CharsetTokenizer.__call__ char_map value kw)
  | PathTokenizer expr => Some (PathTokenizer.__call__ expr value kw)
  | _ => None
  end.

(** ** whooshy.analysis.filters and whooshy.analysis.morph *)

(** [STOP_WORDS] *)
Definition STOP_WORDS : gset string :=
  list_to_set
    ["a"; "an"; "and"; "are"; "as"; "at"; "be"; "by"; "can";
     "for"; "from"; "have"; "if"; "in"; "is"; "it"; "may";
     "not"; "of"; "on"; "or"; "tbd"; "that"; "the"; "this";
     "to"; "us"; "we"; "when"; "will"; "with"; "yet";
     "you"; "your"].

Module PassFilter.

Definition __call__ (tokens : iter) : iter := tokens.

End PassFilter.

Module LoggingFilter.

(** [logger.debug(repr(t))] *)
Definition debug (logger : string) (t : Token) (w : world) : world :=
  World (heap w) (log w ++ [(logger, t)]).

Fixpoint __call__ (logger : string) (tokens : iter) : iter :=
  Iter (fun w =>
    match next tokens w with
    | Raise e => Raise e
    | Done w' => Done w'
    | Yield r tokens' w' =>
        match heap w' !! r with
        | None => Raise DanglingReference
        | Some t => Yield r (__call__ logger tokens') (debug logger t w')
        end
    end).

End LoggingFilter.

Module LowercaseFilter.

Definition body (_ : unit) (t : Token) : unit * Token * bool :=
  (tt, Token.set_text (str_lower (Token.text t)) t, true).

Definition __call__ (tokens : iter) : iter := for_in body tt tokens.

End LowercaseFilter.

Module StripFilter.

Definition body (_ : unit) (t : Token) : unit * Token * bool :=
  (tt, Token.set_text (str_strip (Token.text t)) t, true).

Definition __call__ (tokens : iter) : iter := for_in body tt tokens.

End StripFilter.

Module StopFilter.

(** The test of the [if] in the loop: this is not a stop word. *)
Definition passes (stops : gset string) (minsize : Z) (maxsize : option Z)
    (text : string) : bool :=
  (minsize <=? len text)
  && match maxsize with
     | None => true
     | Some m => len text <=? m
     end
  && negb (bool_decide (text ∈ stops)).

(** One round of the loop; the local [pos] starts as [None]. *)
Definition body (stops : gset string) (minsize : Z) (maxsize : option Z)
    (renumber : bool) (pos : option Z) (t : Token) : option Z * Token * bool :=
  let text := Token.text t in
  if passes stops minsize maxsize text
  then
    let '(pos, t) :=
      if renumber && Token.positions t
      then match pos with
           | None => (Some (Token.pos t), t)
           | Some p => (Some (p + 1), Token.set_pos (p + 1) t)
           end
      else (pos, t) in
    (pos, Token.set_stopped false t, true)
  else
    if negb (Token.remove_stopwords t)
    then (pos, Token.set_stopped true t, true)
    else (pos, t, false).

Definition __call__ (stops : gset string) (minsize : Z) (maxsize : option Z)
    (renumber : bool) (tokens : iter) : iter :=
  for_in (body stops minsize maxsize renumber) None tokens.

End StopFilter.

Module CharsetFilter.

(** [str.translate(char_map)]: a code point without an entry stays, one
    mapped to [None] goes, one mapped to a string is replaced by it. *)
Fixpoint translate (char_map : gmap N (option string)) (s : string) : string :=
  match s with
  | EmptyString => EmptyString
  | String c s' =>
      match char_map !! ord c with
      | None => String c (translate char_map s')
      | Some None => translate char_map s'
      | Some (Some x) => x +:+ translate char_map s'
      end
  end.

Definition body (char_map : gmap N (option string)) (_ : unit) (t : Token)
    : unit * Token * bool :=
  (tt, Token.set_text (translate char_map (Token.text t)) t, true).

Definition __call__ (char_map : gmap N (option string)) (tokens : iter) : iter :=
  for_in (body char_map) tt tokens.

End CharsetFilter.

Module StemFilter.

Definition body (stemmer : Stemmer) (ignore : gset string) (_ : unit) (t : Token)
    : unit * Token * bool :=
  (tt,
   if negb (Token.stopped t)
   then let text := Token.text t in
        if negb (bool_decide (text ∈ ignore))
        then Token.set_text (stem stemmer text) t
        else t
   else t,
   true).

Definition __call__ (stemmer : Stemmer) (ignore : gset string) (tokens : iter) : iter :=
  for_in (body stemmer ignore) tt tokens.

End StemFilter.

(** [filter(tokens)] for a stage object [filter]: what the call itself does
    and returns.  The generator functions return at once, nothing of their
    body having run.  [MultiFilter.__call__] is an ordinary function: it
    takes the first token from [tokens] on the spot, looks its mode up in
    [self.filters], [PassFilter()] being the default, and calls what it
    found on [chain([t], tokens)].  A tokenizer called on a token stream
    returns a generator whose first step fails the assertion of
    [_assert_utf8]. *)
Fixpoint call (filter : stage) (tokens : iter) (w : world) : result (iter * world) :=
  match filter with
  | IDTokenizer | RegexTokenizer _ _ | CharsetTokenizer _ | PathTokenizer _ =>
      Ok (raising AssertionError, w)
  | PassFilter => Ok (PassFilter.__call__ tokens, w)
  | LoggingFilter logger => Ok (LoggingFilter.__call__ logger tokens, w)
  | LowercaseFilter => Ok (LowercaseFilter.__call__ tokens, w)
  | StripFilter => Ok (StripFilter.__call__ tokens, w)
  | StopFilter stops minsize maxsize renumber =>
      Ok (StopFilter.__call__ stops minsize maxsize renumber tokens, w)
  | CharsetFilter char_map => Ok (CharsetFilter.__call__ char_map tokens, w)
  | StemFilter stemmer _ ignore => Ok (StemFilter.__call__ stemmer ignore tokens, w)
  | MultiFilter filters =>
      match next tokens w with
      | Raise e => Err e
      | Done _ => Err StopIteration
      | Yield r tokens' w' =>
          match heap w' !! r with
          | None => Err DanglingReference
          | Some t =>
              (fix get (fs : list (string * stage)) : result (iter * world) :=
                 match fs with
                 | [] => Ok (PassFilter.__call__ (chain [r] tokens'), w')
                 | (key, f) :: fs' =>
                     if String.eqb key (Token.mode t)
                     then call f (chain [r] tokens') w'
                     else get fs'
                 end) filters
          end
      end
  end.

(** [self.filters.get(mode, self.default_filter)] *)
Fixpoint get (filters : list (string * stage)) (mode : string) (default : stage) : stage :=
  match filters with
  | [] => default
  | (key, f) :: filters' => if String.eqb key mode then f else get filters' mode default
  end.

Module MultiFilter.

Definition default_filter : stage := PassFilter.

Definition __call__ (filters : list (string * stage)) (tokens : iter) (w : world)
    : result (iter * world) :=
  call (MultiFilter filters) tokens w.

End MultiFilter.

(** ** Equality of stages: the [__eq__] methods *)

(** [a == b] for two stage objects, by the [__eq__] of the class of [a]:
    - [Tokenizer.__eq__] (inherited by [IDTokenizer] and [PathTokenizer])
      compares the classes;
    - [RegexTokenizer.__eq__] compares the classes and
      [expression.pattern];
    - [CharsetTokenizer.__eq__], [CharsetFilter.__eq__] compare the classes
      and [char_map];
    - [Filter.__eq__] compares the classes and [__dict__];
    - [MultiFilter.__eq__] compares the classes and the dictionaries
      [filters]: as many keys, and each key of the one bound in the other
      to an equal filter;
    - [StopFilter.__eq__] compares the classes, [stops], [min] and
      [renumber]. *)
Fixpoint stage_eq (a b : stage) : bool :=
  match a, b with
  | IDTokenizer, IDTokenizer => true
  | RegexTokenizer e _, RegexTokenizer e' _ =>
      String.eqb (re.pattern e) (re.pattern e')
  | CharsetTokenizer m, CharsetTokenizer m' => bool_decide (m = m')
  | PathTokenizer _, PathTokenizer _ => true
  | PassFilter, PassFilter => true
  | LoggingFilter l, LoggingFilter l' => String.eqb l l'
  | MultiFilter fs, MultiFilter gs =>
      (List.length fs =? List.length gs)%nat
      && (fix each (fs : list (string * stage)) : bool :=
            match fs with
            | [] => true
            | (key, f) :: fs' =>
                match List.find (fun kg => String.eqb (fst kg) key) gs with
                | Some (_, g) => stage_eq f g
                | None => false
                end && each fs'
            end) fs
  | LowercaseFilter, LowercaseFilter => true
  | StripFilter, StripFilter => true
  | StopFilter stops mn _ renumber, StopFilter stops' mn' _ renumber' =>
      bool_decide (stops = stops') && (mn =? mn') && Bool.eqb renumber renumber'
  | CharsetFilter m, CharsetFilter m' => bool_decide (m = m')
  | StemFilter st lang ignore, StemFilter st' lang' ignore' =>
      String.eqb lang lang' && bool_decide (ignore = ignore')
      && (stemmer_id st =? stemmer_id st')%nat
  | _, _ => false
  end.

(** [items == other.items] for two lists. *)
Fixpoint items_eq (xs ys : list stage) : bool :=
  match xs, ys with
  | [], [] => true
  | x :: xs', y :: ys' => stage_eq x y && items_eq xs' ys'
  | _, _ => false
  end.

(** ** whooshy.core.Composable and whooshy.analysis.analyzers *)

(** The objects that are instances of [Composable]: a stage on its own, or
    a [CompositeAnalyzer] with its list [items]. *)
Inductive composable : Type :=
| Single (s : stage)
| CompositeAnalyzer (items : list stage).

(** Any Python object that may stand right of [|]: a [Composable], or
    something else, such as a plain function. *)
Inductive object : Type :=
| Composable (c : composable)
| Opaque.

Module CompositeAnalyzer.

(** The first loop of [__init__]: [extend] for a composite, [append] for
    anything else. *)
Definition collect (components : list composable) : list stage :=
  fold_left
    (fun items comp =>
       match comp with
       | CompositeAnalyzer its => items ++ its
       | Single s => items ++ [s]
       end)
    components [].

(** [CompositeAnalyzer.__init__], given its components in order. *)
Definition __init__ (components : list composable) : result composable :=
  let items := collect components in
  if existsb is_tokenizer (tail items)
  then Err CompositionError
  else Ok (CompositeAnalyzer items).

(** [hasattr(item, "is_morph") and item.is_morph] *)
Definition is_morph (s : stage) : bool :=
  match s with
  | StemFilter _ _ _ => true
  | _ => false
  end.

(** The loop [for item in items[1:]] of [__call__]. *)
Fixpoint run_filters (no_morph : bool) (items : list stage) (gen : iter) (w : world)
    : result (iter * world) :=
  match items with
  | [] => Ok (gen, w)
  | item :: items' =>
      if negb (no_morph && is_morph item)
      then bind (call item gen w) (fun '(gen', w') => run_filters no_morph items' gen' w')
      else run_filters no_morph items' gen w
  end.

(** [self(value, no_morph=no_morph, **kwargs)] *)
Definition __call__ (items : list stage) (value : string) (no_morph : bool)
    (kw : kwargs) (w : world) : result (iter * world) :=
  match items with
  | [] => Err IndexError
  | first :: rest =>
      match tokenize first value kw with
      | None => Err NotATokenStream
      | Some gen => run_filters no_morph rest gen w
      end
  end.

Definition __len__ (items : list stage) : nat := List.length items.

(** [self == other] for two composites: [other] is falsy when it has no
    items. *)
Definition __eq__ (items other_items : list stage) : bool :=
  negb (__len__ other_items =? 0)%nat && items_eq items other_items.

Definition has_morph (items : list stage) : bool := existsb is_morph items.

End CompositeAnalyzer.

(** [Composable.__or__]: [self | other] *)
Definition __or__ (self : composable) (other : object) : result composable :=
  match other with
  | Opaque => Err TypeError
  | Composable other => CompositeAnalyzer.__init__ [self; other]
  end.

(** [ana(value, **kwargs)] for an analyzer [ana] that is a tokenizer on its
    own or a composite. *)
Definition analyze (ana : composable) (value : string) (kw : kwargs) (w : world)
    : result (iter * world) :=
  match ana with
  | Single s =>
      match tokenize s value kw with
      | Some gen => Ok (gen, w)
      | None => Err NotATokenStream
      end
  | CompositeAnalyzer items => CompositeAnalyzer.__call__ items value false kw w
  end.

(** [[t.text for t in ana(value, **kwargs)]], from an empty store. *)
Definition texts (ana : result composable) (value : string) (kw : kwargs)
    : result (list string) :=
  bind ana (fun ana =>
  bind (analyze ana value kw empty_world) (fun '(gen, w) =>
  bind (drain gen w) (fun '(ts, _) => Ok (map Token.text ts)))).

(** [SpaceSeparatedTokenizer()] *)
Definition SpaceSeparatedTokenizer : stage :=
  RegexTokenizer
    (re.compile "[^ \t\r\n]+"
       (re.Plus (re.Class (re.none_of [" "; "009"; "013"; "010"]%char))))
    false.

(** [CommaSeparatedTokenizer()] *)
Definition CommaSeparatedTokenizer : result composable :=
  __or__
    (Single (RegexTokenizer
               (re.compile "[^,]+" (re.Plus (re.Class (re.none_of [","%char]))))
               false))
    (Composable (Single StripFilter)).

(** [KeywordAnalyzer(lowercase=False, commas=False)] *)
Definition KeywordAnalyzer (lowercase commas : bool) : result composable :=
  bind (if commas then CommaSeparatedTokenizer
        else Ok (Single SpaceSeparatedTokenizer))
    (fun tokenizer =>
       if lowercase
       then __or__ tokenizer (Composable (Single LowercaseFilter))
       else Ok tokenizer).

(** [SimpleAnalyzer(expression=default_pattern, gaps=False)] *)
Definition SimpleAnalyzer (expression : re.Pattern) (gaps : bool) : result composable :=
  __or__ (Single (RegexTokenizer expression gaps)) (Composable (Single LowercaseFilter)).

(** [StandardAnalyzer(expression, stop_words, minsize, maxsize, gaps)];
    [stop_words=None] is [None]. *)
Definition StandardAnalyzer (expression : re.Pattern) (stop_words : option (gset string))
    (minsize : Z) (maxsize : option Z) (gaps : bool) : result composable :=
  bind (__or__ (Single (RegexTokenizer expression gaps))
          (Composable (Single LowercaseFilter)))
    (fun chain =>
       match stop_words with
       | Some stop_list =>
           __or__ chain (Composable (Single (StopFilter stop_list minsize maxsize false)))
       | None => Ok chain
       end).

(** ** Further functions of whooshy.core *)

Module core.

(** The body of the generator expression in [unstopped]:
    [(t for t in token_stream if not t.stopped)]. *)
Definition unstopped_body (_ : unit) (t : Token) : unit * Token * bool :=
  (tt, t, negb (Token.stopped t)).

(** [unstopped(token_stream)] *)
Definition unstopped (token_stream : iter) : iter :=
  for_in unstopped_body tt token_stream.

(** One round of the loop of [tokenize], for the element [text] of the
    stream, with the locals [pos] and [char] as they are before it. *)
Definition on_text (positions chars : bool) (text : string) (pos char : Z)
    : Token -> Token :=
  fun t =>
    let t := Token.set_text text t in
    let t := when positions (Token.set_pos pos) t in
    let t := when chars (Token.set_start_char char) t in
    let t := when chars (Token.set_end_char (char + len text)) t in
    t.

Fixpoint rounds (positions chars : bool) (text_stream : list string) (pos char : Z)
    : list (Token -> Token) :=
  match text_stream with
  | [] => []
  | text :: text_stream' =>
      on_text positions chars text pos char
        :: rounds positions chars text_stream'
             (if positions then pos + 1 else pos)
             (if chars then char + len text else char)
  end.

(** [tokenize(text_stream, positions, chars, start_pos, start_char,
    **kwargs)], for a finite sequence of strings; [remove_stopwords] and
    [mode] are what the keyword bag hands on to [Token]. *)
Definition tokenize (text_stream : list string) (positions chars : bool)
    (start_pos start_char : Z) (remove_stopwords : bool) (mode : string) : iter :=
  generator (Token.__init__ positions chars remove_stopwords mode)
    (rounds positions chars text_stream start_pos start_char) None.

(** [Token.copy] builds a new [Token] from the items of [self.__dict__]:
    the constructor first sets every attribute to its default and then
    overwrites all of them from the dictionary, so the new object has the
    values of the old one.  The result is the reference of the copy. *)
Definition copy (r : ref) (w : world) : result (ref * world) :=
  match heap w !! r with
  | Some t => Ok (alloc t w)
  | None => Err DanglingReference
  end.

(** [Composable.has_morph], for a stage on its own: [self.is_morph]. *)
Definition has_morph (s : stage) : bool := CompositeAnalyzer.is_morph s.

End core.

(** [list(tokens)]: the references a consumer holds that keeps the items
    instead of reading them. *)
Fixpoint to_list (it : iter) (w : world) : result (list ref * world) :=
  match next it w with
  | Raise e => Err e
  | Done w' => Ok ([], w')
  | Yield r it' w' =>
      match to_list it' w' with
      | Ok (rs, w'') => Ok (r :: rs, w'')
      | Err e => Err e
      end
  end.

(** [[t.text for t in kept]] for references kept from an earlier loop. *)
Definition read (rs : list ref) (w : world) : list (option Token) :=
  map (fun r => heap w !! r) rs.

(** [ana.has_morph()] *)
Definition has_morph (ana : composable) : bool :=
  match ana with
  | Single s => core.has_morph s
  | CompositeAnalyzer items => CompositeAnalyzer.has_morph items
  end.

(** [StemFilter(stemmer, lang, ignore)]: [by_lang] is the stemmer object
    that [get_stemmer_by_lang(lang)] returns in this call, used when no
    stemmer is given; [ignore=None] is [None]. *)
Definition new_StemFilter (stemmer : option Stemmer) (lang : string)
    (ignore : option (list string)) (by_lang : Stemmer) : stage :=
  StemFilter (default by_lang stemmer) lang
    (match ignore with
     | None => ∅
     | Some words => list_to_set words
     end).

(** [StemmingAnalyzer(expression, stoplist, minsize, maxsize, gaps,
    stemmer, ignore)]; the [StemFilter] is built with the default
    [lang="english"]. *)
Definition StemmingAnalyzer (expression : re.Pattern) (stoplist : option (gset string))
    (minsize : Z) (maxsize : option Z) (gaps : bool)
    (stemmer : option Stemmer) (ignore : option (list string))
    (by_lang : Stemmer) : result composable :=
  bind (__or__ (Single (RegexTokenizer expression gaps))
          (Composable (Single LowercaseFilter)))
    (fun chain =>
       bind (match stoplist with
             | Some stop_list =>
                 __or__ chain
                   (Composable (Single (StopFilter stop_list minsize maxsize false)))
             | None => Ok chain
             end)
         (fun chain =>
            __or__ chain
              (Composable (Single (new_StemFilter stemmer "english" ignore by_lang))))).

(** [[t.copy() for t in tokens]]: the references of the copies. *)
Fixpoint copies (it : iter) (w : world) : result (list ref * world) :=
  match next it w with
  | Raise e => Err e
  | Done w' => Ok ([], w')
  | Yield r it' w' =>
      match core.copy r w' with
      | Err e => Err e
      | Ok (c, w'') =>
          match copies it' w'' with
          | Ok (cs, w3) => Ok (c :: cs, w3)
          | Err e => Err e
          end
      end
  end.

(** * Vocabulary of the statements *)

(** The items a composable object contributes to a composite. *)
Definition items_of (c : composable) : list stage :=
  match c with
  | Single s => [s]
  | CompositeAnalyzer items => items
  end.

(** A tokenizer sits at some position other than 0. *)
Definition misplaced_tokenizer (items : list stage) : Prop :=
  exists (i : nat) (s : stage),
    (0 < i)%nat /\ items !! i = Some s /\ is_tokenizer s = true.

(** [(X | Y) | Z] and [X | (Y | Z)], an exception of the inner composition
    being the outcome of the whole expression. *)
Definition or_left (X Y Z : composable) : result composable :=
  bind (__or__ X (Composable Y)) (fun XY => __or__ XY (Composable Z)).

Definition or_right (X Y Z : composable) : result composable :=
  bind (__or__ Y (Composable Z)) (fun YZ => __or__ X (Composable YZ)).

(** Two generators that answer alike in every store. *)
Definition same_next (a b : iter) : Prop := forall w, next a w = next b w.

(** Two answers that agree up to the rest of the stream answering alike. *)
Inductive alike : outcome -> outcome -> Prop :=
| alike_yield (r : ref) (a b : iter) (w : world) :
    same_next a b -> alike (Yield r a w) (Yield r b w)
| alike_done (w : world) : alike (Done w) (Done w)
| alike_raise (e : exn) : alike (Raise e) (Raise e).

(** What a consumer reads from the stream a call returned. *)
Definition observe (res : result (iter * world)) : result (list Token * world) :=
  bind res (fun '(it, w) => drain it w).

(** The patterns of the package's tests. *)
Definition upper_case : re.Pattern :=
  re.compile "[A-Z]+" (re.Plus (re.Class (code_in 65 90))).

(** A pattern that matches the empty string. *)
Definition any_as : re.Pattern := re.compile "a*" (re.Star (re.Lit "a")).

Definition non_space : re.Pattern :=
  re.compile "\S+" (re.Plus (re.Class (fun c => negb (chr_isspace c)))).

Definition mode_kwargs (mode : string) : kwargs :=
  {| kw_positions := false; kw_chars := false; kw_keep_original := false;
     kw_remove_stopwords := true; kw_start_pos := 0; kw_start_char := 0;
     kw_tokenize := true; kw_mode := mode |}.


(** The tokens a consumer reads from a tokenizer's generator: the one token
    object after the assignments of each round. *)
Fixpoint snapshots (t : Token) (steps : list (Token -> Token)) : list Token :=
  match steps with
  | [] => []
  | f :: steps' => f t :: snapshots (f t) steps'
  end.

Definition after_rounds (r : ref) (steps : list (Token -> Token)) (w : world) : world :=
  fold_left (fun w f => update f r w) steps w.

(** [[t for t in gen]] read from an empty store. *)
Definition emitted (gen : iter) : result (list Token) :=
  bind (drain gen empty_world) (fun '(ts, _) => Ok ts).

Definition chars_kwargs : kwargs :=
  {| kw_positions := false; kw_chars := true; kw_keep_original := false;
     kw_remove_stopwords := true; kw_start_pos := 0; kw_start_char := 0;
     kw_tokenize := true; kw_mode := "" |}.

Definition offsets (t : Token) : string * Z * Z :=
  (Token.text t, Token.start_char t, Token.end_char t).

(** A character map that folds [A] and [B] to lower case and breaks at
    the space. *)
Definition folding : gmap N (option string) :=
  list_to_map [(65%N, Some "a"); (66%N, Some "b"); (32%N, None)].

(** The tokens a consumer reads behind one filter loop run on a tokenizer's
    generator: in each round the tokenizer's assignments, then the body of
    the loop, on the one token object. *)
Fixpoint loop_over {S : Type} (body : S -> Token -> S * Token * bool)
    (s : S) (t : Token) (steps : list (Token -> Token)) : list Token :=
  match steps with
  | [] => []
  | f :: steps' =>
      let '(s', t', yielded) := body s (f t) in
      (if yielded then [t'] else []) ++ loop_over body s' t' steps'
  end.

(** Keyword arguments that ask for positions, numbered from [start_pos]. *)
Definition positions_kwargs (start_pos : Z) : kwargs :=
  {| kw_positions := true; kw_chars := false; kw_keep_original := false;
     kw_remove_stopwords := true; kw_start_pos := start_pos; kw_start_char := 0;
     kw_tokenize := true; kw_mode := "" |}.

(** Matches as an engine reports them for a subject of length [upto]:
    from left to right, one after the other, each inside the subject. *)
Fixpoint ordered (matches : list re.Match) (from upto : nat) : Prop :=
  match matches with
  | [] => (from <= upto)%nat
  | m :: matches' =>
      (from <= re.m_start m <= re.m_end m)%nat
      /\ ordered matches' (re.m_end m) upto
  end.

(** The number of characters in the texts of some tokens. *)
Definition characters (ts : list Token) : nat :=
  sum_list_with (fun t => String.length (Token.text t)) ts.

(** Two filter loops in a row, as one loop: the body of the second runs on
    what the first yields, in the same round. *)
Definition fuse {S1 S2 : Type} (first : S1 -> Token -> S1 * Token * bool)
    (second : S2 -> Token -> S2 * Token * bool)
    : S1 * S2 -> Token -> (S1 * S2) * Token * bool :=
  fun s t =>
    let '(s1, t1, yielded) := first (fst s) t in
    if yielded
    then let '(s2, t2, yielded') := second (snd s) t1 in ((s1, s2), t2, yielded')
    else ((s1, snd s), t1, false).

(** A token without its two stop-word flags. *)
Definition forget (t : Token) : Token :=
  Token.mk (Token.positions t) (Token.chars t) true (Token.mode t)
    (Token.boost t) false (Token.text t) (Token.original_text t)
    (Token.pos t) (Token.start_char t) (Token.end_char t).

(** What the rounds of the tokenizers have in common: the text a round
    assigns does not depend on the token, the options the token was
    created with stay, and the stop-word flags are not read. *)
Definition tokenizer_round (f : Token -> Token) : Prop :=
  (forall t t', Token.text (f t) = Token.text (f t'))
  /\ (forall t, Token.remove_stopwords (f t) = Token.remove_stopwords t)
  /\ (forall t, Token.positions (f t) = Token.positions t)
  /\ (forall t t', forget t = forget t' -> forget (f t) = forget (f t')).

(** The keyword arguments [kw] with [remove_stopwords=flag]. *)
Definition with_remove_stopwords (flag : bool) (kw : kwargs) : kwargs :=
  {| kw_positions := kw_positions kw; kw_chars := kw_chars kw;
     kw_keep_original := kw_keep_original kw;
     kw_remove_stopwords := flag;
     kw_start_pos := kw_start_pos kw; kw_start_char := kw_start_char kw;
     kw_tokenize := kw_tokenize kw; kw_mode := kw_mode kw |}.

(** What a consumer reads that does not look at the stop-word flags. *)
Definition seen (res : result (list Token * world)) : result (list Token) :=
  bind res (fun '(ts, _) => Ok (map forget ts)).

(** Tokens whose character ranges follow one another without a gap,
    starting at [from], each as long as its text. *)
Fixpoint contiguous (from : Z) (ts : list Token) : Prop :=
  match ts with
  | [] => True
  | t :: ts' =>
      Token.start_char t = from
      /\ Token.end_char t = from + len (Token.text t)
      /\ contiguous (Token.end_char t) ts'
  end.

(** The tokens that are not marked as stopped. *)
Definition unmarked (ts : list Token) : list Token :=
  List.filter (fun t => negb (Token.stopped t)) ts.

(** What [StemFilter] makes of the text of a token that is not stopped. *)
Definition stemmed (stemmer : Stemmer) (ignore : gset string) (text : string)
    : string :=
  if bool_decide (text ∈ ignore) then text else stem stemmer text.

(** A stage whose call takes the first token from the stream. *)
Definition takes_first (s : stage) : bool :=
  match s with
  | MultiFilter _ => true
  | _ => false
  end.

(** Keyword arguments of a call that asks for positions from [start_pos]
    and for the input as one token. *)
Definition whole_kwargs (start_pos : Z) : kwargs :=
  {| kw_positions := true; kw_chars := false; kw_keep_original := false;
     kw_remove_stopwords := true; kw_start_pos := start_pos; kw_start_char := 0;
     kw_tokenize := false; kw_mode := "" |}.

(** A round of a tokenizer that does not read the text the token has. *)
Definition ignores_text (f : Token -> Token) : Prop :=
  forall t x, f (Token.set_text x t) = f t.

(** The token [t] with [g] applied to its text. *)
Definition map_text (g : string -> string) (t : Token) : Token :=
  Token.set_text (g (Token.text t)) t.

(** The texts of some tokens, one after the other. *)
Definition joined (ts : list Token) : string :=
  foldr (fun t s => Token.text t +:+ s) "" ts.

(** The tokenizer at the head of [KeywordAnalyzer(commas=commas)]. *)
Definition keyword_tokenizer (commas : bool) : stage :=
  if commas
  then RegexTokenizer
         (re.compile "[^,]+" (re.Plus (re.Class (re.none_of [","%char])))) false
  else SpaceSeparatedTokenizer.

(** The number of stages of a composable: [len(ana)] for a composite, 1
    for a stage on its own. *)
Definition width (ana : composable) : nat :=
  match ana with
  | Single _ => 1%nat
  | CompositeAnalyzer items => CompositeAnalyzer.__len__ items
  end.

(** * Properties *)

(** ** The package's tests and docstrings, run on the embedding *)

Example test_regextokenizer :
  texts (Ok (Single (RegexTokenizer upper_case false)))
    "AAAaaaBBBbbbCCCcccDDDddd" no_kwargs
  = Ok ["AAA"; "BBB"; "CCC"; "DDD"]
  /\ texts (Ok (Single (RegexTokenizer upper_case true)))
       "AAAaaaBBBbbbCCCcccDDDddd" no_kwargs
     = Ok ["aaa"; "bbb"; "ccc"; "ddd"].
Proof. split; vm_compute; reflexivity. Qed.

Example test_path_tokenizer :
  texts (Ok (Single (PathTokenizer PathTokenizer.default_expression)))
    "/alfa/bravo/charlie/delta/" no_kwargs
  = Ok ["/alfa"; "/alfa/bravo"; "/alfa/bravo/charlie"; "/alfa/bravo/charlie/delta"].
Proof. vm_compute. reflexivity. Qed.

Example test_composition1 :
  SimpleAnalyzer default_pattern false
  = Ok (CompositeAnalyzer [RegexTokenizer default_pattern false; LowercaseFilter])
  /\ texts (SimpleAnalyzer default_pattern false) "ABC 123" no_kwargs
     = Ok ["abc"; "123"].
Proof. split; vm_compute; reflexivity. Qed.

Example test_composition2 :
  texts (StandardAnalyzer default_pattern (Some STOP_WORDS) 2 None false)
    "The ABC 123" no_kwargs
  = Ok ["abc"; "123"].
Proof. vm_compute. reflexivity. Qed.

Example test_multifilter :
  let mf := MultiFilter [("a", LowercaseFilter); ("b", PassFilter)] in
  let ana := __or__ (Single (RegexTokenizer non_space false)) (Composable (Single mf)) in
  texts ana "ALFA BRAVO CHARLIE" (mode_kwargs "a") = Ok ["alfa"; "bravo"; "charlie"]
  /\ texts ana "ALFA BRAVO CHARLIE" (mode_kwargs "b") = Ok ["ALFA"; "BRAVO"; "CHARLIE"].
Proof. split; vm_compute; reflexivity. Qed.

Example doc_IDTokenizer :
  texts (Ok (Single IDTokenizer)) "/a/b 123 alpha" no_kwargs = Ok ["/a/b 123 alpha"].
Proof. vm_compute. reflexivity. Qed.

Example doc_RegexTokenizer :
  texts (Ok (Single (RegexTokenizer default_pattern false)))
    "hi there 3.141 big-time under_score" no_kwargs
  = Ok ["hi"; "there"; "3.141"; "big"; "time"; "under_score"].
Proof. vm_compute. reflexivity. Qed.

Example doc_CommaSeparatedTokenizer :
  texts CommaSeparatedTokenizer "hi there, what's , up" no_kwargs
  = Ok ["hi there"; "what's"; "up"].
Proof. vm_compute. reflexivity. Qed.

Example doc_KeywordAnalyzer :
  texts (KeywordAnalyzer false false) "Hello there, this is a TEST" no_kwargs
  = Ok ["Hello"; "there,"; "this"; "is"; "a"; "TEST"].
Proof. vm_compute. reflexivity. Qed.

Example doc_StopFilter :
  texts (__or__ (Single (RegexTokenizer default_pattern false))
           (Composable (Single (StopFilter STOP_WORDS 2 None false))))
    "this is a test" no_kwargs
  = Ok ["test"].
Proof. vm_compute. reflexivity. Qed.

Example doc_StandardAnalyzer :
  texts (StandardAnalyzer default_pattern (Some STOP_WORDS) 2 None false)
    "Testing is testing and testing" no_kwargs
  = Ok ["testing"; "testing"; "testing"].
Proof. vm_compute. reflexivity. Qed.

(** ** The pattern engine *)

(** What comes after a match is matched against a suffix of the subject. *)
Lemma exec_reads (r : re.regex) :
  forall (s : string) (k : string -> option string) (x : string),
    re.exec r s k = Some x ->
    exists s', (String.length s' <= String.length s)%nat /\ k s' = Some x.
Proof.
  induction r as [|p|a IHa b IHb|a IHa b IHb|a IHa]; intros s k x Hx; cbn [re.exec] in Hx.
  - by exists s.
  - destruct s as [|c s]; [done|]. destruct (p c); [|done].
    exists s. split; [simpl; lia | done].
  - apply IHa in Hx as (s1 & Hs1 & Hx). apply IHb in Hx as (s2 & Hs2 & Hx).
    exists s2. split; [lia | done].
  - destruct (re.exec a s k) eqn:Ha.
    + injection Hx as ->. by apply IHa in Ha.
    + by apply IHb in Hx.
  - revert Hx. generalize (String.length s) at 1 as n. intros n. revert s.
    induction n as [|n IHn]; intros s Hx.
    + by exists s.
    + match type of Hx with
      | match ?e with _ => _ end = _ => destruct e eqn:Hround
      end.
      * injection Hx as ->. apply IHa in Hround as (s1 & Hs1 & Hround).
        destruct (String.length s1 <? String.length s)%nat; [|done].
        apply IHn in Hround as (s2 & Hs2 & Hround).
        exists s2. split; [lia | done].
      * by exists s.
Qed.

Lemma match_here_reads (r : re.regex) (must_advance : bool) (s rest : string) :
  re.match_here r must_advance s = Some rest ->
  (String.length rest <= String.length s)%nat
  /\ (must_advance = true -> (String.length rest < String.length s)%nat).
Proof.
  unfold re.match_here. intros H.
  apply exec_reads in H as (s' & Hs' & H).
  destruct must_advance; simpl in H.
  - destruct (String.length s' =? String.length s)%nat eqn:Heq; [done|].
    injection H as <-. apply Nat.eqb_neq in Heq. split; [lia|]. intros _. lia.
  - injection H as <-. split; [lia | done].
Qed.

(** The scan stops by itself before its fuel is used up: more fuel gives
    the same matches. *)
Lemma scan_enough_fuel (r : re.regex) (fuel : nat) :
  forall (at_ : nat) (must_advance : bool) (s : string),
    (2 * String.length s + (if must_advance then 1 else 2) <= fuel)%nat ->
    re.scan r (S fuel) at_ must_advance s = re.scan r fuel at_ must_advance s.
Proof.
  induction fuel as [|fuel IH]; intros at_ must_advance s Hfuel.
  - destruct must_advance; lia.
  - change (re.scan r (S (S fuel)) at_ must_advance s)
      with (match re.match_here r must_advance s with
            | Some rest =>
                let e := (at_ + (String.length s - String.length rest))%nat in
                {| re.m_start := at_; re.m_end := e |}
                  :: re.scan r (S fuel) e (e =? at_)%nat rest
            | None =>
                match s with
                | EmptyString => []
                | String _ s' => re.scan r (S fuel) (S at_) false s'
                end
            end).
    cbn [re.scan].
    destruct (re.match_here r must_advance s) as [rest|] eqn:Hmatch.
    + apply match_here_reads in Hmatch as [Hle Hlt].
      cbv zeta. f_equal. apply IH.
      destruct (at_ + (String.length s - String.length rest) =? at_)%nat eqn:He.
      * apply Nat.eqb_eq in He. destruct must_advance; [specialize (Hlt eq_refl)|]; lia.
      * apply Nat.eqb_neq in He. destruct must_advance; lia.
    + destruct s as [|c s']; [done|]. apply IH. simpl in Hfuel.
      destruct must_advance; lia.
Qed.

Lemma finditer_fuel (source : string) (r : re.regex) (value : string) (extra : nat) :
  re.scan r (2 * String.length value + 2 + extra) 0 false value
  = re.finditer (re.compile source r) value.
Proof.
  induction extra as [|extra IH].
  - by rewrite Nat.add_0_r.
  - rewrite <- IH, Nat.add_succ_r. apply scan_enough_fuel. lia.
Qed.

(** ** Composition *)

Lemma collect_from (components : list composable) (acc : list stage) :
  fold_left
    (fun items comp =>
       match comp with
       | CompositeAnalyzer its => items ++ its
       | Single s => items ++ [s]
       end)
    components acc
  = acc ++ concat (map items_of components).
Proof.
  revert acc.
  induction components as [|comp components IH]; intros acc; simpl.
  - by rewrite app_nil_r.
  - rewrite IH. destruct comp; simpl; by rewrite <- app_assoc.
Qed.

Lemma collect_concat (components : list composable) :
  CompositeAnalyzer.collect components = concat (map items_of components).
Proof. unfold CompositeAnalyzer.collect. by rewrite collect_from. Qed.

Lemma or_composable (self other : composable) :
  __or__ self (Composable other)
  = if existsb is_tokenizer (tail (items_of self ++ items_of other))
    then Err CompositionError
    else Ok (CompositeAnalyzer (items_of self ++ items_of other)).
Proof.
  unfold __or__, CompositeAnalyzer.__init__.
  rewrite collect_concat. simpl. by rewrite app_nil_r.
Qed.

Lemma misplaced_tokenizer_tail (items : list stage) :
  existsb is_tokenizer (tail items) = true <-> misplaced_tokenizer items.
Proof.
  rewrite existsb_exists. split.
  - intros (s & Hin & Hs).
    apply list_elem_of_In, list_elem_of_lookup in Hin as [i Hi].
    exists (S i), s. split; [lia|]. split; [|done].
    destruct items; simpl in *; [by rewrite lookup_nil in Hi | done].
  - intros (i & s & Hpos & Hi & Hs).
    exists s. split; [|done].
    destruct i as [|i]; [lia|].
    destruct items as [|x items]; [done|]. simpl in *.
    apply list_elem_of_In, list_elem_of_lookup. eauto.
Qed.

Lemma existsb_tail_app (xs ys : list stage) :
  existsb is_tokenizer (tail xs) = true ->
  existsb is_tokenizer (tail (xs ++ ys)) = true.
Proof.
  destruct xs as [|x xs]; [done|]. simpl.
  rewrite existsb_app. intros ->. done.
Qed.

Lemma existsb_tail_app_r (xs ys : list stage) :
  existsb is_tokenizer (tail ys) = true ->
  existsb is_tokenizer (tail (xs ++ ys)) = true.
Proof.
  destruct ys as [|y ys]; [done|]. simpl. intros Hys.
  destruct xs as [|x xs]; simpl; [done|].
  rewrite existsb_app. simpl. rewrite Hys.
  by rewrite !orb_true_r.
Qed.

Lemma or_left_flat (X Y Z : composable) :
  or_left X Y Z
  = if existsb is_tokenizer (tail (items_of X ++ items_of Y ++ items_of Z))
    then Err CompositionError
    else Ok (CompositeAnalyzer (items_of X ++ items_of Y ++ items_of Z)).
Proof.
  unfold or_left. rewrite or_composable.
  destruct (existsb is_tokenizer (tail (items_of X ++ items_of Y))) eqn:HXY;
    cbn [bind].
  - apply (existsb_tail_app _ (items_of Z)) in HXY.
    rewrite <- app_assoc in HXY. by rewrite HXY.
  - rewrite or_composable. cbn [items_of]. by rewrite <- app_assoc.
Qed.

Lemma or_right_flat (X Y Z : composable) :
  or_right X Y Z
  = if existsb is_tokenizer (tail (items_of X ++ items_of Y ++ items_of Z))
    then Err CompositionError
    else Ok (CompositeAnalyzer (items_of X ++ items_of Y ++ items_of Z)).
Proof.
  unfold or_right. rewrite or_composable.
  destruct (existsb is_tokenizer (tail (items_of Y ++ items_of Z))) eqn:HYZ;
    cbn [bind].
  - apply (existsb_tail_app_r (items_of X)) in HYZ. by rewrite HYZ.
  - by rewrite or_composable.
Qed.

(** Composition is associative on all composable objects, pipelines
    included, and splices the items of its operands. *)
Lemma or_assoc (X Y Z : composable) : or_left X Y Z = or_right X Y Z.
Proof. by rewrite or_left_flat, or_right_flat. Qed.

(** C1, as the code has it: [self | other] raises [TypeError] exactly when
    [other] is not a [Composable], raises [CompositionError] exactly when
    [other] is one and the spliced item list has a tokenizer at a position
    other than 0, and in every other case returns the composite of the
    spliced item list. *)
Theorem or_outcome (self : composable) (other : object) :
  (__or__ self other = Err TypeError <-> other = Opaque)
  /\ (__or__ self other = Err CompositionError
      <-> exists o, other = Composable o
                    /\ misplaced_tokenizer (items_of self ++ items_of o))
  /\ ((exists p, __or__ self other = Ok p)
      <-> exists o, other = Composable o
                    /\ ~ misplaced_tokenizer (items_of self ++ items_of o))
  /\ (forall p, __or__ self other = Ok p ->
      exists o, other = Composable o
                /\ p = CompositeAnalyzer (items_of self ++ items_of o)).
Proof.
  destruct other as [o|].
  - rewrite or_composable.
    pose proof (misplaced_tokenizer_tail (items_of self ++ items_of o)) as Hm.
    destruct (existsb is_tokenizer (tail (items_of self ++ items_of o))).
    + assert (misplaced_tokenizer (items_of self ++ items_of o)) as Hyes
        by by apply Hm.
      repeat split; try done.
      * intros _. by exists o.
      * intros [p Hp]. done.
      * intros (o' & Ho' & Hno). injection Ho' as <-. done.
    + assert (~ misplaced_tokenizer (items_of self ++ items_of o)) as Hno.
      { intros Hyes. apply Hm in Hyes. done. }
      repeat split; try done.
      * intros (o' & Ho' & Hyes). injection Ho' as <-. done.
      * intros _. by exists o.
      * eauto.
      * intros p [= <-]. by exists o.
  - simpl. repeat split; try done.
    + intros (o & Ho & _). done.
    + intros [p Hp]. done.
    + intros (o & Ho & _). done.
Qed.

(** C1, counterexample: a tokenizer composed with something that is not a
    [Composable] raises [TypeError], not [CompositionError]. *)
Lemma or_opaque_is_type_error :
  __or__ (Single (RegexTokenizer default_pattern false)) Opaque = Err TypeError
  /\ __or__ (Single (RegexTokenizer default_pattern false)) Opaque
     <> Err CompositionError.
Proof. split; [reflexivity | discriminate]. Qed.

(** C2, as the code has it: for stages [A], [B], [C] the compositions
    [(A | B) | C] (which is also what [A | B | C] means) and [A | (B | C)]
    have the same outcome;
    it is the pipeline whose item list is the flat sequence [A; B; C],
    unless [B] or [C] is a tokenizer, which no pipeline admits after its
    first stage and which makes both raise [CompositionError]. *)
Theorem or_assoc_flat (A B C : stage) :
  or_left (Single A) (Single B) (Single C)
  = or_right (Single A) (Single B) (Single C)
  /\ or_left (Single A) (Single B) (Single C)
     = if is_tokenizer B || is_tokenizer C
       then Err CompositionError
       else Ok (CompositeAnalyzer [A; B; C]).
Proof.
  split; [apply or_assoc|].
  rewrite or_left_flat. simpl. by rewrite orb_false_r.
Qed.

(** C2, counterexample: for three tokenizers neither grouping produces the
    pipeline [A; B; C]; both raise [CompositionError]. *)
Lemma or_assoc_tokenizers_raise :
  or_left (Single IDTokenizer) (Single IDTokenizer) (Single IDTokenizer)
  = Err CompositionError
  /\ or_right (Single IDTokenizer) (Single IDTokenizer) (Single IDTokenizer)
     = Err CompositionError
  /\ or_left (Single IDTokenizer) (Single IDTokenizer) (Single IDTokenizer)
     <> Ok (CompositeAnalyzer [IDTokenizer; IDTokenizer; IDTokenizer]).
Proof. split; [reflexivity | split; [reflexivity | discriminate]]. Qed.

(** ** Generators *)

Lemma next_for_in {S : Type} (body : S -> Token -> S * Token * bool)
    (s : S) (tokens : iter) (w : world) :
  next (for_in body s tokens) w
  = match next tokens w with
    | Raise e => Raise e
    | Done w' => Done w'
    | Yield r tokens' w' =>
        match heap w' !! r with
        | None => Raise DanglingReference
        | Some t =>
            let '(s', t', yielded) := body s t in
            let w'' := update (fun _ => t') r w' in
            if yielded then Yield r (for_in body s' tokens') w''
            else next (for_in body s' tokens') w''
        end
    end.
Proof. by destruct tokens. Qed.

Lemma next_logging (logger : string) (tokens : iter) (w : world) :
  next (LoggingFilter.__call__ logger tokens) w
  = match next tokens w with
    | Raise e => Raise e
    | Done w' => Done w'
    | Yield r tokens' w' =>
        match heap w' !! r with
        | None => Raise DanglingReference
        | Some t =>
            Yield r (LoggingFilter.__call__ logger tokens')
              (LoggingFilter.debug logger t w')
        end
    end.
Proof. by destruct tokens. Qed.

Lemma next_chain_cons (r : ref) (first : list ref) (tokens : iter) (w : world) :
  next (chain (r :: first) tokens) w = Yield r (chain first tokens) w.
Proof. done. Qed.

Lemma next_chain_nil (tokens : iter) (w : world) :
  next (chain [] tokens) w = next tokens w.
Proof. done. Qed.

Lemma drain_unfold (it : iter) (w : world) :
  drain it w
  = match next it w with
    | Raise e => Err e
    | Done w' => Ok ([], w')
    | Yield r it' w' =>
        match heap w' !! r with
        | None => Err DanglingReference
        | Some t =>
            match drain it' w' with
            | Ok (ts, w'') => Ok (t :: ts, w'')
            | Err e => Err e
            end
        end
    end.
Proof. by destruct it. Qed.


Lemma update_lookup (f : Token -> Token) (t : Token) (r : ref) (w : world) :
  heap w !! r = Some t -> heap (update f r w) !! r = Some (f t).
Proof.
  intros Hr. unfold update. simpl.
  rewrite list_lookup_alter_eq. by rewrite Hr.
Qed.

Lemma update_const_lookup (t t' : Token) (r : ref) (w : world) :
  heap w !! r = Some t -> heap (update (fun _ => t') r w) !! r = Some t'.
Proof. apply (update_lookup (fun _ => t')). Qed.

Lemma alike_refl (o : outcome) : alike o o.
Proof. destruct o; constructor. by intros w'. Qed.

Create HintDb streams.
#[local] Hint Constructors alike : streams.
#[local] Hint Resolve alike_refl : streams.

(** The first answers of two streams, compared. *)
Ltac compare_first H :=
  let r := fresh "r" in
  let w := fresh "w" in
  let Hrest := fresh "Hrest" in
  inversion H as [r ? ? w Hrest| |]; auto with streams;
  destruct (heap w !! r); auto with streams.

Section Loops.

Context {S : Type} (body : S -> Token -> S * Token * bool).

Lemma same_next_for_in (s : S) (a b : iter) :
  same_next a b -> same_next (for_in body s a) (for_in body s b).
Proof. intros Hab w. by rewrite !next_for_in, Hab. Qed.

Lemma alike_for_in (s : S) (a b : iter) (wa wb : world) :
  alike (next a wa) (next b wb) ->
  alike (next (for_in body s a) wa) (next (for_in body s b) wb).
Proof.
  intros Hab. rewrite !next_for_in.
  inversion Hab as [r a' b' w Hrest| |]; auto with streams.
  destruct (heap w !! r) as [t|]; auto with streams.
  destruct (body s t) as [[s' t'] yielded]. simpl.
  destruct yielded.
  - constructor. by apply same_next_for_in.
  - rewrite (same_next_for_in s' a' b' Hrest). apply alike_refl.
Qed.

End Loops.

Lemma same_next_logging (logger : string) (a b : iter) :
  same_next a b ->
  same_next (LoggingFilter.__call__ logger a) (LoggingFilter.__call__ logger b).
Proof. intros Hab w. by rewrite !next_logging, Hab. Qed.

Lemma alike_logging (logger : string) (a b : iter) (wa wb : world) :
  alike (next a wa) (next b wb) ->
  alike (next (LoggingFilter.__call__ logger a) wa)
        (next (LoggingFilter.__call__ logger b) wb).
Proof.
  intros Hab. rewrite !next_logging.
  compare_first Hab. constructor. by apply same_next_logging.
Qed.

Lemma drain_same_next (a b : iter) (w : world) :
  same_next a b -> drain a w = drain b w.
Proof. intros Hab. by rewrite (drain_unfold a), (drain_unfold b), Hab. Qed.

Lemma drain_alike (a b : iter) (wa wb : world) :
  alike (next a wa) (next b wb) -> drain a wa = drain b wb.
Proof.
  intros Hab. rewrite (drain_unfold a), (drain_unfold b).
  inversion Hab as [r a' b' w Hrest| |]; try done.
  destruct (heap w !! r); [|done].
  by rewrite (drain_same_next a' b' w Hrest).
Qed.

(** Induction on stages that reaches the filters held by a [MultiFilter]. *)
Lemma stage_nested_ind (P : stage -> Prop) :
  (forall s, (forall fs, s <> MultiFilter fs) -> P s) ->
  (forall fs, Forall (fun kf => P (snd kf)) fs -> P (MultiFilter fs)) ->
  forall s, P s.
Proof.
  intros Hflat Hmulti. fix IH 1.
  intros [ | | | | | |fs| | | | | ]; try (apply Hflat; discriminate).
  apply Hmulti.
  exact ((fix each (l : list (string * stage)) : Forall (fun kf => P (snd kf)) l :=
            match l with
            | [] => List.Forall_nil _
            | kf :: l' => List.Forall_cons _ kf l' (IH (snd kf)) (each l')
            end) fs).
Qed.

(** The call of a [MultiFilter], with the lookup written as [get]. *)
Lemma call_MultiFilter (filters : list (string * stage)) (tokens : iter) (w : world) :
  call (MultiFilter filters) tokens w
  = match next tokens w with
    | Raise e => Err e
    | Done _ => Err StopIteration
    | Yield r tokens' w' =>
        match heap w' !! r with
        | None => Err DanglingReference
        | Some t =>
            call (get filters (Token.mode t) MultiFilter.default_filter)
              (chain [r] tokens') w'
        end
    end.
Proof.
  simpl. destruct (next tokens w) as [r tokens' w'| |]; try done.
  destruct (heap w' !! r) as [t|]; [|done].
  induction filters as [|[key f] filters IH]; simpl; [done|].
  by destruct (String.eqb key (Token.mode t)).
Qed.

(** A filter called on two streams whose first answers are alike gives the
    consumer the same tokens and leaves the same store. *)
Lemma observe_call_alike (f : stage) :
  forall (a b : iter) (wa wb : world),
    alike (next a wa) (next b wb) ->
    observe (call f a wa) = observe (call f b wb).
Proof.
  induction f as [f Hflat | fs IH] using stage_nested_ind; intros a b wa wb Hab.
  - destruct f; simpl; try done.
    + by apply drain_alike.
    + by apply drain_alike, alike_logging.
    + by elim (Hflat filters).
    + by apply drain_alike, alike_for_in.
    + by apply drain_alike, alike_for_in.
    + by apply drain_alike, alike_for_in.
    + by apply drain_alike, alike_for_in.
    + by apply drain_alike, alike_for_in.
  - rewrite !call_MultiFilter.
    inversion Hab as [r a' b' w Hrest| |]; try done.
    destruct (heap w !! r) as [t|]; [|done].
    assert (alike (next (chain [r] a') w) (next (chain [r] b') w)) as Hchain.
    { rewrite !next_chain_cons. constructor. intros w0.
      by rewrite !next_chain_nil. }
    induction fs as [|[key g] fs IHfs]; cbn [get].
    + exact (drain_alike _ _ _ _ Hchain).
    + inversion IH as [|kf l Hg Hfs]; subst.
      destruct (String.eqb key (Token.mode t)); [by apply Hg | by apply IHfs].
Qed.

(** ** MultiFilter *)

(** C3: when the incoming stream is not empty, [MultiFilter.__call__] takes
    exactly its first token [t] (the stream left is [tokens'], the store is
    the one that step produced), selects [filters.get(t.mode, PassFilter())]
    and is the call of that filter on [chain([t], tokens')]; a consumer of
    the result reads the same tokens, and leaves the same store, as one of
    the selected filter called on the whole original stream.  Only the first
    token's mode is looked at, so this holds in particular when all tokens
    of the stream carry that mode. *)
Theorem multifilter_dispatch (filters : list (string * stage)) (tokens : iter)
    (w : world) (r : ref) (tokens' : iter) (w' : world) (t : Token) :
  next tokens w = Yield r tokens' w' ->
  heap w' !! r = Some t ->
  let selected := get filters (Token.mode t) MultiFilter.default_filter in
  MultiFilter.__call__ filters tokens w = call selected (chain [r] tokens') w'
  /\ observe (MultiFilter.__call__ filters tokens w)
     = observe (call selected tokens w).
Proof.
  intros Hnext Ht selected.
  assert (MultiFilter.__call__ filters tokens w
          = call selected (chain [r] tokens') w') as Hcall.
  { unfold MultiFilter.__call__. rewrite call_MultiFilter, Hnext, Ht. done. }
  split; [done|].
  rewrite Hcall. apply observe_call_alike.
  rewrite next_chain_cons, Hnext. constructor.
  intros w0. by rewrite next_chain_nil.
Qed.

Lemma multifilter_dispatch_witness :
  observe (MultiFilter.__call__ [("a", LowercaseFilter); ("b", PassFilter)]
             (RegexTokenizer.__call__ non_space false "ALFA BRAVO CHARLIE"
                (mode_kwargs "a"))
             empty_world)
  = observe (call LowercaseFilter
               (RegexTokenizer.__call__ non_space false "ALFA BRAVO CHARLIE"
                  (mode_kwargs "a"))
               empty_world).
Proof.
  refine (proj2 (multifilter_dispatch
                   [("a", LowercaseFilter); ("b", PassFilter)]
                   (RegexTokenizer.__call__ non_space false "ALFA BRAVO CHARLIE"
                      (mode_kwargs "a"))
                   empty_world _ _ _ _ eq_refl eq_refl)).
Defined.

Lemma drain_nil (it : iter) (w w1 : world) :
  drain it w = Ok ([], w1) <-> next it w = Done w1.
Proof.
  rewrite drain_unfold.
  destruct (next it w) as [r it' w'|w'|e]; [|split; congruence..].
  destruct (heap w' !! r); [|done].
  by destruct (drain it' w') as [[ts w'']|].
Qed.

(** Called on an exhausted stream, a filter that is a generator function
    returns an exhausted stream and leaves the store alone; a
    [MultiFilter] raises [StopIteration]. *)
Lemma call_exhausted (item : stage) (gen : iter) (w w1 : world) :
  is_tokenizer item = false ->
  next gen w = Done w1 ->
  match item with
  | MultiFilter _ => call item gen w = Err StopIteration
  | _ => exists gen', call item gen w = Ok (gen', w) /\ next gen' w = Done w1
  end.
Proof.
  intros Hitem Hgen.
  destruct item; try discriminate Hitem;
    try (eexists; split; [reflexivity|]);
    rewrite ?call_MultiFilter;
    unfold LowercaseFilter.__call__, StripFilter.__call__, StopFilter.__call__,
      CharsetFilter.__call__, StemFilter.__call__, PassFilter.__call__;
    rewrite ?next_for_in, ?next_logging, Hgen; done.
Qed.

(** A stream that is exhausted stays so behind the filters of a chain, up
    to the first [MultiFilter], whose call raises. *)
Lemma run_filters_exhausted (no_morph : bool) (w w1 : world) (rest : list stage) :
  forall gen : iter,
    next gen w = Done w1 ->
    existsb is_tokenizer rest = false ->
    (exists filters, In (MultiFilter filters) rest) ->
    CompositeAnalyzer.run_filters no_morph rest gen w = Err StopIteration.
Proof.
  induction rest as [|item rest IH]; intros gen Hgen Hfilters [fs Hin].
  - destruct Hin.
  - simpl in Hfilters. apply orb_false_elim in Hfilters as [Hitem Hrest].
    cbn [CompositeAnalyzer.run_filters].
    destruct (no_morph && CompositeAnalyzer.is_morph item) eqn:Hskip; cbn [negb].
    + apply IH; [done..|]. exists fs.
      destruct Hin as [->|Hin]; [|done].
      by rewrite andb_false_r in Hskip.
    + pose proof (call_exhausted item gen w w1 Hitem Hgen) as Hcall.
      destruct item;
        try (destruct Hcall as (gen' & -> & Hgen'); cbn [bind];
             apply IH; [done..|]; exists fs;
             destruct Hin as [Hin|Hin]; [discriminate Hin | exact Hin]).
      by rewrite Hcall.
Qed.

(** C10: a pipeline (a tokenizer, then filters only) that holds a
    [MultiFilter], called on an input its tokenizer turns into zero tokens,
    raises [StopIteration] from the call itself instead of returning a
    stream. *)
Theorem multifilter_empty_stream (first : stage) (rest : list stage)
    (value : string) (no_morph : bool) (kw : kwargs) (w w1 : world) (gen : iter) :
  tokenize first value kw = Some gen ->
  drain gen w = Ok ([], w1) ->
  existsb is_tokenizer rest = false ->
  (exists filters, In (MultiFilter filters) rest) ->
  CompositeAnalyzer.__call__ (first :: rest) value no_morph kw w
  = Err StopIteration.
Proof.
  intros Htok Hempty Hfilters Hmulti.
  unfold CompositeAnalyzer.__call__. rewrite Htok.
  apply drain_nil in Hempty.
  by apply (run_filters_exhausted no_morph w w1).
Qed.

Lemma multifilter_empty_stream_witness :
  CompositeAnalyzer.__call__
    [RegexTokenizer non_space false; LowercaseFilter;
     MultiFilter [("a", LowercaseFilter); ("b", PassFilter)]]
    "   " false (mode_kwargs "a") empty_world
  = Err StopIteration.
Proof.
  refine (multifilter_empty_stream
            (RegexTokenizer non_space false)
            [LowercaseFilter; MultiFilter [("a", LowercaseFilter); ("b", PassFilter)]]
            "   " false (mode_kwargs "a") empty_world _ _
            eq_refl eq_refl eq_refl _).
  exists [("a", LowercaseFilter); ("b", PassFilter)].
  right. left. reflexivity.
Defined.

(** ** StopFilter *)





(** ** Tokenizers *)

Lemma drain_resume (steps : list (Token -> Token)) :
  forall (r : ref) (t : Token) (w : world),
    heap w !! r = Some t ->
    drain (resume r steps None) w
    = Ok (snapshots t steps, after_rounds r steps w).
Proof.
  induction steps as [|f steps IH]; intros r t w Hr; [done|].
  rewrite drain_unfold. cbn [resume next].
  rewrite (update_lookup f t r w Hr).
  by rewrite (IH r (f t) (update f r w) (update_lookup f t r w Hr)).
Qed.

Lemma drain_generator (t : Token) (steps : list (Token -> Token)) (w : world) :
  drain (generator t steps None) w
  = Ok (snapshots t steps,
        after_rounds (List.length (heap w)) steps
          (World (heap w ++ [t]) (log w))).
Proof.
  assert (heap (World (heap w ++ [t]) (log w)) !! List.length (heap w) = Some t)
    as Hfresh.
  { simpl. rewrite lookup_app_r by done. by rewrite Nat.sub_diag. }
  rewrite <- (drain_resume steps _ t _ Hfresh).
  rewrite (drain_unfold (generator _ _ _)), (drain_unfold (resume _ _ _)).
  done.
Qed.

(** With [gaps=False] and [chars=True] every token leaves the regex
    tokenizer with [start_char] holding the END of its match, and with
    [end_char] never assigned, whatever the pattern and the input. *)
Lemma regex_tokenizer_offsets (expression : re.Pattern) (value : string)
    (kw : kwargs) (w : world) :
  kw_tokenize kw = true ->
  kw_chars kw = true ->
  exists ts w',
    drain (RegexTokenizer.__call__ expression false value kw) w = Ok (ts, w')
    /\ map (fun t => (Token.start_char t, Token.end_char t)) ts
       = map (fun m => (kw_start_char kw + re.end_ m, 0))
           (re.finditer expression value).
Proof.
  intros Htok Hchars. unfold RegexTokenizer.__call__.
  rewrite Htok. cbn [negb]. rewrite drain_generator.
  eexists _, _. split; [reflexivity|].
  assert (forall n m t, Token.end_char t = 0 ->
            Token.start_char (RegexTokenizer.on_match value kw n m t)
            = kw_start_char kw + re.end_ m
            /\ Token.end_char (RegexTokenizer.on_match value kw n m t) = 0)
    as Hround.
  { intros n m t Hend. unfold RegexTokenizer.on_match, when. rewrite Hchars.
    by destruct (kw_keep_original kw), (kw_positions kw). }
  assert (Token.end_char (new_token kw) = 0) as Hend by done.
  revert Hend Hround. generalize (new_token kw) as t.
  generalize (RegexTokenizer.on_match value kw) as round.
  generalize (re.finditer expression value) as ms.
  induction ms as [|m ms IH]; intros round t Hend Hround; [done|].
  rewrite imap_cons. cbn [snapshots map].
  destruct (Hround 0%nat m t Hend) as [Hstart Hend'].
  rewrite Hstart, Hend'. f_equal.
  apply IH; [done|]. intros n m' t' Ht'. apply Hround, Ht'.
Qed.

(** C5, the code at a failing input: on ["hello world"] with [chars=True]
    and [start_char=0] the matches are at 0..5 and 6..11, and the tokens
    come out with [start_char] 5 and 11 and [end_char] 0. *)
Theorem regex_tokenizer_offsets_hello_world :
  bind (emitted (RegexTokenizer.__call__ default_pattern false "hello world"
                   chars_kwargs))
    (fun ts => Ok (map offsets ts))
  = Ok [("hello", 5, 0); ("world", 11, 0)]
  /\ re.finditer default_pattern "hello world"
     = [{| re.m_start := 0; re.m_end := 5 |}; {| re.m_start := 6; re.m_end := 11 |}].
Proof. split; reflexivity. Qed.

Lemma slice_empty (i j : Z) : slice "" i j = "".
Proof. unfold slice. by destruct (Z.to_nat _), (Z.to_nat _). Qed.

Lemma split_empty (kw : kwargs) (matches : list re.Match) :
  forall prevend pos : Z,
    0 <= prevend -> RegexTokenizer.split "" kw matches prevend pos = [].
Proof.
  induction matches as [|m matches IH]; intros prevend pos Hprevend; simpl.
  - destruct (prevend <? len "") eqn:Hlt; [|done].
    apply Z.ltb_lt in Hlt. unfold len in Hlt. simpl in Hlt. lia.
  - rewrite slice_empty. simpl. apply IH. unfold re.end_. lia.
Qed.

(** C6, counterexample: the ID tokenizer yields one token on the empty
    string, with the empty string as its text. *)
Lemma id_tokenizer_empty_input :
  bind (emitted (IDTokenizer.__call__ "" no_kwargs))
    (fun ts => Ok (map Token.text ts)) = Ok [""]
  /\ emitted (IDTokenizer.__call__ "" no_kwargs) <> Ok [].
Proof. split; [reflexivity | discriminate]. Qed.

(** A regex tokenizer whose pattern matches the empty string yields a
    token for that match. *)
Example regex_tokenizer_empty_match :
  texts (Ok (Single (RegexTokenizer any_as false))) "" no_kwargs = Ok [""].
Proof. vm_compute. reflexivity. Qed.

(** C7, the code at a failing input: with [A -> a], [B -> b] and the space
    a break, the run [BA] at the end of ["AB BA"] comes out untranslated,
    while the same run followed by a break is translated. *)
Theorem charset_tokenizer_last_run :
  bind (emitted (CharsetTokenizer.__call__ folding "AB BA" no_kwargs))
    (fun ts => Ok (map Token.text ts)) = Ok ["ab"; "BA"]
  /\ bind (emitted (CharsetTokenizer.__call__ folding "AB BA " no_kwargs))
       (fun ts => Ok (map Token.text ts)) = Ok ["ab"; "ba"].
Proof. split; vm_compute; reflexivity. Qed.

(** C8, the code at a failing input: two pipelines that differ only in the
    [maxsize] of their [StopFilter], or only in the [gaps] flag of their
    [RegexTokenizer], are different pipelines (the second pair even gives
    different tokens) and compare equal. *)
Theorem eq_misses_configuration :
  let short := [RegexTokenizer default_pattern false; StopFilter STOP_WORDS 2 (Some 5) false] in
  let long := [RegexTokenizer default_pattern false; StopFilter STOP_WORDS 2 (Some 10) false] in
  let words := [RegexTokenizer default_pattern false; LowercaseFilter] in
  let between := [RegexTokenizer default_pattern true; LowercaseFilter] in
  __or__ (Single (RegexTokenizer default_pattern false))
    (Composable (Single (StopFilter STOP_WORDS 2 (Some 5) false)))
  = Ok (CompositeAnalyzer short)
  /\ __or__ (Single (RegexTokenizer default_pattern false))
       (Composable (Single (StopFilter STOP_WORDS 2 (Some 10) false)))
     = Ok (CompositeAnalyzer long)
  /\ short <> long
  /\ CompositeAnalyzer.__eq__ short long = true
  /\ SimpleAnalyzer default_pattern false = Ok (CompositeAnalyzer words)
  /\ SimpleAnalyzer default_pattern true = Ok (CompositeAnalyzer between)
  /\ words <> between
  /\ texts (Ok (CompositeAnalyzer words)) "to be" no_kwargs = Ok ["to"; "be"]
  /\ texts (Ok (CompositeAnalyzer between)) "to be" no_kwargs = Ok [" "]
  /\ CompositeAnalyzer.__eq__ words between = true.
Proof.
  repeat split; try (vm_compute; reflexivity); intros H; congruence.
Qed.

(** ** Presets *)

(** C9, as the code has it: [SimpleAnalyzer()] on
    ["Hello there, this is a TEST"] yields the texts [hello], [there],
    [this], [is], [a], [test]: the comma is not part of a match of
    the default pattern. *)
Theorem simple_analyzer_hello :
  texts (SimpleAnalyzer default_pattern false) "Hello there, this is a TEST"
    no_kwargs
  = Ok ["hello"; "there"; "this"; "is"; "a"; "test"].
Proof. vm_compute. reflexivity. Qed.

(** C9, counterexample: the second text is not ["there,"]. *)
Lemma simple_analyzer_hello_no_comma :
  texts (SimpleAnalyzer default_pattern false) "Hello there, this is a TEST"
    no_kwargs
  <> Ok ["hello"; "there,"; "this"; "is"; "a"; "test"].
Proof. vm_compute. discriminate. Qed.

(** * Further properties *)

(** ** Streams *)

(** Induction on a stream: a property holds of a generator when it holds
    of whatever the generator can leave after one item. *)
Lemma iter_next_ind (P : iter -> Prop) :
  (forall it : iter,
     (forall w r it' w', next it w = Yield r it' w' -> P it') -> P it) ->
  forall it : iter, P it.
Proof.
  intros Hstep.
  refine (fix IH (it : iter) : P it := _
          with rest_of (o : outcome)
               : forall r it' w', o = Yield r it' w' -> P it' := _
          for IH).
  - destruct it as [n]. apply Hstep. intros w r it' w' Hnext.
    exact (rest_of (n w) r it' w' Hnext).
  - destruct o as [r0 it0 w0| |]; intros r it' w' Heq; [|discriminate..].
    injection Heq as _ <- _. apply IH.
Qed.

Lemma drain_resume_raise (e : exn) (steps : list (Token -> Token)) :
  forall (r : ref) (t : Token) (w : world),
    heap w !! r = Some t ->
    drain (resume r steps (Some e)) w = Err e.
Proof.
  induction steps as [|f steps IH]; intros r t w Hr; [done|].
  rewrite drain_unfold. cbn [resume next].
  rewrite (update_lookup f t r w Hr).
  by rewrite (IH r (f t) (update f r w) (update_lookup f t r w Hr)).
Qed.

Lemma alloc_lookup (t : Token) (w : world) :
  heap (World (heap w ++ [t]) (log w)) !! List.length (heap w) = Some t.
Proof. simpl. rewrite lookup_app_r by done. by rewrite Nat.sub_diag. Qed.

(** A generator whose loop ends in an exception gives its consumer the
    exception, whatever it yielded before. *)
Lemma drain_generator_raise (e : exn) (t : Token) (steps : list (Token -> Token))
    (w : world) :
  drain (generator t steps (Some e)) w = Err e.
Proof.
  rewrite <- (drain_resume_raise e steps _ t _ (alloc_lookup t w)).
  rewrite (drain_unfold (generator _ _ _)), (drain_unfold (resume _ _ _)).
  done.
Qed.

Lemma update_update (f g : Token -> Token) (r : ref) (w : world) :
  update g r (update f r w) = update (g ∘ f) r w.
Proof.
  unfold update. simpl. f_equal. by rewrite list_alter_alter_eq.
Qed.

Section LoopOverGenerator.

Context {S : Type} (body : S -> Token -> S * Token * bool).

Lemma drain_for_in_resume (steps : list (Token -> Token)) :
  forall (s : S) (r : ref) (t : Token) (w : world),
    heap w !! r = Some t ->
    exists w',
      drain (for_in body s (resume r steps None)) w
      = Ok (loop_over body s t steps, w').
Proof.
  induction steps as [|f steps IH]; intros s r t w Hr.
  - exists w. by rewrite drain_unfold, next_for_in.
  - rewrite drain_unfold, next_for_in. cbn [resume next loop_over].
    rewrite (update_lookup f t r w Hr).
    destruct (body s (f t)) as [[s' t'] yielded] eqn:Hbody.
    assert (heap (update (fun _ => t') r (update f r w)) !! r = Some t') as Hr'.
    { apply (update_const_lookup (f t)). by apply update_lookup. }
    destruct (IH s' r t' _ Hr') as [w' Hrest].
    exists w'. destruct yielded; cbn [app].
    + by rewrite Hr', Hrest.
    + rewrite drain_unfold in Hrest. exact Hrest.
Qed.

Lemma drain_for_in_generator (s : S) (t : Token) (steps : list (Token -> Token))
    (w : world) :
  exists w',
    drain (for_in body s (generator t steps None)) w
    = Ok (loop_over body s t steps, w').
Proof.
  destruct (drain_for_in_resume steps s _ t _ (alloc_lookup t w)) as [w' Hw'].
  exists w'. rewrite <- Hw'.
  rewrite (drain_unfold (for_in _ _ (generator _ _ _))),
    (drain_unfold (for_in _ _ (resume _ _ _))), !next_for_in.
  done.
Qed.

End LoopOverGenerator.

(** ** Tokenizers, for every pattern and input *)

(** When every round assigns the same value to an attribute whatever the
    token was before, these values are what the consumer reads. *)
Lemma snapshots_assigned {A : Type} (attr : Token -> A)
    (steps : list (Token -> Token)) (values : list A) :
  Forall2 (fun f v => forall t, attr (f t) = v) steps values ->
  forall t, map attr (snapshots t steps) = values.
Proof.
  induction 1 as [|f v steps values Hf _ IH]; intros t; [done|].
  cbn [snapshots map]. by rewrite Hf, IH.
Qed.

Lemma snapshots_all (P : Token -> Prop) (steps : list (Token -> Token)) :
  Forall (fun f => forall t, P (f t)) steps ->
  forall t, Forall P (snapshots t steps).
Proof.
  induction 1 as [|f steps Hf _ IH]; intros t; constructor; [apply Hf | apply IH].
Qed.

Lemma snapshots_length (t : Token) (steps : list (Token -> Token)) :
  List.length (snapshots t steps) = List.length steps.
Proof. revert t. induction steps as [|f steps IH]; intros t; simpl; [done|]. by rewrite IH. Qed.

Lemma on_match_text (value : string) (kw : kwargs) (pos : nat) (m : re.Match)
    (t : Token) :
  Token.text (RegexTokenizer.on_match value kw pos m t) = re.group0 value m.
Proof.
  unfold RegexTokenizer.on_match, when.
  by destruct (kw_keep_original kw), (kw_positions kw), (kw_chars kw).
Qed.

Lemma on_match_pos (value : string) (kw : kwargs) (pos : nat) (m : re.Match)
    (t : Token) :
  kw_positions kw = true ->
  Token.pos (RegexTokenizer.on_match value kw pos m t)
  = kw_start_pos kw + Z.of_nat pos.
Proof.
  intros Hpos. unfold RegexTokenizer.on_match, when. rewrite Hpos.
  by destruct (kw_keep_original kw), (kw_chars kw).
Qed.

Lemma imap_assigned {A B : Type} (attr : Token -> B)
    (round : nat -> A -> Token -> Token) (value : nat -> A -> B) (xs : list A) :
  (forall i x t, attr (round i x t) = value i x) ->
  Forall2 (fun f v => forall t, attr (f t) = v) (imap round xs) (imap value xs).
Proof.
  revert round value. induction xs as [|x xs IH]; intros round value Hround.
  - constructor.
  - rewrite !imap_cons. constructor; [intros t; apply Hround|].
    apply IH. intros i y t. apply Hround.
Qed.

(** X1: with [gaps=False] the regex tokenizer yields one token per match
    of its pattern, in the order of the matches, each with the matched
    text as its text. *)
Theorem regex_tokenizer_matches (expression : re.Pattern) (value : string)
    (kw : kwargs) (w : world) :
  kw_tokenize kw = true ->
  exists ts w',
    drain (RegexTokenizer.__call__ expression false value kw) w = Ok (ts, w')
    /\ map Token.text ts = map (re.group0 value) (re.finditer expression value).
Proof.
  intros Htok. unfold RegexTokenizer.__call__. rewrite Htok. cbn [negb].
  rewrite drain_generator. eexists _, _. split; [reflexivity|].
  rewrite <- (imap_const (re.group0 value)).
  apply snapshots_assigned, imap_assigned. intros i m t. apply on_match_text.
Qed.

Lemma regex_tokenizer_matches_witness :
  exists ts w',
    drain (RegexTokenizer.__call__ default_pattern false "to be or not" no_kwargs)
      empty_world = Ok (ts, w')
    /\ map Token.text ts = ["to"; "be"; "or"; "not"].
Proof.
  destruct (regex_tokenizer_matches default_pattern "to be or not" no_kwargs
              empty_world eq_refl) as (ts & w' & Hdrain & Htexts).
  exists ts, w'. split; [exact Hdrain | exact Htexts].
Defined.

Lemma truthy_length (s : string) : truthy s = true <-> (0 < String.length s)%nat.
Proof. destruct s; simpl; split; (lia || done). Qed.

Lemma truthy_nonempty (s : string) : truthy s = true <-> s <> "".
Proof. by destruct s. Qed.

Lemma str_drop_length (n : nat) (s : string) :
  String.length (str_drop n s) = (String.length s - n)%nat.
Proof.
  revert s. induction n as [|n IH]; intros [|c s]; simpl; auto.
Qed.

Lemma str_take_length (n : nat) (s : string) :
  String.length (str_take n s) = Nat.min n (String.length s).
Proof.
  revert s. induction n as [|n IH]; intros [|c s]; simpl; auto.
Qed.

Lemma adjust_index_in_range (i n : Z) :
  0 <= i <= n -> adjust_index i n = i.
Proof.
  intros Hi. unfold adjust_index.
  destruct (i <? 0) eqn:Hneg; [apply Z.ltb_lt in Hneg; lia | lia].
Qed.

Lemma slice_length (s : string) (i j : nat) :
  (i <= j <= String.length s)%nat ->
  String.length (slice s (Z.of_nat i) (Z.of_nat j)) = (j - i)%nat.
Proof.
  intros Hij. unfold slice, len.
  rewrite !adjust_index_in_range by lia.
  rewrite str_take_length, str_drop_length. lia.
Qed.

Lemma slice_from_length (s : string) (i : nat) :
  (i <= String.length s)%nat ->
  String.length (slice_from s (Z.of_nat i)) = (String.length s - i)%nat.
Proof.
  intros Hi. unfold slice_from, len.
  rewrite adjust_index_in_range by lia.
  rewrite str_drop_length. lia.
Qed.

Lemma on_gap_text (kw : kwargs) (text : string) (pos start end_ : Z) (t : Token) :
  Token.text (RegexTokenizer.on_gap kw text pos start end_ t) = text.
Proof.
  unfold RegexTokenizer.on_gap, when.
  by destruct (kw_keep_original kw), (kw_positions kw), (kw_chars kw).
Qed.

Lemma on_tail_text (value : string) (kw : kwargs) (pos prevend : Z) (t : Token) :
  Token.text (RegexTokenizer.on_tail value kw pos prevend t)
  = slice_from value prevend.
Proof.
  unfold RegexTokenizer.on_tail, when.
  by destruct (kw_keep_original kw), (kw_positions kw), (kw_chars kw).
Qed.

Lemma on_gap_pos (kw : kwargs) (text : string) (pos start end_ : Z) (t : Token) :
  kw_positions kw = true ->
  Token.pos (RegexTokenizer.on_gap kw text pos start end_ t) = pos.
Proof.
  intros Hpos. unfold RegexTokenizer.on_gap, when. rewrite Hpos.
  by destruct (kw_keep_original kw), (kw_chars kw).
Qed.

Lemma on_tail_pos (value : string) (kw : kwargs) (pos prevend : Z) (t : Token) :
  kw_positions kw = true ->
  Token.pos (RegexTokenizer.on_tail value kw pos prevend t) = pos.
Proof.
  intros Hpos. unfold RegexTokenizer.on_tail, when. rewrite Hpos.
  by destruct (kw_keep_original kw), (kw_chars kw).
Qed.

(** Every round of the splitting loop assigns a text that is not empty. *)
Lemma split_nonempty (value : string) (kw : kwargs) (matches : list re.Match) :
  forall (prevend : nat) (pos : Z),
    Forall (fun f => forall t, Token.text (f t) <> "")
      (RegexTokenizer.split value kw matches (Z.of_nat prevend) pos).
Proof.
  induction matches as [|m matches IH]; intros prevend pos;
    cbn [RegexTokenizer.split].
  - destruct (Z.of_nat prevend <? len value) eqn:Hlt; constructor; [|constructor].
    intros t. rewrite on_tail_text. apply truthy_nonempty, truthy_length.
    apply Z.ltb_lt in Hlt. unfold len in Hlt.
    rewrite slice_from_length; lia.
  - destruct (truthy (slice value (Z.of_nat prevend) (re.start m))) eqn:Htext.
    + constructor; [|apply (IH (re.m_end m))].
      intros t. rewrite on_gap_text. by apply truthy_nonempty.
    + apply (IH (re.m_end m)).
Qed.

(** X2: with [gaps=True] the regex tokenizer never yields a token whose
    text is empty, whatever the pattern matches: empty stretches between
    separators, and an empty remainder, are skipped. *)
Theorem regex_tokenizer_gaps_nonempty (expression : re.Pattern) (value : string)
    (kw : kwargs) (w : world) :
  kw_tokenize kw = true ->
  exists ts w',
    drain (RegexTokenizer.__call__ expression true value kw) w = Ok (ts, w')
    /\ Forall (fun t => Token.text t <> "") ts.
Proof.
  intros Htok. unfold RegexTokenizer.__call__. rewrite Htok. cbn [negb].
  rewrite drain_generator. eexists _, _. split; [reflexivity|].
  apply snapshots_all. apply (split_nonempty value kw _ 0).
Qed.

Lemma regex_tokenizer_gaps_nonempty_witness :
  exists ts w',
    drain (RegexTokenizer.__call__ non_space true "  to   be " no_kwargs)
      empty_world = Ok (ts, w')
    /\ Forall (fun t => Token.text t <> "") ts.
Proof.
  exact (regex_tokenizer_gaps_nonempty non_space "  to   be " no_kwargs
           empty_world eq_refl).
Defined.

Lemma split_positions (value : string) (kw : kwargs) (matches : list re.Match) :
  kw_positions kw = true ->
  forall (prevend pos : Z) (t : Token),
    map Token.pos (snapshots t (RegexTokenizer.split value kw matches prevend pos))
    = map (fun i => pos + Z.of_nat i)
        (seq 0 (List.length (RegexTokenizer.split value kw matches prevend pos))).
Proof.
  intros Hpos.
  induction matches as [|m matches IH]; intros prevend pos t;
    cbn [RegexTokenizer.split].
  - destruct (prevend <? len value); [|done].
    cbn. rewrite on_tail_pos by done. f_equal. lia.
  - destruct (truthy (slice value prevend (re.start m))); [|apply IH].
    rewrite Hpos. cbn [snapshots map List.length seq].
    rewrite on_gap_pos by done. f_equal; [lia|].
    rewrite IH, <- seq_shift, map_map.
    apply map_ext. intros i. lia.
Qed.

(** X3: with [positions=True] the regex tokenizer numbers the tokens it
    yields [start_pos], [start_pos + 1], ... without a gap, also when it
    splits on its pattern and skips empty stretches. *)
Theorem regex_tokenizer_positions (expression : re.Pattern) (gaps : bool)
    (value : string) (kw : kwargs) (w : world) :
  kw_tokenize kw = true ->
  kw_positions kw = true ->
  exists ts w',
    drain (RegexTokenizer.__call__ expression gaps value kw) w = Ok (ts, w')
    /\ map Token.pos ts
       = map (fun i => kw_start_pos kw + Z.of_nat i) (seq 0 (List.length ts)).
Proof.
  intros Htok Hpos. unfold RegexTokenizer.__call__. rewrite Htok. cbn [negb].
  rewrite drain_generator. eexists _, _. split; [reflexivity|].
  rewrite snapshots_length. destruct gaps; cbn [negb].
  - by apply split_positions.
  - rewrite (snapshots_assigned Token.pos _
               (imap (fun i _ => kw_start_pos kw + Z.of_nat i)
                  (re.finditer expression value))).
    + rewrite length_imap.
      generalize (re.finditer expression value) as ms.
      generalize (kw_start_pos kw) as p. intros p ms. revert p.
      induction ms as [|m ms IH]; intros p; [done|].
      rewrite imap_cons. cbn [List.length seq map]. f_equal.
      rewrite <- seq_shift, map_map.
      trans (imap (fun (i : nat) (_ : re.Match) => p + 1 + Z.of_nat i) ms).
      * apply imap_ext. intros i x _. simpl. lia.
      * rewrite IH. apply map_ext. intros i. lia.
    + apply imap_assigned. intros i m t. by apply on_match_pos.
Qed.

Lemma regex_tokenizer_positions_witness :
  exists ts w',
    drain (RegexTokenizer.__call__ non_space true "  to   be "
             (positions_kwargs 7))
      empty_world = Ok (ts, w')
    /\ map Token.pos ts = map (fun i => 7 + Z.of_nat i) (seq 0 (List.length ts)).
Proof.
  exact (regex_tokenizer_positions non_space true "  to   be "
           (positions_kwargs 7) empty_world eq_refl eq_refl).
Defined.

Lemma ordered_bound (matches : list re.Match) :
  forall from upto : nat, ordered matches from upto -> (from <= upto)%nat.
Proof.
  induction matches as [|m matches IH]; intros from upto; simpl; [done|].
  intros [Hm Hrest]. apply IH in Hrest. lia.
Qed.

Lemma characters_matches (value : string) (kw : kwargs) (matches : list re.Match) :
  forall (from : nat) (round : nat -> re.Match -> Token -> Token) (t : Token),
    (forall i m t, Token.text (round i m t) = re.group0 value m) ->
    ordered matches from (String.length value) ->
    characters (snapshots t (imap round matches))
    = sum_list_with (fun m => (re.m_end m - re.m_start m)%nat) matches.
Proof.
  induction matches as [|m matches IH]; intros from round t Hround Hord; [done|].
  destruct Hord as [Hm Hrest]. pose proof (ordered_bound _ _ _ Hrest) as Hend.
  rewrite imap_cons. unfold characters in *. cbn [snapshots sum_list_with].
  rewrite Hround. unfold re.group0, re.start, re.end_.
  rewrite slice_length by lia. f_equal.
  apply (IH (re.m_end m)); [|done]. intros i m' t'. apply Hround.
Qed.

Lemma characters_split (value : string) (kw : kwargs) (matches : list re.Match) :
  forall (prevend : nat) (pos : Z) (t : Token),
    ordered matches prevend (String.length value) ->
    (characters (snapshots t (RegexTokenizer.split value kw matches
                                (Z.of_nat prevend) pos))
     + sum_list_with (fun m => (re.m_end m - re.m_start m)%nat) matches
     = String.length value - prevend)%nat.
Proof.
  induction matches as [|m matches IH]; intros prevend pos t Hord;
    cbn [RegexTokenizer.split].
  - simpl in Hord. unfold len.
    destruct (Z.of_nat prevend <? Z.of_nat (String.length value)) eqn:Hlt.
    + unfold characters. cbn. rewrite on_tail_text, slice_from_length by done. lia.
    + apply Z.ltb_ge in Hlt. unfold characters. cbn. lia.
  - destruct Hord as [Hm Hrest]. pose proof (ordered_bound _ _ _ Hrest) as Hend.
    assert (String.length (slice value (Z.of_nat prevend) (re.start m))
            = (re.m_start m - prevend)%nat) as Hgap
      by (unfold re.start; apply slice_length; lia).
    cbn [sum_list_with].
    destruct (truthy (slice value (Z.of_nat prevend) (re.start m))) eqn:Htext.
    + unfold characters in *. cbn [snapshots sum_list_with].
      rewrite on_gap_text, Hgap.
      specialize (IH (re.m_end m)
                    (if kw_positions kw then pos + 1 else pos)
                    (RegexTokenizer.on_gap kw
                       (slice value (Z.of_nat prevend) (re.start m)) pos
                       (Z.of_nat prevend) (re.start m) t) Hrest).
      unfold re.end_ in *. lia.
    + assert (re.m_start m - prevend = 0)%nat as Hzero.
      { rewrite <- Hgap.
        by destruct (slice value (Z.of_nat prevend) (re.start m)). }
      specialize (IH (re.m_end m) pos t Hrest). unfold re.end_ in *. lia.
Qed.

(** X4: the two modes of the regex tokenizer divide the input between
    them: when the matches come ordered and inside the input, the texts of
    the tokens yielded with [gaps=False] and those yielded with
    [gaps=True] have together as many characters as the input. *)
Theorem regex_tokenizer_partition (expression : re.Pattern) (value : string)
    (kw : kwargs) (w : world) :
  kw_tokenize kw = true ->
  ordered (re.finditer expression value) 0 (String.length value) ->
  exists words gaps w1 w2,
    drain (RegexTokenizer.__call__ expression false value kw) w = Ok (words, w1)
    /\ drain (RegexTokenizer.__call__ expression true value kw) w = Ok (gaps, w2)
    /\ (characters words + characters gaps = String.length value)%nat.
Proof.
  intros Htok Hord. unfold RegexTokenizer.__call__. rewrite Htok. cbn [negb].
  rewrite !drain_generator. eexists _, _, _, _.
  split; [reflexivity|]. split; [reflexivity|].
  rewrite (characters_matches value kw _ 0%nat); [|apply on_match_text|done].
  pose proof (characters_split value kw _ 0%nat (kw_start_pos kw)
                (new_token kw) Hord) as Hsplit.
  change (Z.of_nat 0) with 0 in Hsplit. lia.
Qed.

Lemma regex_tokenizer_partition_witness :
  exists words gaps w1 w2,
    drain (RegexTokenizer.__call__ default_pattern false "to be, or not" no_kwargs)
      empty_world = Ok (words, w1)
    /\ drain (RegexTokenizer.__call__ default_pattern true "to be, or not" no_kwargs)
         empty_world = Ok (gaps, w2)
    /\ (characters words + characters gaps = 13)%nat.
Proof.
  refine (regex_tokenizer_partition default_pattern "to be, or not" no_kwargs
            empty_world eq_refl _).
  vm_compute. repeat split; lia.
Defined.

Lemma walk_fin (char_map : gmap N (option string)) (value : string) (kw : kwargs)
    (rest : string) :
  forall (text : string) (pos start current : Z),
    snd (CharsetTokenizer.walk char_map value kw rest text pos start current)
    = if forallb (fun c => bool_decide (is_Some (char_map !! ord c)))
           (String.list_ascii_of_string rest)
      then None else Some KeyError.
Proof.
  induction rest as [|c rest IH]; intros text pos start current;
    cbn [CharsetTokenizer.walk String.list_ascii_of_string forallb]; [done|].
  destruct (char_map !! ord c) as [tchar|] eqn:Hc; [|done].
  rewrite bool_decide_eq_true_2 by done. cbn [andb].
  destruct (CharsetTokenizer.is_kept tchar); [apply IH|].
  specialize (IH "" (if (start <? current) && kw_positions kw then pos + 1 else pos)
                (current + 1) (current + 1)).
  destruct (CharsetTokenizer.walk _ _ _ rest _ _ _ _) as [steps fin].
  exact IH.
Qed.

Lemma forallb_false {A : Type} (f : A -> bool) (l : list A) :
  forallb f l = false -> exists x, In x l /\ f x = false.
Proof.
  induction l as [|x l IH]; simpl; [done|].
  destruct (f x) eqn:Hx; simpl.
  - intros Hl. destruct (IH Hl) as (y & Hin & Hy). eauto.
  - intros _. eauto.
Qed.

(** X5: the character-map tokenizer looks every character of the input up
    in its map: it ends in [KeyError] exactly when the input has a
    character without an entry, and otherwise runs to the end of the
    input; it raises nothing else. *)
Theorem charset_tokenizer_key_error (char_map : gmap N (option string))
    (value : string) (kw : kwargs) (w : world) :
  kw_tokenize kw = true ->
  (drain (CharsetTokenizer.__call__ char_map value kw) w = Err KeyError
   <-> exists c, In c (String.list_ascii_of_string value)
                 /\ char_map !! ord c = None)
  /\ (drain (CharsetTokenizer.__call__ char_map value kw) w = Err KeyError
      \/ exists ts w', drain (CharsetTokenizer.__call__ char_map value kw) w
                       = Ok (ts, w')).
Proof.
  intros Htok. unfold CharsetTokenizer.__call__. rewrite Htok. cbn [negb].
  pose proof (walk_fin char_map value kw value "" (kw_start_pos kw)
                (kw_start_char kw) (kw_start_char kw)) as Hfin.
  destruct (CharsetTokenizer.walk _ _ _ _ _ _ _ _) as [steps fin].
  cbn [snd] in Hfin.
  destruct (forallb _ _) eqn:Hall; subst fin.
  - rewrite drain_generator. rewrite forallb_forall in Hall. split.
    + split; [done|]. intros (c & Hin & Hnone).
      apply Hall, bool_decide_eq_true in Hin. rewrite Hnone in Hin.
      by destruct Hin.
    + right. by eexists _, _.
  - rewrite drain_generator_raise. split; [|by left].
    split; [|done]. intros _.
    apply forallb_false in Hall as (c & Hin & Hc).
    exists c. split; [done|].
    apply bool_decide_eq_false in Hc.
    destruct (char_map !! ord c) eqn:Hlook; [|done]. by elim Hc.
Qed.

Lemma charset_tokenizer_key_error_witness :
  drain (CharsetTokenizer.__call__ folding "AB C" no_kwargs) empty_world
  = Err KeyError.
Proof.
  apply (proj1 (charset_tokenizer_key_error folding "AB C" no_kwargs
                  empty_world eq_refl)).
  exists "C"%char. split; [simpl; tauto | vm_compute; reflexivity].
Defined.

Lemma truthy_append (a b : string) : truthy b = true -> truthy (a +:+ b) = true.
Proof. by destruct a, b. Qed.

Lemma slice_nonempty (s : string) (i j : Z) :
  0 <= i < j -> j <= len s -> slice s i j <> "".
Proof.
  intros Hij Hj. apply truthy_nonempty, truthy_length.
  replace i with (Z.of_nat (Z.to_nat i)) by lia.
  replace j with (Z.of_nat (Z.to_nat j)) by lia.
  unfold len in Hj. rewrite slice_length; lia.
Qed.

Lemma on_break_text (kw : kwargs) (text : string) (pos start current : Z) (t : Token) :
  Token.text (CharsetTokenizer.on_break kw text pos start current t) = text.
Proof.
  unfold CharsetTokenizer.on_break, when.
  by destruct (kw_keep_original kw), (kw_positions kw), (kw_chars kw).
Qed.

Lemma on_end_text (value : string) (kw : kwargs) (pos start current : Z) (t : Token) :
  Token.text (CharsetTokenizer.on_end value kw pos start current t)
  = slice value start current.
Proof.
  unfold CharsetTokenizer.on_end, when.
  by destruct (kw_keep_original kw), (kw_positions kw), (kw_chars kw).
Qed.

(** While the tokenizer counts from 0, [start] and [current] are offsets
    into the input, and there is translated text whenever a run is open. *)
Lemma walk_nonempty (char_map : gmap N (option string)) (value : string)
    (kw : kwargs) (rest : string) :
  forall (text : string) (pos start current : Z),
    0 <= start <= current ->
    current + len rest = len value ->
    (start < current -> truthy text = true) ->
    Forall (fun f => forall t, Token.text (f t) <> "")
      (fst (CharsetTokenizer.walk char_map value kw rest text pos start current)).
Proof.
  induction rest as [|c rest IH]; intros text pos start current Hstart Hlen Hopen;
    cbn [CharsetTokenizer.walk].
  - destruct (start <? current) eqn:Hrun; cbn [fst]; constructor; [|constructor].
    intros t. rewrite on_end_text. apply Z.ltb_lt in Hrun.
    apply slice_nonempty; [lia|]. unfold len in *. simpl in Hlen. lia.
  - assert (current + 1 + len rest = len value) as Hlen'.
    { unfold len in *. simpl in Hlen. lia. }
    destruct (char_map !! ord c) as [tchar|]; [|constructor].
    destruct (CharsetTokenizer.is_kept tchar) eqn:Hkept.
    + apply IH; [lia|done|]. intros _.
      destruct tchar as [s|]; [|done]. by apply truthy_append.
    + specialize (IH "" (if (start <? current) && kw_positions kw
                         then pos + 1 else pos) (current + 1) (current + 1)).
      destruct (CharsetTokenizer.walk _ _ _ rest _ _ _ _) as [steps fin].
      cbn [fst] in *.
      assert (Forall (fun f => forall t, Token.text (f t) <> "") steps) as Hsteps
        by (apply IH; [lia|done|lia]).
      destruct (start <? current) eqn:Hrun; [|done].
      constructor; [|done]. intros t. rewrite on_break_text.
      apply truthy_nonempty, Hopen. by apply Z.ltb_lt.
Qed.

(** X6: called with [start_char=0], the character-map tokenizer never
    yields a token whose text is empty: break characters that follow one
    another, or open the input, give no token. *)
Theorem charset_tokenizer_nonempty (char_map : gmap N (option string))
    (value : string) (kw : kwargs) (w w' : world) (ts : list Token) :
  kw_tokenize kw = true ->
  kw_start_char kw = 0 ->
  drain (CharsetTokenizer.__call__ char_map value kw) w = Ok (ts, w') ->
  Forall (fun t => Token.text t <> "") ts.
Proof.
  intros Htok Hchar. unfold CharsetTokenizer.__call__.
  rewrite Htok, Hchar. cbn [negb].
  pose proof (walk_nonempty char_map value kw value "" (kw_start_pos kw) 0 0)
    as Hsteps.
  destruct (CharsetTokenizer.walk _ _ _ _ _ _ _ _) as [steps [e|]].
  - by rewrite drain_generator_raise.
  - rewrite drain_generator. intros [= <- _].
    apply snapshots_all. cbn [fst] in Hsteps. apply Hsteps; lia.
Qed.

Lemma charset_tokenizer_nonempty_witness :
  exists ts w',
    drain (CharsetTokenizer.__call__ folding "  AB   BA " no_kwargs) empty_world
    = Ok (ts, w')
    /\ map Token.text ts = ["ab"; "ba"]
    /\ Forall (fun t => Token.text t <> "") ts.
Proof.
  eexists _, _. split; [reflexivity|]. split; [reflexivity|].
  refine (charset_tokenizer_nonempty folding "  AB   BA " no_kwargs empty_world
            _ _ eq_refl eq_refl eq_refl).
Defined.

Lemma str_take_prefix (n : nat) (s : string) : String.prefix (str_take n s) s = true.
Proof.
  revert s. induction n as [|n IH]; intros [|c s]; simpl; try done.
  destruct (Ascii.ascii_dec c c); [apply IH | done].
Qed.

Lemma prefixes_texts (value : string) (kw : kwargs) (matches : list re.Match) :
  forall pos : Z,
    Forall2 (fun f v => forall t, Token.text (f t) = v)
      (PathTokenizer.prefixes value kw matches pos)
      (map (fun m => slice_to value (re.end_ m)) matches).
Proof.
  induction matches as [|m matches IH]; intros pos; constructor; [|apply IH].
  intros t. unfold when. by destruct (kw_positions kw).
Qed.

(** X7: the path tokenizer yields one token per match of its expression;
    the text of each is the input up to the end of that match, so every
    token's text is a prefix of the input. *)
Theorem path_tokenizer_prefixes (expr : re.Pattern) (value : string)
    (kw : kwargs) (w : world) :
  exists ts w',
    drain (PathTokenizer.__call__ expr value kw) w = Ok (ts, w')
    /\ map Token.text ts
       = map (fun m => slice_to value (re.end_ m)) (re.finditer expr value)
    /\ Forall (fun t => String.prefix (Token.text t) value = true) ts.
Proof.
  unfold PathTokenizer.__call__. rewrite drain_generator.
  eexists _, _. split; [reflexivity|].
  assert (map Token.text
            (snapshots (PathTokenizer.token kw)
               (PathTokenizer.prefixes value kw (re.finditer expr value)
                  (kw_start_pos kw)))
          = map (fun m => slice_to value (re.end_ m)) (re.finditer expr value))
    as Htexts by apply snapshots_assigned, prefixes_texts.
  split; [done|].
  apply Forall_map with (f := Token.text) (P := fun s => String.prefix s value = true).
  rewrite Htexts. apply Forall_map, Forall_forall. intros m _.
  apply str_take_prefix.
Qed.

(** X8: called with [tokenize=False], the regex and the character-map
    tokenizer do the same, whatever their pattern, [gaps] and map: they
    yield one token, with the input as [text] and as [original_text],
    numbered [start_pos] when positions are asked for.  [IDTokenizer]
    yields such a token for every call, but numbers it [start_pos + 1].
    Without positions the number stays 0 in all three. *)
Theorem whole_input_token (expression : re.Pattern) (gaps : bool)
    (char_map : gmap N (option string)) (value : string) (kw : kwargs) (w : world) :
  kw_tokenize kw = false ->
  exists t w',
    drain (RegexTokenizer.__call__ expression gaps value kw) w = Ok ([t], w')
    /\ drain (CharsetTokenizer.__call__ char_map value kw) w = Ok ([t], w')
    /\ Token.text t = value
    /\ Token.original_text t = value
    /\ Token.pos t = (if kw_positions kw then kw_start_pos kw else 0)
    /\ exists t0 w0,
         drain (IDTokenizer.__call__ value kw) w = Ok ([t0], w0)
         /\ Token.text t0 = value
         /\ Token.pos t0 = (if kw_positions kw then kw_start_pos kw + 1 else 0).
Proof.
  intros Htok. unfold RegexTokenizer.__call__, CharsetTokenizer.__call__.
  rewrite Htok. cbn [negb]. rewrite !drain_generator.
  eexists _, _. split; [reflexivity|]. split; [reflexivity|].
  unfold CharsetTokenizer.whole, RegexTokenizer.whole, when.
  split; [by destruct (kw_positions kw), (kw_chars kw)|].
  split; [by destruct (kw_positions kw), (kw_chars kw)|].
  split; [by destruct (kw_positions kw), (kw_chars kw)|].
  unfold IDTokenizer.__call__. rewrite drain_generator.
  eexists _, _. split; [reflexivity|]. unfold when.
  by destruct (kw_keep_original kw), (kw_positions kw), (kw_chars kw).
Qed.

Lemma whole_input_token_witness :
  exists t w',
    drain (RegexTokenizer.__call__ default_pattern false "New York"
             (whole_kwargs 3)) empty_world = Ok ([t], w')
    /\ drain (CharsetTokenizer.__call__ folding "New York" (whole_kwargs 3))
         empty_world = Ok ([t], w')
    /\ Token.text t = "New York"
    /\ Token.original_text t = "New York"
    /\ Token.pos t = 3
    /\ exists t0 w0,
         drain (IDTokenizer.__call__ "New York" (whole_kwargs 3)) empty_world
         = Ok ([t0], w0)
         /\ Token.text t0 = "New York"
         /\ Token.pos t0 = 4.
Proof.
  exact (whole_input_token default_pattern false folding "New York"
           (whole_kwargs 3) empty_world eq_refl).
Defined.

(** ** Filters in a row *)

Lemma drain_next (a b : iter) (wa wb : world) :
  next a wa = next b wb -> drain a wa = drain b wb.
Proof. intros Hab. by rewrite (drain_unfold a), (drain_unfold b), Hab. Qed.

Lemma update_const_twice (t1 t2 : Token) (r : ref) (w : world) :
  update (fun _ => t2) r (update (fun _ => t1) r w) = update (fun _ => t2) r w.
Proof. apply update_update. Qed.

Section Fusion.

Context {S1 S2 : Type} (first : S1 -> Token -> S1 * Token * bool)
  (second : S2 -> Token -> S2 * Token * bool).

Lemma drain_fuse (tokens : iter) :
  forall (s1 : S1) (s2 : S2) (w : world),
    drain (for_in second s2 (for_in first s1 tokens)) w
    = drain (for_in (fuse first second) (s1, s2) tokens) w.
Proof.
  induction tokens as [tokens IH] using iter_next_ind. intros s1 s2 w.
  destruct (next tokens w) as [r tokens' w1|w1|e] eqn:Hnext.
  - destruct (heap w1 !! r) as [t|] eqn:Ht.
    + destruct (first s1 t) as [[s1' t1] yielded] eqn:Hfirst.
      assert (heap (update (fun _ => t1) r w1) !! r = Some t1) as Ht1
        by by apply (update_const_lookup t).
      destruct yielded.
      * destruct (second s2 t1) as [[s2' t2] yielded'] eqn:Hsecond.
        assert (next (for_in second s2 (for_in first s1 tokens)) w
                = if yielded'
                  then Yield r (for_in second s2' (for_in first s1' tokens'))
                         (update (fun _ => t2) r w1)
                  else next (for_in second s2' (for_in first s1' tokens'))
                         (update (fun _ => t2) r w1)) as Hleft.
        { rewrite next_for_in, next_for_in, Hnext, Ht, Hfirst.
          cbv beta iota zeta. rewrite Ht1, Hsecond. cbv beta iota zeta.
          by rewrite update_const_twice. }
        assert (next (for_in (fuse first second) (s1, s2) tokens) w
                = if yielded'
                  then Yield r (for_in (fuse first second) (s1', s2') tokens')
                         (update (fun _ => t2) r w1)
                  else next (for_in (fuse first second) (s1', s2') tokens')
                         (update (fun _ => t2) r w1)) as Hright.
        { rewrite next_for_in, Hnext, Ht. unfold fuse at 1. cbn [fst snd].
          by rewrite Hfirst, Hsecond. }
        destruct yielded'.
        -- rewrite (drain_unfold (for_in second _ _)), Hleft.
           rewrite (drain_unfold (for_in (fuse _ _) _ _)), Hright.
           by rewrite (IH _ _ _ _ Hnext).
        -- rewrite (drain_next _ _ _ _ Hleft), (drain_next _ _ _ _ Hright).
           apply (IH _ _ _ _ Hnext).
      * assert (next (for_in second s2 (for_in first s1 tokens)) w
                = next (for_in second s2 (for_in first s1' tokens'))
                    (update (fun _ => t1) r w1)) as Hleft.
        { rewrite next_for_in, next_for_in, Hnext, Ht, Hfirst.
          cbv beta iota zeta. by rewrite (next_for_in second). }
        assert (next (for_in (fuse first second) (s1, s2) tokens) w
                = next (for_in (fuse first second) (s1', s2) tokens')
                    (update (fun _ => t1) r w1)) as Hright.
        { rewrite next_for_in, Hnext, Ht. unfold fuse at 1. cbn [fst snd].
          by rewrite Hfirst. }
        rewrite (drain_next _ _ _ _ Hleft), (drain_next _ _ _ _ Hright).
        apply (IH _ _ _ _ Hnext).
    + rewrite (drain_unfold (for_in second _ _)), next_for_in, next_for_in.
      rewrite (drain_unfold (for_in (fuse _ _) _ _)), next_for_in.
      by rewrite Hnext, Ht.
  - rewrite (drain_unfold (for_in second _ _)), next_for_in, next_for_in.
    rewrite (drain_unfold (for_in (fuse _ _) _ _)), next_for_in.
    by rewrite Hnext.
  - rewrite (drain_unfold (for_in second _ _)), next_for_in, next_for_in.
    rewrite (drain_unfold (for_in (fuse _ _) _ _)), next_for_in.
    by rewrite Hnext.
Qed.

End Fusion.

(** X9: two filter loops in a row give their consumer what one loop gives
    that runs both bodies on each token, the second on what the first
    yields: the filters of a chain work on each token in turn, none of
    them ahead of the others.  This holds for every upstream, whatever it
    yields or raises. *)
Theorem for_in_fuse {S1 S2 : Type} (first : S1 -> Token -> S1 * Token * bool)
    (second : S2 -> Token -> S2 * Token * bool) (tokens : iter)
    (s1 : S1) (s2 : S2) (w : world) :
  drain (for_in second s2 (for_in first s1 tokens)) w
  = drain (for_in (fuse first second) (s1, s2) tokens) w.
Proof. apply drain_fuse. Qed.

(** ** The rounds of the tokenizers *)

Ltac token_fields :=
  cbv [forget Token.set_boost Token.set_stopped Token.set_text
       Token.set_original_text Token.set_pos Token.set_start_char
       Token.set_end_char Token.positions Token.chars Token.remove_stopwords
       Token.mode Token.boost Token.stopped Token.text Token.original_text
       Token.pos Token.start_char Token.end_char] in *.

Ltac tokenizer_round :=
  unfold tokenizer_round, when;
  repeat match goal with
         | |- context [if ?b then _ else _] => destruct b
         end;
  repeat split; intros;
  repeat match goal with
         | t : Token |- _ => destruct t
         end;
  token_fields;
  try reflexivity;
  match goal with
  | H : Token.mk _ _ _ _ _ _ _ _ _ _ _ = Token.mk _ _ _ _ _ _ _ _ _ _ _ |- _ =>
      injection H; intros; subst; reflexivity
  end.

Lemma on_match_round (value : string) (kw : kwargs) (pos : nat) (m : re.Match) :
  tokenizer_round (RegexTokenizer.on_match value kw pos m).
Proof. unfold RegexTokenizer.on_match. tokenizer_round. Qed.

Lemma on_gap_round (kw : kwargs) (text : string) (pos start end_ : Z) :
  tokenizer_round (RegexTokenizer.on_gap kw text pos start end_).
Proof. unfold RegexTokenizer.on_gap. tokenizer_round. Qed.

Lemma on_tail_round (value : string) (kw : kwargs) (pos prevend : Z) :
  tokenizer_round (RegexTokenizer.on_tail value kw pos prevend).
Proof. unfold RegexTokenizer.on_tail. tokenizer_round. Qed.

Lemma whole_round (value : string) (kw : kwargs) :
  tokenizer_round (RegexTokenizer.whole value kw).
Proof. unfold RegexTokenizer.whole. tokenizer_round. Qed.

Lemma on_break_round (kw : kwargs) (text : string) (pos start current : Z) :
  tokenizer_round (CharsetTokenizer.on_break kw text pos start current).
Proof. unfold CharsetTokenizer.on_break. tokenizer_round. Qed.

Lemma on_end_round (value : string) (kw : kwargs) (pos start current : Z) :
  tokenizer_round (CharsetTokenizer.on_end value kw pos start current).
Proof. unfold CharsetTokenizer.on_end. tokenizer_round. Qed.

Lemma split_rounds (value : string) (kw : kwargs) (matches : list re.Match) :
  forall prevend pos : Z,
    Forall tokenizer_round (RegexTokenizer.split value kw matches prevend pos).
Proof.
  induction matches as [|m matches IH]; intros prevend pos;
    cbn [RegexTokenizer.split].
  - destruct (prevend <? len value); [|constructor].
    constructor; [apply on_tail_round | constructor].
  - destruct (truthy _); [constructor; [apply on_gap_round|]|]; apply IH.
Qed.

Lemma imap_rounds {A : Type} (round : nat -> A -> Token -> Token) (xs : list A) :
  (forall i x, tokenizer_round (round i x)) ->
  Forall tokenizer_round (imap round xs).
Proof.
  revert round. induction xs as [|x xs IH]; intros round Hround; [constructor|].
  rewrite imap_cons. constructor; [apply Hround|].
  apply IH. intros i y. apply Hround.
Qed.

Lemma imap_all {A : Type} (P : (Token -> Token) -> Prop)
    (round : nat -> A -> Token -> Token) (xs : list A) :
  (forall i x, P (round i x)) -> Forall P (imap round xs).
Proof.
  revert round. induction xs as [|x xs IH]; intros round Hround; [constructor|].
  rewrite imap_cons. constructor; [apply Hround|].
  apply IH. intros i y. apply Hround.
Qed.

Lemma walk_rounds (char_map : gmap N (option string)) (value : string)
    (kw : kwargs) (rest : string) :
  forall (text : string) (pos start current : Z),
    Forall tokenizer_round
      (fst (CharsetTokenizer.walk char_map value kw rest text pos start current)).
Proof.
  induction rest as [|c rest IH]; intros text pos start current;
    cbn [CharsetTokenizer.walk].
  - destruct (start <? current); [|constructor].
    constructor; [apply on_end_round | constructor].
  - destruct (char_map !! ord c) as [tchar|]; [|constructor].
    destruct (CharsetTokenizer.is_kept tchar); [apply IH|].
    specialize (IH "" (if (start <? current) && kw_positions kw
                       then pos + 1 else pos) (current + 1) (current + 1)).
    destruct (CharsetTokenizer.walk _ _ _ rest _ _ _ _) as [steps fin].
    cbn [fst] in *.
    destruct (start <? current); [constructor; [apply on_break_round|]|]; done.
Qed.

Lemma prefixes_rounds (value : string) (kw : kwargs) (matches : list re.Match) :
  forall pos : Z, Forall tokenizer_round (PathTokenizer.prefixes value kw matches pos).
Proof.
  induction matches as [|m matches IH]; intros pos; constructor; [|apply IH].
  tokenizer_round.
Qed.

Lemma split_flag (flag : bool) (value : string) (kw : kwargs)
    (matches : list re.Match) :
  forall prevend pos : Z,
    RegexTokenizer.split value (with_remove_stopwords flag kw) matches prevend pos
    = RegexTokenizer.split value kw matches prevend pos.
Proof.
  induction matches as [|m matches IH]; intros prevend pos;
    cbn [RegexTokenizer.split]; [done|].
  destruct (truthy _); [f_equal|]; apply IH.
Qed.

Lemma walk_flag (flag : bool) (char_map : gmap N (option string)) (value : string)
    (kw : kwargs) (rest : string) :
  forall (text : string) (pos start current : Z),
    CharsetTokenizer.walk char_map value (with_remove_stopwords flag kw) rest
      text pos start current
    = CharsetTokenizer.walk char_map value kw rest text pos start current.
Proof.
  induction rest as [|c rest IH]; intros text pos start current;
    cbn [CharsetTokenizer.walk]; [done|].
  destruct (char_map !! ord c) as [tchar|]; [|done].
  destruct (CharsetTokenizer.is_kept tchar); [apply IH|].
  cbn [with_remove_stopwords kw_positions]. by rewrite IH.
Qed.

Lemma prefixes_flag (flag : bool) (value : string) (kw : kwargs)
    (matches : list re.Match) :
  forall pos : Z,
    PathTokenizer.prefixes value (with_remove_stopwords flag kw) matches pos
    = PathTokenizer.prefixes value kw matches pos.
Proof.
  induction matches as [|m matches IH]; intros pos;
    cbn [PathTokenizer.prefixes]; [done|].
  f_equal. apply IH.
Qed.

Lemma regex_rounds (expression : re.Pattern) (gaps : bool) (value : string)
    (kw : kwargs) :
  Forall tokenizer_round
    (if negb (kw_tokenize kw) then [RegexTokenizer.whole value kw]
     else if negb gaps
          then imap (RegexTokenizer.on_match value kw)
                 (re.finditer expression value)
          else RegexTokenizer.split value kw (re.finditer expression value) 0
                 (kw_start_pos kw)).
Proof.
  destruct (kw_tokenize kw); cbn [negb].
  - destruct gaps; cbn [negb]; [apply split_rounds|].
    apply imap_rounds. intros i m. apply on_match_round.
  - constructor; [apply whole_round | constructor].
Qed.

(** The generator of every tokenizer is one token and a list of rounds;
    the option [remove_stopwords] reaches the token only. *)
Lemma tokenize_rounds (s : stage) (value : string) (kw : kwargs) (gen : iter) :
  tokenize s value kw = Some gen ->
  exists t0 steps fin,
    gen = generator t0 steps fin
    /\ Token.positions t0 = kw_positions kw
    /\ Token.remove_stopwords t0 = kw_remove_stopwords kw
    /\ Forall tokenizer_round steps
    /\ forall flag : bool,
         exists t1,
           tokenize s value (with_remove_stopwords flag kw)
           = Some (generator t1 steps fin)
           /\ forget t1 = forget t0
           /\ Token.remove_stopwords t1 = flag.
Proof.
  destruct s; try discriminate; intros [= <-]; cbn [tokenize].
  - eexists _, _, _. split; [reflexivity|]. do 2 (split; [reflexivity|]). split.
    + constructor; [tokenizer_round | constructor].
    + intros flag. by eexists.
  - unfold RegexTokenizer.__call__.
    eexists _, _, _. split; [reflexivity|]. do 2 (split; [reflexivity|]). split.
    + apply regex_rounds.
    + intros flag. cbn [with_remove_stopwords kw_tokenize kw_start_pos].
      rewrite split_flag. by eexists.
  - unfold CharsetTokenizer.__call__.
    destruct (kw_tokenize kw) eqn:Htok; cbn [negb].
    + pose proof (walk_rounds char_map value kw value "" (kw_start_pos kw)
                    (kw_start_char kw) (kw_start_char kw)) as Hrounds.
      destruct (CharsetTokenizer.walk _ _ _ _ _ _ _ _) as [steps fin] eqn:Hwalk.
      eexists _, _, _. split; [reflexivity|]. do 2 (split; [reflexivity|]).
      split; [exact Hrounds|].
      intros flag.
      cbn [with_remove_stopwords kw_tokenize kw_start_pos kw_start_char].
      rewrite Htok. cbn [negb]. rewrite walk_flag, Hwalk. by eexists.
    + eexists _, _, _. split; [reflexivity|]. do 2 (split; [reflexivity|]). split.
      * constructor; [apply whole_round | constructor].
      * intros flag. cbn [with_remove_stopwords kw_tokenize]. rewrite Htok.
        by eexists.
  - unfold PathTokenizer.__call__.
    eexists _, _, _. split; [reflexivity|]. do 2 (split; [reflexivity|]).
    split; [apply prefixes_rounds|].
    intros flag. cbn [with_remove_stopwords kw_start_pos].
    rewrite prefixes_flag. by eexists.
Qed.

(** ** Filter loops on a tokenizer's generator *)

Lemma drain_for_in_generator_raise {S : Type} (body : S -> Token -> S * Token * bool)
    (e : exn) (steps : list (Token -> Token)) :
  forall (s : S) (t : Token) (w : world),
    drain (for_in body s (generator t steps (Some e))) w = Err e.
Proof.
  assert (forall (s : S) (r : ref) (t : Token) (w : world),
            heap w !! r = Some t ->
            drain (for_in body s (resume r steps (Some e))) w = Err e) as Hresume.
  { induction steps as [|f steps IH]; intros s r t w Hr.
    - by rewrite drain_unfold, next_for_in.
    - rewrite drain_unfold, next_for_in. cbn [resume next].
      rewrite (update_lookup f t r w Hr).
      destruct (body s (f t)) as [[s' t'] yielded].
      assert (heap (update (fun _ => t') r (update f r w)) !! r = Some t') as Hr'.
      { apply (update_const_lookup (f t)). by apply update_lookup. }
      pose proof (IH s' r t' _ Hr') as Hrest.
      destruct yielded; cbv zeta.
      + by rewrite Hr', Hrest.
      + by rewrite drain_unfold in Hrest. }
  intros s t w. rewrite <- (Hresume s _ t _ (alloc_lookup t w)).
  rewrite (drain_unfold (for_in _ _ (generator _ _ _))),
    (drain_unfold (for_in _ _ (resume _ _ _))), !next_for_in.
  done.
Qed.

Lemma rounds_values (steps : list (Token -> Token)) :
  Forall tokenizer_round steps ->
  exists values : list string,
    Forall2 (fun f v => forall t, Token.text (f t) = v) steps values.
Proof.
  induction 1 as [|f steps Hf _ [values IH]]; [by exists []|].
  exists (Token.text (f (Token.__init__ false false true "")) :: values).
  constructor; [|done]. intros t. apply Hf.
Qed.

Lemma rounds_keep_flag (steps : list (Token -> Token)) :
  Forall tokenizer_round steps ->
  Forall (fun f => forall t, Token.remove_stopwords (f t) = Token.remove_stopwords t)
    steps.
Proof.
  intros Hrounds. eapply Forall_impl; [exact Hrounds|].
  intros f Hf. apply Hf.
Qed.

Lemma loop_over_lowercase (steps : list (Token -> Token)) (values : list string) :
  Forall2 (fun f v => forall t, Token.text (f t) = v) steps values ->
  forall (s : unit) (t : Token),
    map Token.text (loop_over LowercaseFilter.body s t steps)
    = map str_lower values.
Proof.
  induction 1 as [|f v steps values Hf _ IH]; intros s t; [done|].
  cbn [loop_over LowercaseFilter.body app map]. by rewrite IH, Hf.
Qed.

Lemma loop_over_lowercase_stop (stops : gset string) (minsize : Z)
    (maxsize : option Z) (renumber : bool)
    (steps : list (Token -> Token)) (values : list string) :
  Forall2 (fun f v => forall t, Token.text (f t) = v) steps values ->
  Forall (fun f => forall t, Token.remove_stopwords (f t) = Token.remove_stopwords t)
    steps ->
  forall (s : unit * option Z) (t : Token),
    map Token.text
      (loop_over (fuse LowercaseFilter.body
                    (StopFilter.body stops minsize maxsize renumber)) s t steps)
    = if Token.remove_stopwords t
      then List.filter (StopFilter.passes stops minsize maxsize)
             (map str_lower values)
      else map str_lower values.
Proof.
  induction 1 as [|f v steps values Hf _ IH]; intros Hflags s t.
  - by destruct (Token.remove_stopwords t).
  - inversion Hflags as [|? ? Hflag Hflags']; subst.
    cbn [loop_over map List.filter].
    unfold fuse at 1. cbn [LowercaseFilter.body fst snd].
    unfold StopFilter.body at 1. cbn [Token.text Token.set_text].
    rewrite Hf.
    destruct (StopFilter.passes stops minsize maxsize (str_lower v)) eqn:Hpass.
    + destruct (renumber && _); [destruct (snd s)|];
        cbn [app map]; rewrite IH by done; cbn; rewrite Hflag;
        by destruct (Token.remove_stopwords t).
    + cbn [Token.remove_stopwords Token.set_text]. rewrite Hflag.
      destruct (Token.remove_stopwords t) eqn:Hremove; cbn [negb app map].
      * rewrite IH by done. cbn. by rewrite Hflag, Hremove.
      * rewrite IH by done. cbn. by rewrite Hflag, Hremove.
Qed.

(** X10: the presets built on the regex tokenizer, for every pattern,
    either mode, every stop list and every input: [SimpleAnalyzer] gives
    the texts of the tokenizer in lower case; [StandardAnalyzer] gives
    those of them that pass the stop test (long enough, not too long, not
    in the stop list), in the same order, or all of them when called with
    [remove_stopwords=False]. *)
Theorem regex_presets_texts (expression : re.Pattern) (gaps : bool)
    (stops : gset string) (minsize : Z) (maxsize : option Z)
    (value : string) (kw : kwargs) :
  exists words : list string,
    texts (Ok (Single (RegexTokenizer expression gaps))) value kw = Ok words
    /\ texts (SimpleAnalyzer expression gaps) value kw = Ok (map str_lower words)
    /\ texts (StandardAnalyzer expression (Some stops) minsize maxsize gaps) value kw
       = Ok (if kw_remove_stopwords kw
             then List.filter (StopFilter.passes stops minsize maxsize)
                    (map str_lower words)
             else map str_lower words).
Proof.
  pose proof (regex_rounds expression gaps value kw) as Hrounds.
  assert (RegexTokenizer.__call__ expression gaps value kw
          = generator (new_token kw)
              (if negb (kw_tokenize kw) then [RegexTokenizer.whole value kw]
               else if negb gaps
                    then imap (RegexTokenizer.on_match value kw)
                           (re.finditer expression value)
                    else RegexTokenizer.split value kw
                           (re.finditer expression value) 0 (kw_start_pos kw))
              None) as Hgen by reflexivity.
  revert Hrounds Hgen. generalize (if negb (kw_tokenize kw)
               then [RegexTokenizer.whole value kw]
               else if negb gaps
                    then imap (RegexTokenizer.on_match value kw)
                           (re.finditer expression value)
                    else RegexTokenizer.split value kw
                           (re.finditer expression value) 0 (kw_start_pos kw))
    as steps.
  intros steps Hrounds Hgen.
  destruct (rounds_values steps Hrounds) as [words Hwords].
  exists words.
  unfold texts, SimpleAnalyzer, StandardAnalyzer, analyze,
    CompositeAnalyzer.__call__.
  cbn [bind __or__ CompositeAnalyzer.__init__ CompositeAnalyzer.collect fold_left
       app tail existsb is_tokenizer orb tokenize CompositeAnalyzer.run_filters
       CompositeAnalyzer.is_morph andb negb call].
  rewrite Hgen. repeat split.
  - rewrite drain_generator. cbn [bind]. f_equal.
    by apply snapshots_assigned.
  - unfold LowercaseFilter.__call__.
    destruct (drain_for_in_generator LowercaseFilter.body tt (new_token kw) steps
                empty_world) as [w' ->].
    cbn [bind]. f_equal. by apply loop_over_lowercase.
  - unfold StopFilter.__call__, LowercaseFilter.__call__.
    rewrite drain_fuse.
    destruct (drain_for_in_generator
                (fuse LowercaseFilter.body
                   (StopFilter.body stops minsize maxsize false))
                (tt, None) (new_token kw) steps empty_world) as [w' ->].
    cbn [bind]. f_equal.
    rewrite (loop_over_lowercase_stop stops minsize maxsize false steps words);
      [done|done|by apply rounds_keep_flag].
Qed.

(** ** Stop words: marking and removing *)

Lemma forget_fields (a b : Token) :
  forget a = forget b ->
  Token.text a = Token.text b
  /\ Token.positions a = Token.positions b
  /\ Token.pos a = Token.pos b.
Proof. destruct a, b. unfold forget. cbn. intros [=]. by subst. Qed.

Lemma forget_set_stopped (flag flag' : bool) (a b : Token) :
  forget a = forget b ->
  forget (Token.set_stopped flag a) = forget (Token.set_stopped flag' b).
Proof. destruct a, b. unfold forget, Token.set_stopped. cbn. congruence. Qed.

Lemma forget_set_stopped_l (flag : bool) (a b : Token) :
  forget a = forget b -> forget (Token.set_stopped flag a) = forget b.
Proof. destruct a, b. unfold forget, Token.set_stopped. cbn. congruence. Qed.

Lemma forget_set_pos (p : Z) (a b : Token) :
  forget a = forget b -> forget (Token.set_pos p a) = forget (Token.set_pos p b).
Proof. destruct a, b. unfold forget, Token.set_pos. cbn. congruence. Qed.

(** Round by round: the loop that marks stop words, followed by
    [unstopped], against the loop that removes them. *)
Lemma loop_over_mark_unstopped (stops : gset string) (minsize : Z)
    (maxsize : option Z) (renumber : bool) (steps : list (Token -> Token)) :
  Forall tokenizer_round steps ->
  forall (pos : option Z) (marked removed : Token),
    forget marked = forget removed ->
    Token.remove_stopwords marked = false ->
    Token.remove_stopwords removed = true ->
    map forget
      (loop_over (fuse (StopFilter.body stops minsize maxsize renumber)
                    core.unstopped_body) (pos, tt) marked steps)
    = map forget
        (loop_over (StopFilter.body stops minsize maxsize renumber) pos removed steps).
Proof.
  induction 1 as [|f steps Hf _ IH]; intros pos marked removed Hsame Hmark Hrem;
    [done|].
  destruct Hf as (_ & Hflag & _ & Hforget).
  pose proof (Hforget _ _ Hsame) as Hround.
  destruct (forget_fields _ _ Hround) as (Htext & Hpositions & Hpos).
  assert (Token.remove_stopwords (f marked) = false) as Hmark'
    by by rewrite Hflag.
  assert (Token.remove_stopwords (f removed) = true) as Hrem'
    by by rewrite Hflag.
  cbn [loop_over]. unfold fuse at 1. cbn [fst snd].
  unfold StopFilter.body at 1 3. rewrite Hmark', Hrem', Htext, Hpositions, Hpos.
  revert Hround Hmark' Hrem'.
  generalize (f marked) as m. generalize (f removed) as r. intros r m Hround Hm Hr.
  destruct (StopFilter.passes stops minsize maxsize (Token.text r)).
  - destruct (renumber && Token.positions r); [destruct pos as [p|]|];
      cbn [core.unstopped_body Token.stopped Token.set_stopped negb app map];
      (f_equal;
       [ auto using forget_set_stopped, forget_set_pos
       | apply IH;
         [ auto using forget_set_stopped, forget_set_pos
         | by destruct m
         | by destruct r ] ]).
  - cbn [negb core.unstopped_body Token.stopped Token.set_stopped app].
    apply IH; [by apply forget_set_stopped_l | by destruct m | done].
Qed.

(** X11: [unstopped] undoes the difference between marking and removing:
    for every tokenizer, input and stop filter, the stream called with
    [remove_stopwords=False], passed through the stop filter and then
    through [unstopped], gives the consumer the tokens that the stream
    called with [remove_stopwords=True] gives behind the same stop filter,
    equal in every attribute but the flag itself (and the same exception
    if the tokenizer raises). *)
Theorem unstopped_marked_is_removed (s : stage) (value : string) (kw : kwargs)
    (stops : gset string) (minsize : Z) (maxsize : option Z) (renumber : bool)
    (marking removing : iter) (w : world) :
  tokenize s value (with_remove_stopwords false kw) = Some marking ->
  tokenize s value (with_remove_stopwords true kw) = Some removing ->
  seen (drain (core.unstopped
                 (StopFilter.__call__ stops minsize maxsize renumber marking)) w)
  = seen (drain (StopFilter.__call__ stops minsize maxsize renumber removing) w).
Proof.
  intros Hmarking Hremoving.
  destruct (tokenize_rounds s value _ _ Hmarking)
    as (t0 & steps & fin & -> & _ & Hmark & Hrounds & Hflag).
  destruct (Hflag true) as (t1 & Hremoving' & Hforget & Hremove).
  change (with_remove_stopwords true (with_remove_stopwords false kw))
    with (with_remove_stopwords true kw) in Hremoving'.
  rewrite Hremoving in Hremoving'. injection Hremoving' as ->.
  unfold core.unstopped, StopFilter.__call__. rewrite drain_fuse.
  destruct fin as [e|].
  - by rewrite !drain_for_in_generator_raise.
  - destruct (drain_for_in_generator
                (fuse (StopFilter.body stops minsize maxsize renumber)
                   core.unstopped_body)
                (None, tt) t0 steps w)
      as [w1 ->].
    destruct (drain_for_in_generator
                (StopFilter.body stops minsize maxsize renumber) None t1 steps w)
      as [w2 ->].
    unfold seen. cbn [bind]. f_equal.
    by apply loop_over_mark_unstopped.
Qed.

Lemma unstopped_marked_is_removed_witness :
  seen (drain (core.unstopped
                 (StopFilter.__call__ STOP_WORDS 2 None true
                    (RegexTokenizer.__call__ default_pattern false "a cat is on the mat"
                       (with_remove_stopwords false (positions_kwargs 0)))))
          empty_world)
  = seen (drain (StopFilter.__call__ STOP_WORDS 2 None true
                   (RegexTokenizer.__call__ default_pattern false "a cat is on the mat"
                      (with_remove_stopwords true (positions_kwargs 0))))
            empty_world).
Proof.
  exact (unstopped_marked_is_removed (RegexTokenizer default_pattern false)
           "a cat is on the mat" (positions_kwargs 0) STOP_WORDS 2 None true
           _ _ empty_world eq_refl eq_refl).
Defined.

(** ** Morphological filters and [no_morph] *)

Lemma run_filters_no_morph (items : list stage) :
  forall (gen : iter) (w : world),
    CompositeAnalyzer.run_filters true items gen w
    = CompositeAnalyzer.run_filters false
        (List.filter (fun item => negb (CompositeAnalyzer.is_morph item)) items)
        gen w.
Proof.
  induction items as [|item items IH]; intros gen w; [done|].
  cbn [CompositeAnalyzer.run_filters List.filter].
  destruct (CompositeAnalyzer.is_morph item);
    cbn [negb andb CompositeAnalyzer.run_filters]; [apply IH|].
  destruct (call item gen w) as [[gen' w']|e]; cbn [bind]; [apply IH|done].
Qed.

(** X12: calling a pipeline with [no_morph=True] is calling, without the
    flag, the pipeline with its morphological filters taken out of the
    stages after the first; the first stage runs whatever it is. *)
Theorem no_morph_skips_morph_filters (first : stage) (rest : list stage)
    (value : string) (kw : kwargs) (w : world) :
  CompositeAnalyzer.__call__ (first :: rest) value true kw w
  = CompositeAnalyzer.__call__
      (first :: List.filter (fun item => negb (CompositeAnalyzer.is_morph item)) rest)
      value false kw w.
Proof.
  unfold CompositeAnalyzer.__call__.
  destruct (tokenize first value kw); [apply run_filters_no_morph|done].
Qed.

Lemma filter_no_morph (items : list stage) :
  existsb CompositeAnalyzer.is_morph items = false ->
  List.filter (fun item => negb (CompositeAnalyzer.is_morph item)) items = items.
Proof.
  induction items as [|item items IH]; [done|]. cbn [existsb List.filter].
  destruct (CompositeAnalyzer.is_morph item); [done|].
  cbn [orb negb]. intros Hrest. by rewrite IH.
Qed.

(** X13: on a pipeline whose [has_morph()] is false, [no_morph] makes no
    difference. *)
Theorem no_morph_without_morph (items : list stage) (value : string)
    (kw : kwargs) (w : world) :
  CompositeAnalyzer.has_morph items = false ->
  CompositeAnalyzer.__call__ items value true kw w
  = CompositeAnalyzer.__call__ items value false kw w.
Proof.
  unfold CompositeAnalyzer.has_morph. destruct items as [|first rest]; [done|].
  cbn [existsb]. intros [_ Hrest]%orb_false_elim.
  unfold CompositeAnalyzer.__call__.
  destruct (tokenize first value kw); [|done].
  by rewrite run_filters_no_morph, filter_no_morph.
Qed.

Lemma no_morph_without_morph_witness :
  CompositeAnalyzer.__call__
    [RegexTokenizer default_pattern false; LowercaseFilter;
     StopFilter STOP_WORDS 2 None false] "To be or not" true no_kwargs empty_world
  = CompositeAnalyzer.__call__
      [RegexTokenizer default_pattern false; LowercaseFilter;
       StopFilter STOP_WORDS 2 None false] "To be or not" false no_kwargs empty_world.
Proof.
  exact (no_morph_without_morph
           [RegexTokenizer default_pattern false; LowercaseFilter;
            StopFilter STOP_WORDS 2 None false]
           "To be or not" no_kwargs empty_world eq_refl).
Defined.

(** X14: [StemmingAnalyzer(...)] called with [no_morph=True] is
    [StandardAnalyzer(...)] with the same pattern, stop list, sizes and
    [gaps]: both are pipelines, and the call of the first with the flag
    returns what the call of the second returns without it, for every
    stemmer, ignore list and input. *)
Theorem stemming_no_morph_is_standard (expression : re.Pattern)
    (stoplist : option (gset string)) (minsize : Z) (maxsize : option Z)
    (gaps : bool) (stemmer : option Stemmer) (ignore : option (list string))
    (by_lang : Stemmer) :
  exists items items',
    StemmingAnalyzer expression stoplist minsize maxsize gaps stemmer ignore by_lang
    = Ok (CompositeAnalyzer items)
    /\ StandardAnalyzer expression stoplist minsize maxsize gaps
       = Ok (CompositeAnalyzer items')
    /\ forall (value : string) (kw : kwargs) (w : world),
         CompositeAnalyzer.__call__ items value true kw w
         = CompositeAnalyzer.__call__ items' value false kw w.
Proof.
  destruct stoplist as [stops|]; eexists _, _;
    (split; [reflexivity|]); (split; [reflexivity|]); intros value kw w;
    reflexivity.
Qed.

(** ** What composition keeps *)

Lemma items_of_width (X : composable) : width X = List.length (items_of X).
Proof. by destruct X. Qed.

Lemma items_of_has_morph (X : composable) :
  has_morph X = existsb CompositeAnalyzer.is_morph (items_of X).
Proof. destruct X as [s|items]; [|done]. cbn. by rewrite orb_false_r. Qed.

(** X15: when [X | Y] is a pipeline, it has as many stages as [X] and [Y]
    together (a stage on its own counting as one), and [has_morph()] of
    it is true exactly when it is for [X] or for [Y]. *)
Theorem or_width_has_morph (X Y Z : composable) :
  __or__ X (Composable Y) = Ok Z ->
  width Z = (width X + width Y)%nat
  /\ has_morph Z = has_morph X || has_morph Y.
Proof.
  rewrite or_composable.
  destruct (existsb is_tokenizer (tail (items_of X ++ items_of Y))); [done|].
  intros [= <-].
  rewrite !items_of_has_morph, !items_of_width. cbn [items_of].
  by rewrite length_app, existsb_app.
Qed.

Lemma or_width_has_morph_witness :
  width (CompositeAnalyzer
           [RegexTokenizer default_pattern false; LowercaseFilter;
            StemFilter {| stemmer_id := 0; stem := str_lower |} "english" ∅])
  = (width (CompositeAnalyzer [RegexTokenizer default_pattern false; LowercaseFilter])
     + width (Single (StemFilter {| stemmer_id := 0; stem := str_lower |} "english" ∅)))%nat
  /\ has_morph (CompositeAnalyzer
                  [RegexTokenizer default_pattern false; LowercaseFilter;
                   StemFilter {| stemmer_id := 0; stem := str_lower |} "english" ∅])
     = has_morph (CompositeAnalyzer [RegexTokenizer default_pattern false; LowercaseFilter])
       || has_morph (Single (StemFilter {| stemmer_id := 0; stem := str_lower |} "english" ∅)).
Proof.
  exact (or_width_has_morph
           (CompositeAnalyzer [RegexTokenizer default_pattern false; LowercaseFilter])
           (Single (StemFilter {| stemmer_id := 0; stem := str_lower |} "english" ∅))
           _ eq_refl).
Defined.

(** ** [whooshy.core.tokenize] *)

Lemma snapshots_rounds_text (positions chars : bool) (text_stream : list string) :
  forall (pos char : Z) (t : Token),
    map Token.text (snapshots t (core.rounds positions chars text_stream pos char))
    = text_stream.
Proof.
  induction text_stream as [|text text_stream IH]; intros pos char t; [done|].
  cbn [core.rounds snapshots map]. rewrite IH. f_equal.
  unfold core.on_text, when. by destruct positions, chars.
Qed.

Lemma snapshots_rounds_pos (chars : bool) (text_stream : list string) :
  forall (pos char : Z) (t : Token),
    map Token.pos (snapshots t (core.rounds true chars text_stream pos char))
    = imap (fun i _ => pos + Z.of_nat i) text_stream.
Proof.
  induction text_stream as [|text text_stream IH]; intros pos char t; [done|].
  cbn [core.rounds snapshots map]. rewrite imap_cons, IH. f_equal.
  - unfold core.on_text, when. destruct chars; cbn; lia.
  - apply imap_ext. intros i x _. cbn. lia.
Qed.

Lemma snapshots_rounds_no_pos (chars : bool) (text_stream : list string) :
  forall (pos char : Z) (t : Token),
    map Token.pos (snapshots t (core.rounds false chars text_stream pos char))
    = map (fun _ => Token.pos t) text_stream.
Proof.
  induction text_stream as [|text text_stream IH]; intros pos char t; [done|].
  cbn [core.rounds snapshots map]. rewrite IH.
  unfold core.on_text, when. by destruct chars.
Qed.

Lemma snapshots_rounds_chars (positions : bool) (text_stream : list string) :
  forall (pos char : Z) (t : Token),
    contiguous char
      (snapshots t (core.rounds positions true text_stream pos char)).
Proof.
  induction text_stream as [|text text_stream IH]; intros pos char t; [done|].
  cbn [core.rounds snapshots contiguous].
  assert (Token.start_char (core.on_text positions true text pos char t) = char
          /\ Token.end_char (core.on_text positions true text pos char t)
             = char + len text
          /\ Token.text (core.on_text positions true text pos char t) = text)
    as (Hstart & Hend & Htext)
    by (unfold core.on_text, when; by destruct positions).
  rewrite Hstart, Hend, Htext. repeat split. apply IH.
Qed.

Lemma snapshots_rounds_no_chars (positions : bool) (text_stream : list string) :
  forall (pos char : Z) (t : Token),
    Forall (fun t' => Token.start_char t' = Token.start_char t
                      /\ Token.end_char t' = Token.end_char t)
      (snapshots t (core.rounds positions false text_stream pos char)).
Proof.
  induction text_stream as [|text text_stream IH]; intros pos char t;
    [constructor|].
  cbn [core.rounds snapshots].
  assert (Token.start_char (core.on_text positions false text pos char t)
          = Token.start_char t
          /\ Token.end_char (core.on_text positions false text pos char t)
             = Token.end_char t) as [Hstart Hend]
    by (unfold core.on_text, when; by destruct positions).
  constructor; [done|].
  specialize (IH (if positions then pos + 1 else pos) char
                (core.on_text positions false text pos char t)).
  rewrite Hstart, Hend in IH. exact IH.
Qed.

(** X16: [tokenize] turns a sequence of strings into as many tokens, with
    these strings as texts, in order.  With [positions] they are numbered
    from [start_pos]; with [chars] each covers as many characters as its
    text is long and starts where the one before ends, the first at
    [start_char], so nothing is counted for a separator.  Without the
    options [pos], [start_char] and [end_char] stay 0. *)
Theorem core_tokenize_tokens (text_stream : list string) (positions chars : bool)
    (start_pos start_char : Z) (remove_stopwords : bool) (mode : string)
    (w : world) :
  exists ts w',
    drain (core.tokenize text_stream positions chars start_pos start_char
             remove_stopwords mode) w = Ok (ts, w')
    /\ map Token.text ts = text_stream
    /\ map Token.pos ts
       = (if positions
          then imap (fun i _ => start_pos + Z.of_nat i) text_stream
          else map (fun _ => 0) text_stream)
    /\ (if chars
        then contiguous start_char ts
        else Forall (fun t => Token.start_char t = 0 /\ Token.end_char t = 0) ts).
Proof.
  unfold core.tokenize. rewrite drain_generator.
  eexists _, _. split; [reflexivity|].
  split; [apply snapshots_rounds_text|]. split.
  - destruct positions;
      [apply snapshots_rounds_pos | apply snapshots_rounds_no_pos].
  - destruct chars; [apply snapshots_rounds_chars|].
    apply (snapshots_rounds_no_chars positions text_stream start_pos start_char
             (Token.__init__ positions false remove_stopwords mode)).
Qed.

(** ** The one token object *)

Lemma after_rounds_lookup (steps : list (Token -> Token)) :
  forall (r : ref) (t : Token) (w : world),
    heap w !! r = Some t ->
    heap (after_rounds r steps w) !! r = Some (fold_left (fun t f => f t) steps t).
Proof.
  induction steps as [|f steps IH]; intros r t w Hr; [done|].
  cbn [after_rounds fold_left]. apply (IH r (f t)). by apply update_lookup.
Qed.

Lemma last_snapshots (steps : list (Token -> Token)) :
  forall (f : Token -> Token) (t : Token),
    last (snapshots t (f :: steps))
    = Some (fold_left (fun t f => f t) (f :: steps) t).
Proof.
  induction steps as [|g steps IH]; intros f t; [done|].
  cbn [snapshots fold_left] in *. rewrite last_cons_cons. apply IH.
Qed.

Lemma to_list_unfold (it : iter) (w : world) :
  to_list it w
  = match next it w with
    | Raise e => Err e
    | Done w' => Ok ([], w')
    | Yield r it' w' =>
        match to_list it' w' with
        | Ok (rs, w'') => Ok (r :: rs, w'')
        | Err e => Err e
        end
    end.
Proof. by destruct it. Qed.

Lemma to_list_resume (steps : list (Token -> Token)) :
  forall (r : ref) (w : world),
    to_list (resume r steps None) w
    = Ok (replicate (List.length steps) r, after_rounds r steps w).
Proof.
  induction steps as [|f steps IH]; intros r w; [done|].
  rewrite to_list_unfold. cbn [resume next]. by rewrite IH.
Qed.

Lemma to_list_resume_raise (e : exn) (steps : list (Token -> Token)) :
  forall (r : ref) (w : world), to_list (resume r steps (Some e)) w = Err e.
Proof.
  induction steps as [|f steps IH]; intros r w; [done|].
  rewrite to_list_unfold. cbn [resume next]. by rewrite IH.
Qed.

(** X17: a consumer that keeps the tokens of a tokenizer's stream, as
    [list(gen)] does, holds one object as many times as tokens were
    yielded: read afterwards, every entry shows the last token. *)
Theorem kept_tokens_are_the_last (s : stage) (value : string) (kw : kwargs)
    (gen : iter) (w w1 : world) (kept : list ref) :
  tokenize s value kw = Some gen ->
  to_list gen w = Ok (kept, w1) ->
  exists ts w2,
    drain gen w = Ok (ts, w2)
    /\ List.length kept = List.length ts
    /\ Forall (fun entry => entry = last ts) (read kept w1).
Proof.
  intros Hgen Hkept.
  destruct (tokenize_rounds s value kw gen Hgen) as (t0 & steps & fin & -> & _).
  rewrite to_list_unfold in Hkept. cbn [generator next alloc] in Hkept.
  rewrite <- to_list_unfold in Hkept.
  destruct fin as [e|]; [by rewrite to_list_resume_raise in Hkept|].
  rewrite to_list_resume in Hkept. injection Hkept as <- <-.
  rewrite drain_generator. eexists _, _. split; [reflexivity|].
  rewrite snapshots_length, length_replicate. split; [done|].
  unfold read. apply Forall_map, Forall_forall.
  intros r [-> Hsome]%elem_of_replicate.
  destruct steps as [|f steps]; [by destruct Hsome|].
  rewrite last_snapshots.
  apply after_rounds_lookup, alloc_lookup.
Qed.

Lemma kept_tokens_are_the_last_witness :
  exists kept w1,
    to_list (RegexTokenizer.__call__ default_pattern false "one two" no_kwargs)
      empty_world = Ok (kept, w1)
    /\ exists ts w2,
         drain (RegexTokenizer.__call__ default_pattern false "one two" no_kwargs)
           empty_world = Ok (ts, w2)
         /\ List.length kept = List.length ts
         /\ Forall (fun entry => entry = last ts) (read kept w1).
Proof.
  refine (ex_intro _ _ (ex_intro _ _ (conj eq_refl _))).
  exact (kept_tokens_are_the_last (RegexTokenizer default_pattern false) "one two"
           no_kwargs _ empty_world _ _ eq_refl eq_refl).
Defined.

Lemma copies_unfold (it : iter) (w : world) :
  copies it w
  = match next it w with
    | Raise e => Err e
    | Done w' => Ok ([], w')
    | Yield r it' w' =>
        match core.copy r w' with
        | Err e => Err e
        | Ok (c, w'') =>
            match copies it' w'' with
            | Ok (cs, w3) => Ok (c :: cs, w3)
            | Err e => Err e
            end
        end
    end.
Proof. by destruct it. Qed.

Lemma copies_resume (steps : list (Token -> Token)) :
  forall (r : ref) (t : Token) (w : world),
    heap w !! r = Some t ->
    exists cs w1,
      copies (resume r steps None) w = Ok (cs, w1)
      /\ read cs w1 = map Some (snapshots t steps)
      /\ forall c x, c <> r -> heap w !! c = Some x -> heap w1 !! c = Some x.
Proof.
  induction steps as [|f steps IH]; intros r t w Hr.
  - by exists [], w.
  - pose proof (update_lookup f t r w Hr) as Hr'.
    assert (r < List.length (heap (update f r w)))%nat as Hbound
      by by eapply lookup_lt_Some.
    assert (heap (World (heap (update f r w) ++ [f t]) (log (update f r w))) !! r
            = Some (f t)) as Hr''
      by (cbn [heap]; by apply lookup_app_l_Some).
    destruct (IH r (f t) _ Hr'') as (cs & w1 & Hcopies & Hread & Hkeeps).
    exists (List.length (heap (update f r w)) :: cs), w1.
    rewrite copies_unfold. cbn [resume next]. unfold core.copy, alloc.
    rewrite Hr', Hcopies. split; [done|]. split.
    + cbn [read map snapshots]. f_equal; [|exact Hread].
      apply Hkeeps; [lia|]. apply alloc_lookup.
    + intros c x Hc Hx. apply Hkeeps; [done|].
      cbn [heap]. apply lookup_app_l_Some.
      unfold update. cbn [heap]. by rewrite list_lookup_alter_ne.
Qed.

(** X18: a consumer that copies each token of a tokenizer's stream when it
    is yielded, with [Token.copy], holds the tokens as they were yielded:
    the later rounds of the tokenizer do not change the copies. *)
Theorem copied_tokens_are_kept (s : stage) (value : string) (kw : kwargs)
    (gen : iter) (w w2 : world) (ts : list Token) :
  tokenize s value kw = Some gen ->
  drain gen w = Ok (ts, w2) ->
  exists cs w1,
    copies gen w = Ok (cs, w1) /\ read cs w1 = map Some ts.
Proof.
  intros Hgen Hts.
  destruct (tokenize_rounds s value kw gen Hgen) as (t0 & steps & fin & -> & _).
  destruct fin as [e|]; [by rewrite drain_generator_raise in Hts|].
  rewrite drain_generator in Hts. injection Hts as <- _.
  destruct (copies_resume steps _ t0 _ (alloc_lookup t0 w))
    as (cs & w1 & Hcopies & Hread & _).
  exists cs, w1. split; [|done].
  rewrite <- Hcopies.
  by rewrite (copies_unfold (generator _ _ _)), (copies_unfold (resume _ _ _)).
Qed.

Lemma copied_tokens_are_kept_witness :
  exists ts w2,
    drain (RegexTokenizer.__call__ default_pattern false "one two" no_kwargs)
      empty_world = Ok (ts, w2)
    /\ exists cs w1,
         copies (RegexTokenizer.__call__ default_pattern false "one two" no_kwargs)
           empty_world = Ok (cs, w1)
         /\ read cs w1 = map Some ts.
Proof.
  refine (ex_intro _ _ (ex_intro _ _ (conj eq_refl _))).
  exact (copied_tokens_are_kept (RegexTokenizer default_pattern false) "one two"
           no_kwargs _ empty_world _ _ eq_refl eq_refl).
Defined.

(** ** LoggingFilter *)

Lemma drain_logging_resume (logger : string) (steps : list (Token -> Token)) :
  forall (r : ref) (t : Token) (w : world),
    heap w !! r = Some t ->
    exists w2,
      drain (LoggingFilter.__call__ logger (resume r steps None)) w
      = Ok (snapshots t steps, w2)
      /\ log w2 = log w ++ map (pair logger) (snapshots t steps).
Proof.
  induction steps as [|f steps IH]; intros r t w Hr.
  - exists w. rewrite drain_unfold, next_logging. cbn [resume next].
    by rewrite app_nil_r.
  - pose proof (update_lookup f t r w Hr) as Hr'.
    assert (heap (LoggingFilter.debug logger (f t) (update f r w)) !! r
            = Some (f t)) as Hr'' by exact Hr'.
    destruct (IH r (f t) _ Hr'') as (w2 & Hrest & Hlog).
    exists w2. rewrite drain_unfold, next_logging. cbn [resume next].
    rewrite Hr', Hr'', Hrest. split; [done|].
    rewrite Hlog. cbn [LoggingFilter.debug log update snapshots map].
    by rewrite <- app_assoc.
Qed.

(** X19: a [LoggingFilter] behind a tokenizer hands on the tokens as they
    are, and reports each of them once to its logger, in the order of the
    stream and as the token is at that moment. *)
Theorem logging_filter_reports (logger : string) (s : stage) (value : string)
    (kw : kwargs) (gen : iter) (w w1 : world) (ts : list Token) :
  tokenize s value kw = Some gen ->
  drain gen w = Ok (ts, w1) ->
  exists w2,
    drain (LoggingFilter.__call__ logger gen) w = Ok (ts, w2)
    /\ log w2 = log w ++ map (pair logger) ts.
Proof.
  intros Hgen Hts.
  destruct (tokenize_rounds s value kw gen Hgen) as (t0 & steps & fin & -> & _).
  destruct fin as [e|]; [by rewrite drain_generator_raise in Hts|].
  rewrite drain_generator in Hts. injection Hts as <- _.
  destruct (drain_logging_resume logger steps _ t0 _ (alloc_lookup t0 w))
    as (w2 & Hdrain & Hlog).
  exists w2. split; [|exact Hlog].
  rewrite <- Hdrain.
  rewrite (drain_unfold (LoggingFilter.__call__ _ (generator _ _ _))),
    (drain_unfold (LoggingFilter.__call__ _ (resume _ _ _))), !next_logging.
  done.
Qed.

Lemma logging_filter_reports_witness :
  exists ts w1,
    drain (RegexTokenizer.__call__ default_pattern false "one two" no_kwargs)
      empty_world = Ok (ts, w1)
    /\ exists w2,
         drain (LoggingFilter.__call__ "whooshy.analysis"
                  (RegexTokenizer.__call__ default_pattern false "one two" no_kwargs))
           empty_world = Ok (ts, w2)
         /\ log w2 = log empty_world ++ map (pair "whooshy.analysis") ts.
Proof.
  refine (ex_intro _ _ (ex_intro _ _ (conj eq_refl _))).
  exact (logging_filter_reports "whooshy.analysis"
           (RegexTokenizer default_pattern false) "one two" no_kwargs _
           empty_world _ _ eq_refl eq_refl).
Defined.

(** ** What the call of a pipeline runs *)

Lemma call_runs_nothing (item : stage) (gen : iter) (w : world) :
  takes_first item = false -> exists gen', call item gen w = Ok (gen', w).
Proof. destruct item; try discriminate; intros _; by eexists. Qed.

Lemma run_filters_run_nothing (no_morph : bool) (items : list stage) :
  forallb (fun item => negb (takes_first item)) items = true ->
  forall (gen : iter) (w : world),
    exists gen', CompositeAnalyzer.run_filters no_morph items gen w = Ok (gen', w).
Proof.
  induction items as [|item items IH]; intros Hitems gen w; [by eexists|].
  cbn [forallb] in Hitems. apply andb_prop in Hitems as [Hitem Hitems].
  apply negb_true_iff in Hitem.
  cbn [CompositeAnalyzer.run_filters].
  destruct (negb (no_morph && CompositeAnalyzer.is_morph item)); [|by apply IH].
  destruct (call_runs_nothing item gen w Hitem) as [gen' ->]. cbn [bind].
  by apply IH.
Qed.

(** X20: calling a pipeline that starts with a tokenizer and holds no
    [MultiFilter] runs nothing of the stages: the call returns a stream,
    never an exception, and leaves the store as it is; whatever the stages
    raise shows when the stream is read. *)
Theorem pipeline_call_is_lazy (first : stage) (rest : list stage) (value : string)
    (no_morph : bool) (kw : kwargs) (w : world) :
  is_tokenizer first = true ->
  forallb (fun item => negb (takes_first item)) rest = true ->
  exists gen,
    CompositeAnalyzer.__call__ (first :: rest) value no_morph kw w = Ok (gen, w).
Proof.
  intros Hfirst Hrest. unfold CompositeAnalyzer.__call__.
  destruct first; try discriminate; cbn [tokenize];
    by apply run_filters_run_nothing.
Qed.

Lemma pipeline_call_is_lazy_witness :
  exists gen,
    CompositeAnalyzer.__call__
      [CharsetTokenizer folding; LowercaseFilter; StopFilter STOP_WORDS 2 None false]
      "A?" false no_kwargs empty_world = Ok (gen, empty_world).
Proof.
  exact (pipeline_call_is_lazy (CharsetTokenizer folding)
           [LowercaseFilter; StopFilter STOP_WORDS 2 None false]
           "A?" false no_kwargs empty_world eq_refl eq_refl).
Defined.

(** ** StopFilter: renumbering *)

Lemma loop_over_renumber (stops : gset string) (minsize : Z) (maxsize : option Z)
    (steps : list (Token -> Token)) :
  Forall tokenizer_round steps ->
  forall (pos : option Z) (t : Token),
    Token.positions t = true ->
    exists first : Z,
      (forall p, pos = Some p -> first = p + 1)
      /\ map Token.pos
           (unmarked (loop_over (StopFilter.body stops minsize maxsize true) pos t steps))
         = imap (fun i _ => first + Z.of_nat i)
             (unmarked (loop_over (StopFilter.body stops minsize maxsize true) pos t steps)).
Proof.
  induction 1 as [|f steps Hf _ IH]; intros pos t Ht.
  - exists (default 0 pos + 1). split; [by intros p ->|done].
  - destruct Hf as (_ & _ & Hpositions & _).
    assert (Token.positions (f t) = true) as Hm by by rewrite Hpositions.
    cbn [loop_over]. unfold StopFilter.body at 1 3. rewrite Hm. cbn [andb].
    revert Hm. generalize (f t) as m. intros m Hm.
    destruct (StopFilter.passes stops minsize maxsize (Token.text m)).
    + destruct pos as [p|].
      * destruct (IH (Some (p + 1))
                    (Token.set_stopped false (Token.set_pos (p + 1) m)))
          as (first & Hfirst & Hrest); [by destruct m|].
        rewrite (Hfirst _ eq_refl) in Hrest.
        exists (p + 1). split; [by intros ? [= ->]|].
        cbn [app unmarked List.filter Token.stopped Token.set_stopped negb map].
        fold (unmarked
                (loop_over (StopFilter.body stops minsize maxsize true)
                   (Some (p + 1))
                   (Token.set_stopped false (Token.set_pos (p + 1) m)) steps)).
        rewrite imap_cons, Hrest. f_equal; [cbn; lia|].
        apply imap_ext. intros i x _. cbn. lia.
      * destruct (IH (Some (Token.pos m)) (Token.set_stopped false m))
          as (first & Hfirst & Hrest); [by destruct m|].
        rewrite (Hfirst _ eq_refl) in Hrest.
        exists (Token.pos m). split; [done|].
        cbn [app unmarked List.filter Token.stopped Token.set_stopped negb map].
        fold (unmarked
                (loop_over (StopFilter.body stops minsize maxsize true)
                   (Some (Token.pos m)) (Token.set_stopped false m) steps)).
        rewrite imap_cons, Hrest. f_equal; [by destruct m; cbn; lia|].
        apply imap_ext. intros i x _. cbn. lia.
    + destruct (negb (Token.remove_stopwords m)).
      * destruct (IH pos (Token.set_stopped true m)) as (first & Hfirst & Hrest);
          [by destruct m|].
        exists first. split; [exact Hfirst|].
        cbn [app unmarked List.filter Token.stopped Token.set_stopped negb].
        exact Hrest.
      * destruct (IH pos m Hm) as (first & Hfirst & Hrest).
        exists first. split; [exact Hfirst|]. exact Hrest.
Qed.

Ltac assigns_pos Hpos :=
  unfold when; rewrite ?Hpos; intros;
  repeat match goal with
         | |- context [if ?b then _ else _] => destruct b
         end;
  repeat match goal with
         | t : Token |- _ => destruct t
         end;
  reflexivity.

Lemma split_assign_pos (value : string) (kw : kwargs) (matches : list re.Match) :
  kw_positions kw = true ->
  forall prevend pos : Z,
    Forall (fun f => forall t t', Token.pos (f t) = Token.pos (f t'))
      (RegexTokenizer.split value kw matches prevend pos).
Proof.
  intros Hpos.
  induction matches as [|m matches IH]; intros prevend pos;
    cbn [RegexTokenizer.split].
  - destruct (prevend <? len value); [|constructor].
    constructor; [|constructor]. unfold RegexTokenizer.on_tail. assigns_pos Hpos.
  - destruct (truthy _); [constructor|]; [|apply IH..].
    unfold RegexTokenizer.on_gap. assigns_pos Hpos.
Qed.

Lemma walk_assign_pos (char_map : gmap N (option string)) (value : string)
    (kw : kwargs) (rest : string) :
  kw_positions kw = true ->
  forall (text : string) (pos start current : Z),
    Forall (fun f => forall t t', Token.pos (f t) = Token.pos (f t'))
      (fst (CharsetTokenizer.walk char_map value kw rest text pos start current)).
Proof.
  intros Hpos.
  induction rest as [|c rest IH]; intros text pos start current;
    cbn [CharsetTokenizer.walk].
  - destruct (start <? current); [|constructor].
    constructor; [|constructor]. unfold CharsetTokenizer.on_end. assigns_pos Hpos.
  - destruct (char_map !! ord c) as [tchar|]; [|constructor].
    destruct (CharsetTokenizer.is_kept tchar); [apply IH|].
    specialize (IH "" (if (start <? current) && kw_positions kw
                       then pos + 1 else pos) (current + 1) (current + 1)).
    destruct (CharsetTokenizer.walk _ _ _ rest _ _ _ _) as [steps fin].
    cbn [fst] in *.
    destruct (start <? current); [constructor|]; [|done..].
    unfold CharsetTokenizer.on_break. assigns_pos Hpos.
Qed.

Lemma prefixes_assign_pos (value : string) (kw : kwargs) (matches : list re.Match) :
  kw_positions kw = true ->
  forall pos : Z,
    Forall (fun f => forall t t', Token.pos (f t) = Token.pos (f t'))
      (PathTokenizer.prefixes value kw matches pos).
Proof.
  intros Hpos.
  induction matches as [|m matches IH]; intros pos; constructor; [|apply IH].
  assigns_pos Hpos.
Qed.

(** Called with [positions=True], every tokenizer numbers its token in
    every round, whatever number the token had. *)
Lemma tokenize_positions (s : stage) (value : string) (kw : kwargs) (gen : iter) :
  tokenize s value kw = Some gen ->
  kw_positions kw = true ->
  exists t0 steps fin,
    gen = generator t0 steps fin
    /\ Token.positions t0 = true
    /\ Forall tokenizer_round steps
    /\ Forall (fun f => forall t t', Token.pos (f t) = Token.pos (f t')) steps.
Proof.
  destruct s; try discriminate; intros [= <-] Hpos; cbn [tokenize].
  - eexists _, _, _. split; [reflexivity|]. split; [exact Hpos|]. split.
    + constructor; [tokenizer_round | constructor].
    + constructor; [|constructor]. assigns_pos Hpos.
  - unfold RegexTokenizer.__call__.
    eexists _, _, _. split; [reflexivity|]. split; [exact Hpos|].
    split; [apply regex_rounds|].
    destruct (kw_tokenize kw); cbn [negb].
    + destruct gaps; cbn [negb]; [by apply split_assign_pos|].
      apply imap_all. intros i m. unfold RegexTokenizer.on_match. assigns_pos Hpos.
    + constructor; [|constructor]. unfold RegexTokenizer.whole. assigns_pos Hpos.
  - unfold CharsetTokenizer.__call__.
    destruct (kw_tokenize kw); cbn [negb].
    + pose proof (walk_rounds char_map value kw value "" (kw_start_pos kw)
                    (kw_start_char kw) (kw_start_char kw)) as Hrounds.
      pose proof (walk_assign_pos char_map value kw value Hpos "" (kw_start_pos kw)
                    (kw_start_char kw) (kw_start_char kw)) as Hassign.
      destruct (CharsetTokenizer.walk _ _ _ _ _ _ _ _) as [steps fin].
      by eexists _, _, _.
    + eexists _, _, _. split; [reflexivity|]. split; [exact Hpos|]. split.
      * constructor; [apply whole_round | constructor].
      * constructor; [|constructor].
        unfold CharsetTokenizer.whole, RegexTokenizer.whole. assigns_pos Hpos.
  - unfold PathTokenizer.__call__.
    eexists _, _, _. split; [reflexivity|]. split; [exact Hpos|].
    split; [apply prefixes_rounds | by apply prefixes_assign_pos].
Qed.

(** From the first token that passes the stop test on, the numbers are
    those of the tokenizer for that token, plus one for each one kept. *)
Lemma loop_over_renumber_first (stops : gset string) (minsize : Z)
    (maxsize : option Z) (steps : list (Token -> Token)) :
  Forall tokenizer_round steps ->
  Forall (fun f => forall t t', Token.pos (f t) = Token.pos (f t')) steps ->
  forall t t' : Token,
    Token.positions t = true ->
    match List.find (fun x => StopFilter.passes stops minsize maxsize (Token.text x))
            (snapshots t' steps) with
    | Some t1 =>
        map Token.pos
          (unmarked (loop_over (StopFilter.body stops minsize maxsize true) None t steps))
        = imap (fun i _ => Token.pos t1 + Z.of_nat i)
            (unmarked (loop_over (StopFilter.body stops minsize maxsize true) None t steps))
    | None =>
        unmarked (loop_over (StopFilter.body stops minsize maxsize true) None t steps)
        = []
    end.
Proof.
  induction 1 as [|f steps Hf Hrounds IH]; intros Hassign t t' Ht; [done|].
  inversion Hassign as [|? ? Hpos Hassign']; subst.
  destruct Hf as (Htext & _ & Hpositions & _).
  assert (Token.positions (f t) = true) as Hm by by rewrite Hpositions.
  specialize (Htext t t'). specialize (Hpos t t').
  assert (loop_over (StopFilter.body stops minsize maxsize true) None t (f :: steps)
          = if StopFilter.passes stops minsize maxsize (Token.text (f t'))
            then Token.set_stopped false (f t)
                   :: loop_over (StopFilter.body stops minsize maxsize true)
                        (Some (Token.pos (f t))) (Token.set_stopped false (f t)) steps
            else if negb (Token.remove_stopwords (f t))
                 then Token.set_stopped true (f t)
                        :: loop_over (StopFilter.body stops minsize maxsize true)
                             None (Token.set_stopped true (f t)) steps
                 else loop_over (StopFilter.body stops minsize maxsize true)
                        None (f t) steps) as Hstep.
  { cbn [loop_over]. unfold StopFilter.body at 1. rewrite Hm, Htext. cbn [andb].
    destruct (StopFilter.passes _ _ _ _); [done|].
    by destruct (negb _). }
  rewrite Hstep. clear Hstep. cbn [snapshots List.find].
  revert Hm Hpos. generalize (f t) as m. generalize (f t') as m'.
  intros m' m Hm Hpos.
  destruct (StopFilter.passes stops minsize maxsize (Token.text m')).
  - destruct (loop_over_renumber stops minsize maxsize steps Hrounds
                (Some (Token.pos m)) (Token.set_stopped false m))
      as (first & Hfirst & Hrest); [by destruct m|].
    rewrite (Hfirst _ eq_refl) in Hrest.
    cbn [unmarked List.filter Token.stopped Token.set_stopped negb map].
    fold (unmarked
            (loop_over (StopFilter.body stops minsize maxsize true)
               (Some (Token.pos m)) (Token.set_stopped false m) steps)).
    rewrite imap_cons, Hrest. f_equal; [by destruct m; cbn in *; lia|].
    apply imap_ext. intros i x _. cbn. lia.
  - destruct (negb (Token.remove_stopwords m)).
    + cbn [unmarked List.filter Token.stopped Token.set_stopped negb].
      fold (unmarked
              (loop_over (StopFilter.body stops minsize maxsize true)
                 None (Token.set_stopped true m) steps)).
      apply (IH Hassign' (Token.set_stopped true m) m'). by destruct m.
    + apply (IH Hassign' m m' Hm).
Qed.

(** X21: behind a tokenizer called with [positions=True], a [StopFilter]
    with [renumber=True] leaves no holes: the tokens that come out not
    marked as stopped are numbered one after the other, from the number
    the tokenizer gave to the first token that passes the stop test; when
    no token passes it, none comes out unmarked. *)
Theorem stop_filter_renumber (s : stage) (value : string) (kw : kwargs)
    (stops : gset string) (minsize : Z) (maxsize : option Z)
    (gen : iter) (w w0 : world) (raw : list Token) :
  tokenize s value kw = Some gen ->
  kw_positions kw = true ->
  drain gen w = Ok (raw, w0) ->
  exists ts w',
    drain (StopFilter.__call__ stops minsize maxsize true gen) w = Ok (ts, w')
    /\ match List.find
               (fun t => StopFilter.passes stops minsize maxsize (Token.text t))
               raw with
       | Some t1 =>
           map Token.pos (unmarked ts)
           = imap (fun i _ => Token.pos t1 + Z.of_nat i) (unmarked ts)
       | None => unmarked ts = []
       end.
Proof.
  intros Hgen Hpositions Hraw.
  destruct (tokenize_positions s value kw gen Hgen Hpositions)
    as (t0 & steps & fin & -> & Ht0 & Hrounds & Hassign).
  destruct fin as [e|]; [by rewrite drain_generator_raise in Hraw|].
  rewrite drain_generator in Hraw. injection Hraw as <- _.
  unfold StopFilter.__call__.
  destruct (drain_for_in_generator (StopFilter.body stops minsize maxsize true)
              None t0 steps w) as [w1 ->].
  eexists _, _. split; [reflexivity|].
  by apply loop_over_renumber_first.
Qed.

Lemma stop_filter_renumber_witness :
  exists raw w0,
    drain (RegexTokenizer.__call__ default_pattern false "a cat is on the mat"
             (positions_kwargs 0))
      empty_world = Ok (raw, w0)
    /\ exists ts w',
         drain (StopFilter.__call__ STOP_WORDS 2 None true
                  (RegexTokenizer.__call__ default_pattern false
                     "a cat is on the mat" (positions_kwargs 0)))
           empty_world = Ok (ts, w')
         /\ match List.find
                    (fun t => StopFilter.passes STOP_WORDS 2 None (Token.text t))
                    raw with
            | Some t1 =>
                map Token.pos (unmarked ts)
                = imap (fun i _ => Token.pos t1 + Z.of_nat i) (unmarked ts)
            | None => unmarked ts = []
            end.
Proof.
  eexists _, _.
  refine ((fun Hraw =>
             conj Hraw
               (stop_filter_renumber (RegexTokenizer default_pattern false)
                  "a cat is on the mat" (positions_kwargs 0) STOP_WORDS 2 None
                  _ empty_world _ _ eq_refl eq_refl Hraw)) _).
  vm_compute. reflexivity.
Defined.

(** ** Filters applied twice *)

Section Simulation.

Context {S1 S2 : Type} (body1 : S1 -> Token -> S1 * Token * bool)
  (body2 : S2 -> Token -> S2 * Token * bool) (related : S1 -> S2 -> Prop).

Hypothesis body_related :
  forall s1 s2 t,
    related s1 s2 ->
    related (fst (fst (body1 s1 t))) (fst (fst (body2 s2 t)))
    /\ snd (fst (body1 s1 t)) = snd (fst (body2 s2 t))
    /\ snd (body1 s1 t) = snd (body2 s2 t).

(** Two loops whose bodies do the same to every token give the same
    stream. *)
Lemma drain_for_in_related (tokens : iter) :
  forall (s1 : S1) (s2 : S2) (w : world),
    related s1 s2 ->
    drain (for_in body1 s1 tokens) w = drain (for_in body2 s2 tokens) w.
Proof.
  induction tokens as [tokens IH] using iter_next_ind. intros s1 s2 w Hs.
  destruct (next tokens w) as [r tokens' w1|w1|e] eqn:Hnext.
  - destruct (heap w1 !! r) as [t|] eqn:Ht.
    + destruct (body_related s1 s2 t Hs) as (Hs' & Htoken & Hyielded).
      destruct (body1 s1 t) as [[s1' t1] yielded1] eqn:Hbody1.
      destruct (body2 s2 t) as [[s2' t2] yielded2] eqn:Hbody2.
      cbn [fst snd] in Hs', Htoken, Hyielded. subst t2 yielded2.
      assert (next (for_in body1 s1 tokens) w
              = if yielded1
                then Yield r (for_in body1 s1' tokens') (update (fun _ => t1) r w1)
                else next (for_in body1 s1' tokens') (update (fun _ => t1) r w1))
        as Hleft by by rewrite next_for_in, Hnext, Ht, Hbody1.
      assert (next (for_in body2 s2 tokens) w
              = if yielded1
                then Yield r (for_in body2 s2' tokens') (update (fun _ => t1) r w1)
                else next (for_in body2 s2' tokens') (update (fun _ => t1) r w1))
        as Hright by by rewrite next_for_in, Hnext, Ht, Hbody2.
      destruct yielded1.
      * rewrite (drain_unfold (for_in body1 _ _)), Hleft.
        rewrite (drain_unfold (for_in body2 _ _)), Hright.
        by rewrite (IH _ _ _ _ Hnext _ _ _ Hs').
      * rewrite (drain_next _ _ _ _ Hleft), (drain_next _ _ _ _ Hright).
        by apply (IH _ _ _ _ Hnext).
    + rewrite (drain_unfold (for_in body1 _ _)), (drain_unfold (for_in body2 _ _)).
      by rewrite !next_for_in, Hnext, Ht.
  - rewrite (drain_unfold (for_in body1 _ _)), (drain_unfold (for_in body2 _ _)).
    by rewrite !next_for_in, Hnext.
  - rewrite (drain_unfold (for_in body1 _ _)), (drain_unfold (for_in body2 _ _)).
    by rewrite !next_for_in, Hnext.
Qed.

End Simulation.

Lemma chr_lower_idemp (c : ascii) : chr_lower (chr_lower c) = chr_lower c.
Proof. by destruct c as [[] [] [] [] [] [] [] []]. Qed.

Lemma str_lower_idemp (s : string) : str_lower (str_lower s) = str_lower s.
Proof.
  induction s as [|c s IH]; [done|]. cbn [str_lower].
  by rewrite chr_lower_idemp, IH.
Qed.

Lemma str_lstrip_length (s : string) :
  (String.length (str_lstrip s) <= String.length s)%nat.
Proof.
  induction s as [|c s IH]; [done|]. cbn [str_lstrip].
  destruct (chr_isspace c); cbn [String.length]; lia.
Qed.

Lemma str_lstrip_fixed (c : ascii) (s : string) :
  str_lstrip (String c s) = String c s -> chr_isspace c = false.
Proof.
  cbn [str_lstrip]. destruct (chr_isspace c); [|done].
  intros Heq. pose proof (str_lstrip_length s) as Hlen.
  rewrite Heq in Hlen. cbn [String.length] in Hlen. lia.
Qed.

Lemma str_lstrip_idemp (s : string) : str_lstrip (str_lstrip s) = str_lstrip s.
Proof.
  induction s as [|c s IH]; [done|]. cbn [str_lstrip].
  destruct (chr_isspace c) eqn:Hc; [done|]. cbn [str_lstrip]. by rewrite Hc.
Qed.

Lemma str_rstrip_idemp (s : string) : str_rstrip (str_rstrip s) = str_rstrip s.
Proof.
  induction s as [|c s IH]; [done|]. cbn [str_rstrip].
  destruct (str_rstrip s) as [|c' r] eqn:Hr.
  - destruct (chr_isspace c) eqn:Hc; [done|]. cbn [str_rstrip]. by rewrite Hc.
  - cbn [str_rstrip] in *. by rewrite IH.
Qed.

Lemma str_lstrip_rstrip (s : string) :
  str_lstrip s = s -> str_lstrip (str_rstrip s) = str_rstrip s.
Proof.
  destruct s as [|c s]; [done|]. intros Hc%str_lstrip_fixed.
  cbn [str_rstrip]. destruct (str_rstrip s) as [|c' r].
  - rewrite Hc. cbn [str_lstrip]. by rewrite Hc.
  - cbn [str_lstrip]. by rewrite Hc.
Qed.

Lemma str_strip_idemp (s : string) : str_strip (str_strip s) = str_strip s.
Proof.
  unfold str_strip.
  rewrite (str_lstrip_rstrip (str_lstrip s)) by apply str_lstrip_idemp.
  apply str_rstrip_idemp.
Qed.

(** X22: [LowercaseFilter], [StripFilter] and a [StopFilter] that does not
    renumber can be applied twice in a row without harm: on every stream
    the consumer reads what it reads behind one of them, and the store is
    left the same. *)
Theorem filters_twice (stops : gset string) (minsize : Z) (maxsize : option Z)
    (tokens : iter) (w : world) :
  drain (LowercaseFilter.__call__ (LowercaseFilter.__call__ tokens)) w
  = drain (LowercaseFilter.__call__ tokens) w
  /\ drain (StripFilter.__call__ (StripFilter.__call__ tokens)) w
     = drain (StripFilter.__call__ tokens) w
  /\ drain (StopFilter.__call__ stops minsize maxsize false
              (StopFilter.__call__ stops minsize maxsize false tokens)) w
     = drain (StopFilter.__call__ stops minsize maxsize false tokens) w.
Proof.
  unfold LowercaseFilter.__call__, StripFilter.__call__, StopFilter.__call__.
  rewrite !drain_fuse. repeat split.
  - apply (drain_for_in_related _ _ (fun _ _ => True)); [|done].
    intros s1 s2 t _. unfold fuse, LowercaseFilter.body. cbn [fst snd].
    repeat split. destruct t. cbn [Token.text Token.set_text].
    by rewrite str_lower_idemp.
  - apply (drain_for_in_related _ _ (fun _ _ => True)); [|done].
    intros s1 s2 t _. unfold fuse, StripFilter.body. cbn [fst snd].
    repeat split. destruct t. cbn [Token.text Token.set_text].
    by rewrite str_strip_idemp.
  - apply (drain_for_in_related _ _ (fun _ _ => True)); [|done].
    intros s1 s2 t _. unfold fuse, StopFilter.body. cbn [fst snd andb].
    destruct t as [positions chars remove mode boost stopped text original pos
                     start_char end_char].
    cbn [Token.text Token.remove_stopwords Token.set_stopped].
    destruct (StopFilter.passes stops minsize maxsize text) eqn:Hpass.
    + cbn [Token.text Token.set_stopped]. by rewrite Hpass.
    + destruct remove; cbn [negb Token.text Token.remove_stopwords
                                  Token.set_stopped]; [done|].
      by rewrite Hpass.
Qed.

(** ** StemFilter behind the presets *)

Ltac keeps_unstopped :=
  unfold when; intros;
  repeat match goal with
         | |- context [if ?b then _ else _] => destruct b
         end;
  repeat match goal with
         | t : Token |- _ => destruct t
         end;
  token_fields; done.

Lemma split_unstopped (value : string) (kw : kwargs) (matches : list re.Match) :
  forall prevend pos : Z,
    Forall (fun f => forall t, Token.stopped t = false -> Token.stopped (f t) = false)
      (RegexTokenizer.split value kw matches prevend pos).
Proof.
  induction matches as [|m matches IH]; intros prevend pos;
    cbn [RegexTokenizer.split].
  - destruct (prevend <? len value); [|constructor].
    constructor; [|constructor]. unfold RegexTokenizer.on_tail. keeps_unstopped.
  - destruct (truthy _); [constructor|]; [|apply IH..].
    unfold RegexTokenizer.on_gap. keeps_unstopped.
Qed.

(** The generator of the regex tokenizer: its rounds, none of which marks
    a token as stopped. *)
Lemma regex_generator (expression : re.Pattern) (gaps : bool) (value : string)
    (kw : kwargs) :
  exists steps,
    RegexTokenizer.__call__ expression gaps value kw
    = generator (new_token kw) steps None
    /\ Forall tokenizer_round steps
    /\ Forall (fun f => forall t, Token.stopped t = false -> Token.stopped (f t) = false)
         steps.
Proof.
  eexists. split; [reflexivity|]. split; [apply regex_rounds|].
  destruct (kw_tokenize kw); cbn [negb].
  - destruct gaps; cbn [negb]; [apply split_unstopped|].
    apply imap_all. intros i m. unfold RegexTokenizer.on_match. keeps_unstopped.
  - constructor; [|constructor]. unfold RegexTokenizer.whole. keeps_unstopped.
Qed.

Lemma round_stop_stem (stops : gset string) (minsize : Z) (maxsize : option Z)
    (stemmer : Stemmer) (ignore : gset string)
    (s : unit * (option Z * unit)) (s' : unit * option Z) (m m' : Token) :
  Token.text m = Token.text m' ->
  Token.remove_stopwords m = Token.remove_stopwords m' ->
  snd (fuse LowercaseFilter.body
         (fuse (StopFilter.body stops minsize maxsize false)
            (StemFilter.body stemmer ignore)) s m)
  = snd (fuse LowercaseFilter.body
           (StopFilter.body stops minsize maxsize false) s' m')
  /\ Token.remove_stopwords
       (snd (fst (fuse LowercaseFilter.body
                    (fuse (StopFilter.body stops minsize maxsize false)
                       (StemFilter.body stemmer ignore)) s m)))
     = Token.remove_stopwords
         (snd (fst (fuse LowercaseFilter.body
                      (StopFilter.body stops minsize maxsize false) s' m')))
  /\ (snd (fuse LowercaseFilter.body
             (StopFilter.body stops minsize maxsize false) s' m') = true ->
      Token.text
        (snd (fst (fuse LowercaseFilter.body
                     (fuse (StopFilter.body stops minsize maxsize false)
                        (StemFilter.body stemmer ignore)) s m)))
      = (fun text => if StopFilter.passes stops minsize maxsize text
                     then stemmed stemmer ignore text else text)
          (Token.text
             (snd (fst (fuse LowercaseFilter.body
                          (StopFilter.body stops minsize maxsize false) s' m'))))).
Proof.
  destruct m as [positions chars remove mode boost stopped text original pos
                   start_char end_char],
    m' as [positions' chars' remove' mode' boost' stopped' text' original' pos'
             start_char' end_char'].
  cbn [Token.text Token.remove_stopwords]. intros -> ->.
  unfold fuse, LowercaseFilter.body, StopFilter.body, StemFilter.body, stemmed.
  cbn [fst snd andb Token.text Token.set_text].
  destruct (StopFilter.passes stops minsize maxsize (str_lower text')) eqn:Hpass.
  - cbn [fst snd negb Token.text Token.set_text Token.stopped Token.set_stopped
         Token.remove_stopwords].
    rewrite Hpass.
    by destruct (bool_decide (str_lower text' ∈ ignore)).
  - cbn [Token.remove_stopwords]. destruct remove'; cbn [negb fst snd]; [done|].
    cbn [fst snd negb Token.text Token.set_text Token.stopped Token.set_stopped
         Token.remove_stopwords].
    by rewrite Hpass.
Qed.

Lemma loop_over_stop_stem (stops : gset string) (minsize : Z) (maxsize : option Z)
    (stemmer : Stemmer) (ignore : gset string) (steps : list (Token -> Token)) :
  Forall tokenizer_round steps ->
  forall (s : unit * (option Z * unit)) (s' : unit * option Z) (t t' : Token),
    Token.remove_stopwords t = Token.remove_stopwords t' ->
    map Token.text
      (loop_over (fuse LowercaseFilter.body
                    (fuse (StopFilter.body stops minsize maxsize false)
                       (StemFilter.body stemmer ignore))) s t steps)
    = map (fun text => if StopFilter.passes stops minsize maxsize text
                       then stemmed stemmer ignore text else text)
        (map Token.text
           (loop_over (fuse LowercaseFilter.body
                         (StopFilter.body stops minsize maxsize false)) s' t' steps)).
Proof.
  induction 1 as [|f steps Hf _ IH]; intros s s' t t' Hremove; [done|].
  destruct Hf as (Htext & Hflag & _ & _).
  assert (Token.remove_stopwords (f t) = Token.remove_stopwords (f t')) as Hremove'
    by by rewrite !Hflag.
  pose proof (round_stop_stem stops minsize maxsize stemmer ignore s s'
                (f t) (f t') (Htext t t') Hremove') as (Hyielded & Hkept & Hstem).
  cbn [loop_over].
  destruct (fuse LowercaseFilter.body
              (fuse (StopFilter.body stops minsize maxsize false)
                 (StemFilter.body stemmer ignore)) s (f t)) as [[s1 m1] yielded].
  destruct (fuse LowercaseFilter.body
              (StopFilter.body stops minsize maxsize false) s' (f t'))
    as [[s1' m1'] yielded'].
  cbn [fst snd] in Hyielded, Hkept, Hstem. subst yielded'.
  destruct yielded; cbn [app map]; [|by apply IH].
  rewrite (Hstem eq_refl). f_equal. by apply IH.
Qed.

Lemma round_stem (stemmer : Stemmer) (ignore : gset string)
    (s : unit * unit) (s' : unit) (m m' : Token) :
  Token.text m = Token.text m' ->
  Token.stopped m = false ->
  fuse LowercaseFilter.body (StemFilter.body stemmer ignore) s m
  = (tt, tt,
     Token.set_text (stemmed stemmer ignore (str_lower (Token.text m')))
       (Token.set_text (str_lower (Token.text m')) m),
     true)
  /\ LowercaseFilter.body s' m'
     = (tt, Token.set_text (str_lower (Token.text m')) m', true).
Proof.
  destruct m as [positions chars remove mode boost stopped text original pos
                   start_char end_char].
  cbn [Token.text Token.stopped]. intros -> ->.
  unfold fuse, LowercaseFilter.body, StemFilter.body, stemmed.
  cbn [fst snd negb Token.text Token.set_text Token.stopped].
  by destruct (bool_decide (str_lower (Token.text m') ∈ ignore)).
Qed.

Lemma loop_over_stem (stemmer : Stemmer) (ignore : gset string)
    (steps : list (Token -> Token)) :
  Forall tokenizer_round steps ->
  Forall (fun f => forall t, Token.stopped t = false -> Token.stopped (f t) = false)
    steps ->
  forall (s : unit * unit) (s' : unit) (t t' : Token),
    Token.stopped t = false ->
    map Token.text
      (loop_over (fuse LowercaseFilter.body (StemFilter.body stemmer ignore)) s t steps)
    = map (stemmed stemmer ignore)
        (map Token.text (loop_over LowercaseFilter.body s' t' steps)).
Proof.
  induction 1 as [|f steps Hf _ IH]; intros Hkeeps s s' t t' Ht; [done|].
  inversion Hkeeps as [|? ? Hkeep Hkeeps']; subst.
  destruct Hf as (Htext & _ & _ & _).
  destruct (round_stem stemmer ignore s s' (f t) (f t') (Htext t t') (Hkeep t Ht))
    as [Hleft Hright].
  cbn [loop_over]. rewrite Hleft, Hright. cbn [app map]. f_equal.
  apply IH; [done|]. pose proof (Hkeep t Ht) as Hm. by destruct (f t).
Qed.

(** X23: [StemmingAnalyzer] gives the texts of [StandardAnalyzer] (same
    pattern, stop list, sizes and [gaps]), each one stemmed unless it is
    in [ignore]; a stop word that was left in the stream, marked, because
    the call said [remove_stopwords=False], is not stemmed either. *)
Theorem stemming_analyzer_texts (expression : re.Pattern)
    (stoplist : option (gset string)) (minsize : Z) (maxsize : option Z)
    (gaps : bool) (stemmer : option Stemmer) (ignore : option (list string))
    (by_lang : Stemmer) (value : string) (kw : kwargs) :
  exists words : list string,
    texts (StandardAnalyzer expression stoplist minsize maxsize gaps) value kw
    = Ok words
    /\ texts (StemmingAnalyzer expression stoplist minsize maxsize gaps
                stemmer ignore by_lang) value kw
       = Ok (map (fun text =>
                    if match stoplist with
                       | Some stops => StopFilter.passes stops minsize maxsize text
                       | None => true
                       end
                    then stemmed (default by_lang stemmer)
                           (match ignore with
                            | None => ∅
                            | Some words => list_to_set words
                            end) text
                    else text) words).
Proof.
  destruct (regex_generator expression gaps value kw)
    as (steps & Hgen & Hrounds & Hkeeps).
  unfold texts, StandardAnalyzer, StemmingAnalyzer, new_StemFilter, analyze,
    CompositeAnalyzer.__call__.
  destruct stoplist as [stops|];
    cbn [bind __or__ CompositeAnalyzer.__init__ CompositeAnalyzer.collect fold_left
         app tail existsb is_tokenizer orb tokenize CompositeAnalyzer.run_filters
         CompositeAnalyzer.is_morph andb negb call];
    rewrite Hgen;
    unfold StemFilter.__call__, StopFilter.__call__, LowercaseFilter.__call__;
    rewrite ?drain_fuse.
  - destruct (drain_for_in_generator
                (fuse LowercaseFilter.body
                   (StopFilter.body stops minsize maxsize false))
                (tt, None) (new_token kw) steps empty_world) as [w1 ->].
    match goal with
    | |- context [for_in ?body ?s (generator _ _ _)] =>
        destruct (drain_for_in_generator body s (new_token kw) steps empty_world)
          as [w2 ->]
    end.
    cbn [bind]. eexists. split; [reflexivity|]. f_equal.
    by apply loop_over_stop_stem.
  - destruct (drain_for_in_generator LowercaseFilter.body tt (new_token kw) steps
                empty_world) as [w1 ->].
    match goal with
    | |- context [for_in ?body ?s (generator _ _ _)] =>
        destruct (drain_for_in_generator body s (new_token kw) steps empty_world)
          as [w2 ->]
    end.
    cbn [bind]. eexists. split; [reflexivity|]. f_equal.
    by apply loop_over_stem.
Qed.

(** ** Filters that rewrite the text *)

Ltac ignores_text :=
  unfold ignores_text, when; intros;
  repeat match goal with
         | |- context [if ?b then _ else _] => destruct b
         end;
  repeat match goal with
         | t : Token |- _ => destruct t
         end;
  reflexivity.

Lemma split_ignores_text (value : string) (kw : kwargs) (matches : list re.Match) :
  forall prevend pos : Z,
    Forall ignores_text (RegexTokenizer.split value kw matches prevend pos).
Proof.
  induction matches as [|m matches IH]; intros prevend pos;
    cbn [RegexTokenizer.split].
  - destruct (prevend <? len value); [|constructor].
    constructor; [|constructor]. unfold RegexTokenizer.on_tail. ignores_text.
  - destruct (truthy _); [constructor|]; [|apply IH..].
    unfold RegexTokenizer.on_gap. ignores_text.
Qed.

Lemma walk_ignores_text (char_map : gmap N (option string)) (value : string)
    (kw : kwargs) (rest : string) :
  forall (text : string) (pos start current : Z),
    Forall ignores_text
      (fst (CharsetTokenizer.walk char_map value kw rest text pos start current)).
Proof.
  induction rest as [|c rest IH]; intros text pos start current;
    cbn [CharsetTokenizer.walk].
  - destruct (start <? current); [|constructor].
    constructor; [|constructor]. unfold CharsetTokenizer.on_end. ignores_text.
  - destruct (char_map !! ord c) as [tchar|]; [|constructor].
    destruct (CharsetTokenizer.is_kept tchar); [apply IH|].
    specialize (IH "" (if (start <? current) && kw_positions kw
                       then pos + 1 else pos) (current + 1) (current + 1)).
    destruct (CharsetTokenizer.walk _ _ _ rest _ _ _ _) as [steps fin].
    cbn [fst] in *.
    destruct (start <? current); [constructor|]; [|done..].
    unfold CharsetTokenizer.on_break. ignores_text.
Qed.

Lemma prefixes_ignore_text (value : string) (kw : kwargs) (matches : list re.Match) :
  forall pos : Z, Forall ignores_text (PathTokenizer.prefixes value kw matches pos).
Proof.
  induction matches as [|m matches IH]; intros pos; constructor; [|apply IH].
  ignores_text.
Qed.

(** No tokenizer reads the text of its token: every round assigns it. *)
Lemma tokenize_ignores_text (s : stage) (value : string) (kw : kwargs) (gen : iter) :
  tokenize s value kw = Some gen ->
  exists t0 steps fin,
    gen = generator t0 steps fin /\ Forall ignores_text steps.
Proof.
  destruct s; try discriminate; intros [= <-]; cbn [tokenize].
  - eexists _, _, _. split; [reflexivity|]. constructor; [ignores_text|constructor].
  - unfold RegexTokenizer.__call__. eexists _, _, _. split; [reflexivity|].
    destruct (kw_tokenize kw); cbn [negb].
    + destruct gaps; cbn [negb]; [apply split_ignores_text|].
      apply imap_all. intros i m. unfold RegexTokenizer.on_match. ignores_text.
    + constructor; [|constructor]. unfold RegexTokenizer.whole. ignores_text.
  - unfold CharsetTokenizer.__call__.
    destruct (kw_tokenize kw); cbn [negb].
    + pose proof (walk_ignores_text char_map value kw value "" (kw_start_pos kw)
                    (kw_start_char kw) (kw_start_char kw)) as Hrounds.
      destruct (CharsetTokenizer.walk _ _ _ _ _ _ _ _) as [steps fin].
      by eexists _, _, _.
    + eexists _, _, _. split; [reflexivity|].
      constructor; [|constructor]. unfold CharsetTokenizer.whole. ignores_text.
  - unfold PathTokenizer.__call__. eexists _, _, _. split; [reflexivity|].
    apply prefixes_ignore_text.
Qed.

Lemma loop_over_map_text (g : string -> string) (steps : list (Token -> Token)) :
  Forall ignores_text steps ->
  forall (t t' : Token) (x : string),
    t = Token.set_text x t' ->
    loop_over (fun (_ : unit) t => (tt, map_text g t, true)) tt t steps
    = map (map_text g) (snapshots t' steps).
Proof.
  induction 1 as [|f steps Hf _ IH]; intros t t' x ->; [done|].
  cbn [loop_over snapshots app map]. rewrite Hf. f_equal.
  by apply (IH _ _ (g (Token.text (f t')))).
Qed.

Lemma set_text_same (t : Token) : t = Token.set_text (Token.text t) t.
Proof. by destruct t. Qed.

(** X24: behind a tokenizer, [LowercaseFilter], [StripFilter] and
    [CharsetFilter] change the text of each token and nothing else: the
    consumer reads as many tokens, in the same order, each with its text
    put in lower case, stripped, or translated with the map, and with
    every other attribute as the tokenizer set it. *)
Theorem text_filters_change_text_only (s : stage) (value : string) (kw : kwargs)
    (char_map : gmap N (option string)) (gen : iter) (w w1 : world)
    (ts : list Token) :
  tokenize s value kw = Some gen ->
  drain gen w = Ok (ts, w1) ->
  (exists w2, drain (LowercaseFilter.__call__ gen) w
              = Ok (map (map_text str_lower) ts, w2))
  /\ (exists w2, drain (StripFilter.__call__ gen) w
                 = Ok (map (map_text str_strip) ts, w2))
  /\ (exists w2, drain (CharsetFilter.__call__ char_map gen) w
                 = Ok (map (map_text (CharsetFilter.translate char_map)) ts, w2)).
Proof.
  intros Hgen Hts.
  destruct (tokenize_ignores_text s value kw gen Hgen)
    as (t0 & steps & fin & -> & Hrounds).
  destruct fin as [e|]; [by rewrite drain_generator_raise in Hts|].
  rewrite drain_generator in Hts. injection Hts as <- _.
  assert (forall g : string -> string,
            exists w2,
              drain (for_in (fun (_ : unit) t => (tt, map_text g t, true)) tt
                       (generator t0 steps None)) w
              = Ok (map (map_text g) (snapshots t0 steps), w2))
    as Hloop.
  { intros g.
    destruct (drain_for_in_generator
                (fun (_ : unit) t => (tt, map_text g t, true)) tt t0
                steps w) as [w2 ->].
    exists w2. f_equal. f_equal.
    apply (loop_over_map_text g steps Hrounds _ _ _ (set_text_same _)). }
  split; [apply (Hloop str_lower)|].
  split; [apply (Hloop str_strip)|].
  apply (Hloop (CharsetFilter.translate char_map)).
Qed.

Lemma text_filters_change_text_only_witness :
  exists ts w1,
    drain (RegexTokenizer.__call__ default_pattern false "AB BA" chars_kwargs)
      empty_world = Ok (ts, w1)
    /\ (exists w2,
          drain (LowercaseFilter.__call__
                   (RegexTokenizer.__call__ default_pattern false "AB BA" chars_kwargs))
            empty_world = Ok (map (map_text str_lower) ts, w2))
    /\ (exists w2,
          drain (StripFilter.__call__
                   (RegexTokenizer.__call__ default_pattern false "AB BA" chars_kwargs))
            empty_world = Ok (map (map_text str_strip) ts, w2))
    /\ (exists w2,
          drain (CharsetFilter.__call__ folding
                   (RegexTokenizer.__call__ default_pattern false "AB BA" chars_kwargs))
            empty_world
          = Ok (map (map_text (CharsetFilter.translate folding)) ts, w2)).
Proof.
  eexists _, _.
  refine ((fun Hdrain =>
             conj Hdrain
               (text_filters_change_text_only (RegexTokenizer default_pattern false)
                  "AB BA" chars_kwargs folding _ empty_world _ _ eq_refl Hdrain)) _).
  vm_compute. reflexivity.
Defined.

(** ** KeywordAnalyzer *)

Lemma regex_ignores_text (expression : re.Pattern) (gaps : bool) (value : string)
    (kw : kwargs) :
  exists steps,
    RegexTokenizer.__call__ expression gaps value kw
    = generator (new_token kw) steps None
    /\ Forall ignores_text steps.
Proof.
  eexists. split; [reflexivity|].
  destruct (kw_tokenize kw); cbn [negb].
  - destruct gaps; cbn [negb]; [apply split_ignores_text|].
    apply imap_all. intros i m. unfold RegexTokenizer.on_match. ignores_text.
  - constructor; [|constructor]. unfold RegexTokenizer.whole. ignores_text.
Qed.

Lemma map_text_text (g : string -> string) (ts : list Token) :
  map Token.text (map (map_text g) ts) = map g (map Token.text ts).
Proof.
  induction ts as [|t ts IH]; [done|]. cbn [map]. rewrite IH. by destruct t.
Qed.

Lemma drain_map_text (g : string -> string) (t : Token)
    (steps : list (Token -> Token)) (w : world) :
  Forall ignores_text steps ->
  exists w',
    drain (for_in (fun (_ : unit) t => (tt, map_text g t, true)) tt
             (generator t steps None)) w
    = Ok (map (map_text g) (snapshots t steps), w').
Proof.
  intros Hrounds.
  destruct (drain_for_in_generator
              (fun (_ : unit) t => (tt, map_text g t, true)) tt t steps w)
    as [w' ->].
  exists w'. f_equal. f_equal.
  apply (loop_over_map_text g steps Hrounds _ _ _ (set_text_same _)).
Qed.

Lemma drain_map_text_twice (g1 g2 : string -> string) (tokens : iter) (w : world) :
  drain (for_in (fun (_ : unit) t => (tt, map_text g2 t, true)) tt
           (for_in (fun (_ : unit) t => (tt, map_text g1 t, true)) tt tokens)) w
  = drain (for_in (fun (_ : unit) t => (tt, map_text (fun x => g2 (g1 x)) t, true))
             tt tokens) w.
Proof.
  rewrite drain_fuse.
  apply (drain_for_in_related _ _ (fun _ _ => True)); [|done].
  intros s1 s2 t _. unfold fuse. cbn [fst snd]. by destruct t.
Qed.

(** X25: [KeywordAnalyzer] gives the texts that its tokenizer matches (runs
    without white space, or without a comma when [commas] is set), each
    stripped of surrounding white space when [commas] is set, and then put
    in lower case when [lowercase] is set. *)
Theorem keyword_analyzer_texts (lowercase commas : bool) (value : string)
    (kw : kwargs) :
  exists words : list string,
    texts (Ok (Single (keyword_tokenizer commas))) value kw = Ok words
    /\ texts (KeywordAnalyzer lowercase commas) value kw
       = Ok (map (fun text =>
                    (if lowercase then str_lower else id)
                      ((if commas then str_strip else id) text)) words).
Proof.
  assert (exists steps,
            tokenize (keyword_tokenizer commas) value kw
            = Some (generator (new_token kw) steps None)
            /\ Forall ignores_text steps) as (steps & Hgen & Hrounds).
  { destruct commas; cbn [keyword_tokenizer]; [|unfold SpaceSeparatedTokenizer];
      cbn [tokenize];
      match goal with
      | |- context [RegexTokenizer.__call__ ?e ?g value kw] =>
          destruct (regex_ignores_text e g value kw) as (steps & -> & Hrounds)
      end; by exists steps. }
  exists (map Token.text (snapshots (new_token kw) steps)).
  split.
  { unfold texts, analyze. cbn [bind]. rewrite Hgen. cbn [bind].
    by rewrite drain_generator. }
  unfold texts, KeywordAnalyzer, CommaSeparatedTokenizer, analyze,
    CompositeAnalyzer.__call__.
  destruct commas, lowercase;
    cbn [keyword_tokenizer] in Hgen;
    cbn [bind __or__ CompositeAnalyzer.__init__ CompositeAnalyzer.collect fold_left
         app tail existsb is_tokenizer orb];
    try (unfold SpaceSeparatedTokenizer in *;
         cbn [bind __or__ CompositeAnalyzer.__init__ CompositeAnalyzer.collect
              fold_left app tail existsb is_tokenizer orb]);
    cbn [CompositeAnalyzer.run_filters CompositeAnalyzer.is_morph andb negb call];
    rewrite Hgen; cbn [bind CompositeAnalyzer.run_filters
                       CompositeAnalyzer.is_morph andb negb call].
  - unfold LowercaseFilter.__call__, StripFilter.__call__,
      LowercaseFilter.body, StripFilter.body.
    rewrite (drain_map_text_twice str_strip str_lower).
    destruct (drain_map_text (fun x => str_lower (str_strip x)) (new_token kw)
                steps empty_world Hrounds) as [w' ->].
    cbn [bind]. by rewrite map_text_text.
  - destruct (drain_map_text str_strip (new_token kw) steps empty_world Hrounds)
      as [w' Hdrain].
    unfold StripFilter.__call__, StripFilter.body.
    unfold map_text in Hdrain at 1. rewrite Hdrain.
    cbn [bind]. by rewrite map_text_text.
  - destruct (drain_map_text str_lower (new_token kw) steps empty_world Hrounds)
      as [w' Hdrain].
    unfold LowercaseFilter.__call__, LowercaseFilter.body.
    unfold map_text in Hdrain at 1. rewrite Hdrain.
    cbn [bind]. by rewrite map_text_text.
  - rewrite drain_generator. cbn [bind]. by rewrite map_id.
Qed.

(** ** CharsetTokenizer and [str.translate] *)

Lemma str_append_assoc (a b c : string) : (a +:+ b) +:+ c = a +:+ (b +:+ c).
Proof.
  induction a as [|x a IH]; [done|].
  change (String x ((a +:+ b) +:+ c) = String x (a +:+ (b +:+ c))).
  by rewrite IH.
Qed.

Lemma joined_texts (ts : list Token) :
  joined ts = foldr String.append "" (map Token.text ts).
Proof.
  induction ts as [|t ts IH]; [done|].
  change (Token.text t +:+ joined ts
          = Token.text t +:+ foldr String.append "" (map Token.text ts)).
  by rewrite IH.
Qed.

(** Up to a break character, the texts yielded inside the loop are the
    translation of what was read. *)
Lemma walk_translate (char_map : gmap N (option string)) (value : string)
    (kw : kwargs) (c : ascii) (tchar : option string) (body : string) :
  char_map !! ord c = Some tchar ->
  CharsetTokenizer.is_kept tchar = false ->
  forall (text : string) (pos start current : Z),
    start <= current ->
    start < current \/ text = "" ->
    snd (CharsetTokenizer.walk char_map value kw (body +:+ String c "")
           text pos start current) = None ->
    exists values : list string,
      Forall2 (fun f v => forall t, Token.text (f t) = v)
        (fst (CharsetTokenizer.walk char_map value kw (body +:+ String c "")
                text pos start current))
        values
      /\ foldr String.append "" values
         = text +:+ CharsetFilter.translate char_map body.
Proof.
  intros Hc Hbreak.
  induction body as [|d body IH]; intros text pos start current Hle Hopen Hfin.
  - change ("" +:+ String c "") with (String c "") in *.
    cbn [CharsetTokenizer.walk] in *. rewrite Hc, Hbreak in *.
    rewrite Z.ltb_irrefl in *. cbn [fst snd CharsetFilter.translate] in *.
    destruct (start <? current) eqn:Hrun.
    + exists [text]. split; [|done].
      constructor; [|constructor]. intros t. apply on_break_text.
    + exists []. split; [constructor|].
      destruct Hopen as [Hlt| ->]; [|done]. apply Z.ltb_ge in Hrun. lia.
  - change (String d body +:+ String c "")
      with (String d (body +:+ String c "")) in *.
    cbn [CharsetTokenizer.walk CharsetFilter.translate] in *.
    destruct (char_map !! ord d) as [td|]; [|done].
    destruct (CharsetTokenizer.is_kept td) eqn:Hkept.
    + destruct td as [x|]; [|done]. cbn [default].
      destruct (IH (text +:+ x) pos start (current + 1)) as (values & Hvalues & Hjoin);
        [lia|left; lia|exact Hfin|].
      exists values. split; [exact Hvalues|].
      by rewrite Hjoin, str_append_assoc.
    + specialize (IH "" (if (start <? current) && kw_positions kw
                         then pos + 1 else pos) (current + 1) (current + 1)).
      destruct (CharsetTokenizer.walk _ _ _ (body +:+ String c "") _ _ _ _)
        as [steps fin].
      cbn [fst snd] in *.
      destruct IH as (values & Hvalues & Hjoin); [lia|by right|exact Hfin|].
      assert (CharsetFilter.translate char_map body
              = match td with
                | Some x => x +:+ CharsetFilter.translate char_map body
                | None => CharsetFilter.translate char_map body
                end) as Hskip by (by destruct td as [[|]|]).
      rewrite <- Hskip.
      change ("" +:+ CharsetFilter.translate char_map body)
        with (CharsetFilter.translate char_map body) in Hjoin.
      destruct (start <? current) eqn:Hrun.
      * exists (text :: values). split.
        -- constructor; [|exact Hvalues]. intros t. apply on_break_text.
        -- cbn [foldr]. by rewrite Hjoin.
      * exists values. split; [exact Hvalues|].
        destruct Hopen as [Hlt| ->]; [apply Z.ltb_ge in Hrun; lia|].
        by rewrite Hjoin.
Qed.

(** X26: on an input that ends in a break character, the character-map
    tokenizer yields the translation of the input, cut at the break
    characters: the texts of its tokens, put one after the other, are what
    [str.translate] (and so [CharsetFilter]) makes of the input with the
    same map. *)
Theorem charset_tokenizer_translates (char_map : gmap N (option string))
    (value : string) (c : ascii) (tchar : option string) (kw : kwargs)
    (w w' : world) (ts : list Token) :
  kw_tokenize kw = true ->
  char_map !! ord c = Some tchar ->
  CharsetTokenizer.is_kept tchar = false ->
  drain (CharsetTokenizer.__call__ char_map (value +:+ String c "") kw) w
  = Ok (ts, w') ->
  joined ts = CharsetFilter.translate char_map (value +:+ String c "").
Proof.
  intros Htok Hc Hbreak. unfold CharsetTokenizer.__call__. rewrite Htok.
  cbn [negb].
  pose proof (walk_translate char_map (value +:+ String c "") kw c tchar value
                Hc Hbreak "" (kw_start_pos kw) (kw_start_char kw)
                (kw_start_char kw)) as Hwalk.
  destruct (CharsetTokenizer.walk _ _ _ _ _ _ _ _) as [steps [e|]].
  - by rewrite drain_generator_raise.
  - rewrite drain_generator. intros [= <- _].
    destruct Hwalk as (values & Hvalues & Hjoin); [lia|by right|done|].
    rewrite joined_texts, (snapshots_assigned _ _ _ Hvalues), Hjoin.
    change ("" +:+ CharsetFilter.translate char_map value)
      with (CharsetFilter.translate char_map value).
    clear -Hc Hbreak. induction value as [|d value IH].
    + change ("" +:+ String c "") with (String c "").
      cbn [CharsetFilter.translate]. rewrite Hc. by destruct tchar as [[|]|].
    + change (String d value +:+ String c "")
        with (String d (value +:+ String c "")).
      cbn [CharsetFilter.translate]. rewrite <- IH.
      by destruct (char_map !! ord d) as [[|]|].
Qed.

Lemma charset_tokenizer_translates_witness :
  exists ts w',
    drain (CharsetTokenizer.__call__ folding ("AB  BA" +:+ String " " "") no_kwargs)
      empty_world = Ok (ts, w')
    /\ joined ts = CharsetFilter.translate folding ("AB  BA" +:+ String " " "").
Proof.
  eexists _, _.
  refine ((fun Hdrain =>
             conj Hdrain
               (charset_tokenizer_translates folding "AB  BA" " " None no_kwargs
                  empty_world _ _ eq_refl eq_refl eq_refl Hdrain)) _).
  vm_compute. reflexivity.
Defined.

(** ** Empty input *)

Lemma group0_empty (m : re.Match) : re.group0 "" m = "".
Proof. unfold re.group0. apply slice_empty. Qed.

Lemma slice_to_empty (j : Z) : slice_to "" j = "".
Proof. unfold slice_to. by destruct (Z.to_nat _). Qed.

Lemma prefixes_length (value : string) (kw : kwargs) (matches : list re.Match) :
  forall pos : Z,
    List.length (PathTokenizer.prefixes value kw matches pos) = List.length matches.
Proof.
  induction matches as [|m matches IH]; intros pos; [done|].
  cbn [PathTokenizer.prefixes List.length]. by rewrite IH.
Qed.

(** C6, as the code has it: on the empty string no tokenizer raises, for
    any keyword arguments, and every token has the empty string as its
    text.  The regex tokenizer yields one token when called with
    [tokenize=False]; otherwise none when it splits on its pattern
    ([gaps=True]), and one per match of its pattern in the empty string
    when it does not, so none when the pattern has no match there.  The
    path tokenizer yields one token per match of its pattern in the empty
    string.  The character-map tokenizer yields one token when called with
    [tokenize=False] and none otherwise.  The ID tokenizer yields exactly
    one token. *)
Theorem empty_input (expression expr : re.Pattern) (gaps : bool)
    (char_map : gmap N (option string)) (kw : kwargs) (w : world) :
  (exists ts w',
     drain (RegexTokenizer.__call__ expression gaps "" kw) w = Ok (ts, w')
     /\ Forall (fun t => Token.text t = "") ts
     /\ List.length ts
        = if negb (kw_tokenize kw) then 1%nat
          else if gaps then 0%nat
               else List.length (re.finditer expression ""))
  /\ (exists ts w',
        drain (PathTokenizer.__call__ expr "" kw) w = Ok (ts, w')
        /\ Forall (fun t => Token.text t = "") ts
        /\ List.length ts = List.length (re.finditer expr ""))
  /\ (exists ts w',
        drain (CharsetTokenizer.__call__ char_map "" kw) w = Ok (ts, w')
        /\ Forall (fun t => Token.text t = "") ts
        /\ List.length ts = if negb (kw_tokenize kw) then 1%nat else 0%nat)
  /\ (exists t w',
        drain (IDTokenizer.__call__ "" kw) w = Ok ([t], w')
        /\ Token.text t = "").
Proof.
  assert (forall t, Token.text (RegexTokenizer.whole "" kw t) = "") as Hwhole.
  { intros t. unfold RegexTokenizer.whole, when.
    by destruct (kw_positions kw), (kw_chars kw). }
  repeat split.
  - unfold RegexTokenizer.__call__. rewrite drain_generator.
    eexists _, _. split; [reflexivity|].
    destruct (kw_tokenize kw); cbn [negb].
    + destruct gaps; cbn [negb].
      * by rewrite split_empty.
      * split.
        -- apply snapshots_all, imap_all. intros i m t.
           by rewrite on_match_text, group0_empty.
        -- by rewrite snapshots_length, length_imap.
    + split; [|done]. constructor; [apply Hwhole | constructor].
  - unfold PathTokenizer.__call__. rewrite drain_generator.
    eexists _, _. split; [reflexivity|]. split.
    + apply Forall_map with (f := Token.text) (P := fun s => s = "").
      rewrite (snapshots_assigned _ _ _ (prefixes_texts "" kw _ _)).
      apply Forall_map, Forall_forall. intros m _. apply slice_to_empty.
    + by rewrite snapshots_length, prefixes_length.
  - unfold CharsetTokenizer.__call__.
    destruct (kw_tokenize kw); cbn [negb].
    + cbn [CharsetTokenizer.walk]. rewrite Z.ltb_irrefl, drain_generator.
      by eexists _, _.
    + rewrite drain_generator. eexists _, _. split; [reflexivity|].
      split; [|done]. constructor; [apply Hwhole | constructor].
  - unfold IDTokenizer.__call__. rewrite drain_generator.
    eexists _, _. split; [reflexivity|].
    cbn [snapshots]. unfold when.
    by destruct (kw_keep_original kw), (kw_positions kw), (kw_chars kw).
Qed.
